(** * nexuslb: RDMA transport core, GPU batch-plan follower, dispatch ingress

    A shallow embedding of
    - [src/nexus/backend/gpu_executor.cpp]   (module [Follower]),
    - [src/nexus/dispatcher/model_worker.cpp] (module [Dispatcher]),
    - [src/ario/rdma.cpp]                     (modules [Ario], [Connector]),
    - [src/nexus/backend/model_ins_simple.cpp] and
      [src/tools/load_test/load.cpp]          (module [ModelInstance]),
    together with the two heap algorithms of the C++ standard library that
    the follower calls (module [StdHeap]).

    Layout: the definitions of every module come first, the lemmas and the
    theorems about them afterwards. *)

From Stdlib Require Import ZifyNat.
From stdpp Require Import base decidable option numbers list strings gmap
  sorting.

Local Open Scope Z_scope.

(* ===================================================================== *)
(** * std::push_heap / std::pop_heap                                      *)
(* ===================================================================== *)

(** [gpu_executor.cpp] keeps [plans_] as a binary heap inside a
    [std::vector] through [std::push_heap] and [std::pop_heap].  The two
    algorithms are embedded as libstdc++ writes them ([__push_heap],
    [__adjust_heap], [__pop_heap] of [bits/stl_heap.h]): a hole travels
    through the array and the saved value is written once at the end.
    Indices are [ptrdiff_t] there and [nat] here; every subtraction below
    is guarded exactly as in the C++ loops, so truncation never shows. *)
Module StdHeap.

Section algorithms.
Context {A : Type} `{!Inhabited A}.
Variable comp : A → A → bool.

(** [__push_heap(first, holeIndex, topIndex, value, comp)]:
<<
  parent = (holeIndex - 1) / 2;
  while (holeIndex > topIndex && comp(first[parent], value)) {
    first[holeIndex] = move(first[parent]);
    holeIndex = parent;
    parent = (holeIndex - 1) / 2;
  }
  first[holeIndex] = move(value);
>>
    The hole index strictly decreases, so [holeIndex] iterations always
    suffice; [fuel] only makes the recursion structural. *)
Fixpoint push_heap_loop (fuel : nat) (first : list A)
    (holeIndex topIndex : nat) (value : A) : list A :=
  match fuel with
  | O => <[holeIndex := value]> first
  | S fuel' =>
      let parent := ((holeIndex - 1) / 2)%nat in
      if bool_decide (topIndex < holeIndex)%nat && comp (first !!! parent) value
      then push_heap_loop fuel' (<[holeIndex := first !!! parent]> first)
                          parent topIndex value
      else <[holeIndex := value]> first
  end.

Definition push_heap_aux (first : list A) (holeIndex topIndex : nat)
    (value : A) : list A :=
  push_heap_loop holeIndex first holeIndex topIndex value.

(** [std::push_heap(first, last, comp)]: the element at [last - 1] is
    sifted up into the heap [first, last - 1). *)
Definition push_heap (v : list A) : list A :=
  match length v with
  | O => v
  | S n => push_heap_aux v n 0 (v !!! n)
  end.

(** The [while (secondChild < (len - 1) / 2)] loop of [__adjust_heap]:
<<
    secondChild = 2 * (secondChild + 1);
    if (comp(first[secondChild], first[secondChild - 1])) secondChild--;
    first[holeIndex] = move(first[secondChild]);
    holeIndex = secondChild;
>>
    returning the array together with [holeIndex] and [secondChild]. *)
Fixpoint adjust_heap_down (fuel : nat) (first : list A)
    (holeIndex secondChild len : nat) : list A * nat * nat :=
  match fuel with
  | O => (first, holeIndex, secondChild)
  | S fuel' =>
      if bool_decide (secondChild < (len - 1) / 2)%nat then
        let sc := (2 * (secondChild + 1))%nat in
        let sc' := if comp (first !!! sc) (first !!! (sc - 1)%nat)
                   then (sc - 1)%nat else sc in
        adjust_heap_down fuel' (<[holeIndex := first !!! sc']> first) sc' sc' len
      else (first, holeIndex, secondChild)
  end.

(** [__adjust_heap(first, holeIndex, len, value, comp)]. *)
Definition adjust_heap (first : list A) (holeIndex len : nat) (value : A)
    : list A :=
  let topIndex := holeIndex in
  let '(first1, hole1, secondChild) :=
      adjust_heap_down len first holeIndex holeIndex len in
  let '(first2, hole2) :=
      if bool_decide (len `mod` 2 = 0)%nat
         && bool_decide (secondChild = (len - 2) / 2)%nat
      then let sc := (2 * (secondChild + 1))%nat in
           (<[hole1 := first1 !!! (sc - 1)%nat]> first1, (sc - 1)%nat)
      else (first1, hole1) in
  push_heap_aux first2 hole2 topIndex value.

(** [std::pop_heap(first, last, comp)]:
<<
  if (last - first > 1) {
    --last;
    value = move(last[0]); last[0] = move(first[0]);
    __adjust_heap(first, 0, last - first, move(value), comp);
  }
>>
    The range [first, last - 1) is the prefix [take n v]; the old top ends
    up at the back. *)
Definition pop_heap (v : list A) : list A :=
  match length v with
  | O | S O => v
  | S n => adjust_heap (take n v) 0 n (v !!! n) ++ [v !!! 0%nat]
  end.

(** [std::is_heap]: no element compares below its child. *)
Definition is_heap (v : list A) : Prop :=
  ∀ i : nat, (0 < i < length v)%nat →
    comp (v !!! ((i - 1) / 2)%nat) (v !!! i) = false.

End algorithms.

End StdHeap.


(* ===================================================================== *)
(** * A small error monad for code that can abort the process             *)
(* ===================================================================== *)

(** [CHECK], [LOG(FATAL)] and [die] end the process; a function that may
    reach one of them returns [Fatal] with the message instead of a value. *)
Inductive result (A : Type) : Type :=
  | Ok (a : A)
  | Fatal (msg : string).
Arguments Ok {A} a.
Arguments Fatal {A} msg.

Global Instance result_bind : MBind result := λ A B k r,
  match r with
  | Ok a => k a
  | Fatal msg => Fatal msg
  end.

Global Instance result_ret : MRet result := λ A a, Ok a.

(* ===================================================================== *)
(** * GpuExecutorPlanFollower  (src/nexus/backend/gpu_executor.cpp)       *)
(* ===================================================================== *)

Module Follower.

(** Time points are nanosecond counts since the clock's epoch. *)
Abbreviation TimePoint := Z (only parsing).

(** [BatchPlanProto]: the fields the follower reads. *)
Record BatchPlanProto : Type := {
  plan_id : Z;
  model_index : nat;
  exec_time_ns : Z;
  expected_finish_time_ns : Z;
  queries_size : nat;
}.

(** [BatchPlanContext], reached through [plan->proto()]. *)
Record BatchPlanContext : Type := { proto : BatchPlanProto }.

(** [ModelExecutor], reached through [model->model()]: the members
    [model_index_] and [model_session_id_] of the model instance. *)
Record ModelExecutor : Type := {
  model_index_ : nat;
  model_session_id_ : string;
}.

Global Instance BatchPlanProto_eq_dec : EqDecision BatchPlanProto.
Proof. solve_decision. Defined.
Global Instance BatchPlanContext_eq_dec : EqDecision BatchPlanContext.
Proof. solve_decision. Defined.
Global Instance ModelExecutor_eq_dec : EqDecision ModelExecutor.
Proof. solve_decision. Defined.
Global Instance BatchPlanContext_inhabited : Inhabited BatchPlanContext :=
  populate {| proto := {| plan_id := 0; model_index := 0; exec_time_ns := 0;
                          expected_finish_time_ns := 0; queries_size := 0 |} |}.

(** Modelled from the spec: [ario::Timer] (ario/timer.h is not among the
    sources).  Section 4.E: a timer has [set_timeout(absolute_time)] and
    [async_wait(cb)]; the callback fires at or after the deadline and never
    earlier; re-arming a pending timer cancels the earlier wait, the most
    recent [set_timeout] wins and the earlier callback is delivered with
    [Cancelled].  So at most one wait is pending, and a callback delivered
    with [kOk] belongs to the deadline last set, which has passed.
    [timeout] is what [timeout()] returns: the time point last given to
    [SetTimeout], which is the timer's only writer in the follower, so that
    the value also stands once the wait for it has completed.  [armed] says
    that a wait is pending. *)
Record Timer : Type := {
  timeout : TimePoint;
  armed : bool;
}.

(** [next_timer_.SetTimeout(t); next_timer_.AsyncWait(OnTimer)]. *)
Definition SetTimeout_AsyncWait (t : TimePoint) (_ : Timer) : Timer :=
  {| timeout := t; armed := true |}.

(** The members of [GpuExecutorPlanFollower] that the operations touch. *)
Record State : Type := {
  models_ : list (option ModelExecutor);
  plans_ : list BatchPlanContext;
  next_timer_ : Timer;
  is_executing_ : bool;
}.

Definition set_models (ms : list (option ModelExecutor)) (s : State) : State :=
  {| models_ := ms; plans_ := plans_ s; next_timer_ := next_timer_ s;
     is_executing_ := is_executing_ s |}.
Definition set_plans (ps : list BatchPlanContext) (s : State) : State :=
  {| models_ := models_ s; plans_ := ps; next_timer_ := next_timer_ s;
     is_executing_ := is_executing_ s |}.
Definition set_timer (t : Timer) (s : State) : State :=
  {| models_ := models_ s; plans_ := plans_ s; next_timer_ := t;
     is_executing_ := is_executing_ s |}.
Definition set_executing (b : bool) (s : State) : State :=
  {| models_ := models_ s; plans_ := plans_ s; next_timer_ := next_timer_ s;
     is_executing_ := b |}.

(** <<
bool OrderBatchPlanProtoByExecTimeDesc(lhs, rhs) {
  return lhs->proto().exec_time_ns() > rhs->proto().exec_time_ns();
}
>> *)
Definition OrderBatchPlanProtoByExecTimeDesc (lhs rhs : BatchPlanContext)
    : bool :=
  bool_decide (exec_time_ns (proto rhs) < exec_time_ns (proto lhs)).

(** <<
void AddModel(model) {
  lock(mutex_);
  auto model_index = model->model()->model_index();
  if (models_.size() <= model_index.t) models_.resize(model_index + 1);
  CHECK(!models_[model_index.t]);
  models_[model_index.t] = model;
}
>> *)
Definition AddModel (model : ModelExecutor) (s : State) : result State :=
  let model_index := model_index_ model in
  let models1 :=
    if bool_decide (length (models_ s) ≤ model_index)%nat
    then resize (model_index + 1) None (models_ s)
    else models_ s in
  match models1 !! model_index with
  | Some None => Ok (set_models (<[model_index := Some model]> models1) s)
  | _ => Fatal "Check failed: !models_[model_index.t]"
  end.

(** <<
void RemoveModel(model) {
  lock(mutex_);
  auto model_index = model->model()->model_index();
  CHECK_GT(models_.size(), model_index);
  CHECK(models_[model_index.t] != nullptr);
  models_[model_index.t] = nullptr;
}
>> *)
Definition RemoveModel (model : ModelExecutor) (s : State) : result State :=
  let model_index := model_index_ model in
  if bool_decide (model_index < length (models_ s))%nat then
    match models_ s !! model_index with
    | Some (Some _) => Ok (set_models (<[model_index := None]> (models_ s)) s)
    | _ => Fatal "Check failed: models_[model_index.t] != nullptr"
    end
  else Fatal "Check failed: models_.size() > model_index".

(** <<
void UpdateTimer() {
  if (plans_.empty()) return;
  const auto& plan = plans_[0];
  TimePoint exec_time(nanoseconds(plan->proto().exec_time_ns()));
  if (exec_time != next_timer_.timeout()) {
    next_timer_.SetTimeout(exec_time);
    next_timer_.AsyncWait([this](ErrorCode error) { OnTimer(error); });
  }
}
>> *)
Definition UpdateTimer (s : State) : State :=
  match plans_ s with
  | [] => s
  | plan :: _ =>
      let exec_time := exec_time_ns (proto plan) in
      if bool_decide (exec_time ≠ timeout (next_timer_ s))
      then set_timer (SetTimeout_AsyncWait exec_time (next_timer_ s)) s
      else s
  end.

(** <<
void AddBatchPlan(plan) {
  lock(mutex_);
  plans_.push_back(plan);
  std::push_heap(plans_.begin(), plans_.end(),
                 OrderBatchPlanProtoByExecTimeDesc);
  UpdateTimer();
}
>> *)
Definition AddBatchPlan (plan : BatchPlanContext) (s : State) : State :=
  let plans1 := plans_ s ++ [plan] in
  let plans2 := StdHeap.push_heap OrderBatchPlanProtoByExecTimeDesc plans1 in
  UpdateTimer (set_plans plans2 s).

(** ** [OnTimer], block by block *)

Inductive ErrorCode : Type := kOk | kCancelled | kError.

Global Instance ErrorCode_eq_dec : EqDecision ErrorCode.
Proof. solve_decision. Defined.

(** What the follower writes to the log and what it asks of the model
    executor.  [ExecuteBegin] is the call of [model->ExecuteBatchPlan(plan)]
    with the time of the call, [ExecuteEnd] its return. *)
Inductive Event : Type :=
  | LogWokeUpWithoutPlan
  | LogCannotFindModelIndex (plan : BatchPlanContext)
  | LogHugeStartDelay (plan : BatchPlanContext) (start_delay_us : Z)
  | LogHugeFinishDelay (plan : BatchPlanContext) (finish_delay_us : Z)
  | Accepted (plan : BatchPlanContext)
  | ExecuteBegin (plan : BatchPlanContext) (model : ModelExecutor)
                 (t : TimePoint)
  | ExecuteEnd (plan : BatchPlanContext) (t : TimePoint).

Global Instance Event_eq_dec : EqDecision Event.
Proof. solve_decision. Defined.

(** First critical section (lines 108-118):
<<
    if (plans_.empty()) { LOG(ERROR) << ...; return; }
    std::pop_heap(plans_.begin(), plans_.end(), Order...Desc);
    plan = std::move(plans_.back());
    plans_.pop_back();
>>
    [None] is the early return. *)
Definition OnTimer_pop (s : State) : option (BatchPlanContext * State) :=
  match plans_ s with
  | [] => None
  | _ :: _ =>
      let plans1 :=
        StdHeap.pop_heap OrderBatchPlanProtoByExecTimeDesc (plans_ s) in
      match last plans1 with
      | Some plan => Some (plan, set_plans (removelast plans1) s)
      | None => None
      end
  end.

(** Popping until the heap is empty, at most [n] times: the order in which
    the pending plans leave the heap when none is added meanwhile. *)
Fixpoint drain (n : nat) (s : State) : list BatchPlanContext :=
  match n with
  | O => []
  | S n' =>
      match OnTimer_pop s with
      | Some (plan, s1) => plan :: drain n' s1
      | None => []
      end
  end.

(** Second critical section (lines 122-131): the lookup
<<
    if (models_.size() <= model_index || !models_[model_index]) { ... }
    model = models_[model_index];
>> *)
Definition OnTimer_find (plan : BatchPlanContext) (s : State)
    : option ModelExecutor :=
  let model_index := model_index (proto plan) in
  if bool_decide (length (models_ s) ≤ model_index)%nat then None
  else match models_ s !! model_index with
       | Some (Some model) => Some model
       | _ => None
       end.

(** [duration_cast<microseconds>] of a nanosecond difference truncates
    towards zero. *)
Definition to_microseconds (ns : Z) : Z := ns `quot` 1000.

Definition start_delay_us (start_time : TimePoint) (plan : BatchPlanContext)
    : Z :=
  to_microseconds (start_time - exec_time_ns (proto plan)).

(** [(finish_time_ns - expected_finish_time_ns) / 1000], a C++ integer
    division. *)
Definition finish_delay_us (finish_time : TimePoint)
    (plan : BatchPlanContext) : Z :=
  (finish_time - expected_finish_time_ns (proto plan)) `quot` 1000.

(** Lines 142-144:
<<
  bool is_executing = is_executing_.test_and_set();
  CHECK(!is_executing) << "BUG: the backend has not finished ...";
>> *)
Definition test_and_set (s : State) : bool * State :=
  (is_executing_ s, set_executing true s).

Definition OnTimer_begin (s : State) : result State :=
  let '(is_executing, s1) := test_and_set s in
  if is_executing
  then Fatal "BUG: the backend has not finished the previous batch."
  else Ok s1.

(** Lines 165-166: [UpdateTimer(); is_executing_.clear();]. *)
Definition OnTimer_end (s : State) : State :=
  set_executing false (UpdateTimer s).

(** The whole of [OnTimer] when nothing else touches the follower while it
    runs.  [start_time] and [finish_time] are the two readings of
    [Clock::now()], before the pop and after [ExecuteBatchPlan] returns. *)
Definition OnTimer (error : ErrorCode) (start_time finish_time : TimePoint)
    (s : State) : result (State * list Event) :=
  if bool_decide (error ≠ kOk) then Ok (s, [])
  else
    match OnTimer_pop s with
    | None => Ok (s, [LogWokeUpWithoutPlan])
    | Some (plan, s1) =>
        match OnTimer_find plan s1 with
        | None => Ok (UpdateTimer s1, [LogCannotFindModelIndex plan])
        | Some model =>
            let warn1 :=
              if bool_decide (100 < start_delay_us start_time plan)
              then [LogHugeStartDelay plan (start_delay_us start_time plan)]
              else [] in
            s2 ← OnTimer_begin s1;
            let warn2 :=
              if bool_decide (100 < finish_delay_us finish_time plan)
              then [LogHugeFinishDelay plan
                      (finish_delay_us finish_time plan)]
              else [] in
            Ok (OnTimer_end s2,
                warn1 ++ [ExecuteBegin plan model start_time;
                          ExecuteEnd plan finish_time] ++ warn2)
        end
    end.

(** ** The follower among its callers

    [AddModel], [RemoveModel] and [AddBatchPlan] are called from other
    threads and take [mutex_]; [OnTimer] runs on the follower's event loop
    and takes [mutex_] twice, releasing it around the timing code and
    around [ExecuteBatchPlan].  A world is the follower's state, the clock,
    the point the follower thread has reached inside [OnTimer], and the
    log.  Every action is one critical section or one call. *)

Inductive Pc : Type :=
  | Idle
  | Woken (start_time : TimePoint)
  | Popped (start_time : TimePoint) (plan : BatchPlanContext)
  | Found (start_time : TimePoint) (plan : BatchPlanContext)
          (model : ModelExecutor)
  | Executing (start_time : TimePoint) (plan : BatchPlanContext)
              (model : ModelExecutor)
  | Aborted (msg : string).

Record World : Type := {
  follower : State;
  now : TimePoint;
  pc : Pc;
  log : list Event;
}.

Inductive Action : Type :=
  | Tick (dt : Z)
  | CallAddModel (model : ModelExecutor)
  | CallRemoveModel (model : ModelExecutor)
  | CallAddBatchPlan (plan : BatchPlanContext)
  | TimerExpires
  | TimerCancelled
  | FollowerStep.

Definition is_aborted (p : Pc) : bool :=
  match p with Aborted _ => true | _ => false end.

Definition with_follower (r : result State) (w : World) : World :=
  match r with
  | Ok s => {| follower := s; now := now w; pc := pc w; log := log w |}
  | Fatal msg =>
      {| follower := follower w; now := now w; pc := Aborted msg;
         log := log w |}
  end.

(** The follower thread's next block of [OnTimer]. *)
Definition follower_step (w : World) : option World :=
  let s := follower w in
  match pc w with
  | Woken start_time =>
      match OnTimer_pop s with
      | None =>
          Some {| follower := s; now := now w; pc := Idle;
                  log := log w ++ [LogWokeUpWithoutPlan] |}
      | Some (plan, s1) =>
          Some {| follower := s1; now := now w;
                  pc := Popped start_time plan; log := log w |}
      end
  | Popped start_time plan =>
      match OnTimer_find plan s with
      | None =>
          Some {| follower := UpdateTimer s; now := now w; pc := Idle;
                  log := log w ++ [LogCannotFindModelIndex plan] |}
      | Some model =>
          Some {| follower := s; now := now w;
                  pc := Found start_time plan model;
                  log := log w ++
                    (if bool_decide (100 < start_delay_us start_time plan)
                     then [LogHugeStartDelay plan
                             (start_delay_us start_time plan)]
                     else []) |}
      end
  | Found start_time plan model =>
      match OnTimer_begin s with
      | Fatal msg =>
          Some {| follower := s; now := now w; pc := Aborted msg;
                  log := log w |}
      | Ok s1 =>
          Some {| follower := s1; now := now w;
                  pc := Executing start_time plan model;
                  log := log w ++ [ExecuteBegin plan model (now w)] |}
      end
  | Executing start_time plan model =>
      Some {| follower := OnTimer_end s; now := now w; pc := Idle;
              log := log w ++ [ExecuteEnd plan (now w)] ++
                (if bool_decide (100 < finish_delay_us (now w) plan)
                 then [LogHugeFinishDelay plan (finish_delay_us (now w) plan)]
                 else []) |}
  | Idle | Aborted _ => None
  end.

(** [None]: the action is not enabled in this world. *)
Definition step (a : Action) (w : World) : option World :=
  if is_aborted (pc w) then None
  else
    match a with
    | Tick dt =>
        if bool_decide (0 ≤ dt)
        then Some {| follower := follower w; now := now w + dt; pc := pc w;
                     log := log w |}
        else None
    | CallAddModel model =>
        Some (with_follower (AddModel model (follower w)) w)
    | CallRemoveModel model =>
        Some (with_follower (RemoveModel model (follower w)) w)
    | CallAddBatchPlan plan =>
        Some {| follower := AddBatchPlan plan (follower w); now := now w;
                pc := pc w; log := log w ++ [Accepted plan] |}
    | TimerExpires =>
        (* the wait completes with [kOk]: the loop is idle, a wait is
           pending and its deadline has passed; [OnTimer] starts and reads
           the clock *)
        let t := next_timer_ (follower w) in
        match pc w with
        | Idle =>
            if armed t && bool_decide (timeout t ≤ now w)
            then Some {| follower :=
                           set_timer {| timeout := timeout t; armed := false |}
                                     (follower w);
                         now := now w; pc := Woken (now w); log := log w |}
            else None
        | _ => None
        end
    | TimerCancelled =>
        (* a wait that was re-armed is delivered with an error:
           [if (error != kOk) return;] *)
        match pc w with
        | Idle => Some w
        | _ => None
        end
    | FollowerStep => follower_step w
    end.

Fixpoint run (acts : list Action) (w : World) : option World :=
  match acts with
  | [] => Some w
  | a :: acts' =>
      match step a w with
      | Some w' => run acts' w'
      | None => None
      end
  end.

(** A freshly constructed follower: no model, no plan, the timer not armed
    (whatever deadline it was constructed with), nothing executing. *)
Definition init (timeout0 now0 : TimePoint) : World :=
  {| follower := {| models_ := []; plans_ := [];
                    next_timer_ := {| timeout := timeout0; armed := false |};
                    is_executing_ := false |};
     now := now0; pc := Idle; log := [] |}.

Definition reachable (w : World) : Prop :=
  ∃ timeout0 now0 acts, run acts (init timeout0 now0) = Some w.

(** The plans handed to [ExecuteBatchPlan], in call order. *)
Definition executed (l : list Event) : list BatchPlanContext :=
  omap (λ e, match e with ExecuteBegin p _ _ => Some p | _ => None end) l.

Definition accepted (l : list Event) : list BatchPlanContext :=
  omap (λ e, match e with Accepted p => Some p | _ => None end) l.

Definition discarded (l : list Event) : list BatchPlanContext :=
  omap (λ e, match e with LogCannotFindModelIndex p => Some p | _ => None end)
       l.

(** The plan the follower thread holds between the pop and the call. *)
Definition in_hand (p : Pc) : list BatchPlanContext :=
  match p with
  | Popped _ plan | Found _ plan _ => [plan]
  | _ => []
  end.

(** Calls of [ExecuteBatchPlan] never overlap: scanning the log, a call
    begins only when none is open and ends only the one that is open. *)
Fixpoint no_overlap (open : option BatchPlanContext) (l : list Event)
    : bool :=
  match l with
  | [] => true
  | ExecuteBegin p _ _ :: l' =>
      match open with
      | None => no_overlap (Some p) l'
      | Some _ => false
      end
  | ExecuteEnd p _ :: l' =>
      match open with
      | Some q => bool_decide (p = q) && no_overlap None l'
      | None => false
      end
  | _ :: l' => no_overlap open l'
  end.

End Follower.

(* ===================================================================== *)
(** * ModelWorker, the dispatch ingress                                   *)
(** (src/nexus/dispatcher/model_worker.cpp)                               *)
(* ===================================================================== *)

Module Dispatcher.

(** [CtrlStatus]: only [CTRL_OK] is named by the source; every other
    enumerator is a failure code. *)
Inductive CtrlStatus : Type :=
  | CTRL_OK
  | CTRL_FAILURE (code : positive).

Global Instance CtrlStatus_eq_dec : EqDecision CtrlStatus.
Proof. solve_decision. Defined.

(** The protobuf messages, with the fields the ingress reads or writes. *)
Record QueryPunchClockProto : Type := {
  dispatcher_recv_ns : Z;
  dispatcher_sched_ns : Z;
}.

Record QueryProtoWithoutInput : Type := {
  global_id : Z;
  clock : QueryPunchClockProto;
}.

Record DispatchRequest : Type := {
  model_index : nat;
  query_id : Z;
  query_without_input : QueryProtoWithoutInput;
}.

Record DispatchReply_Query : Type := {
  reply_query_id : Z;
  reply_clock : QueryPunchClockProto;
}.

Record DispatchReply : Type := {
  status : CtrlStatus;
  reply_model_index : nat;
  query_list : list DispatchReply_Query;
}.

(** [ControlMessage] and its [message_case()]. *)
Inductive ControlMessage : Type :=
  | kDispatch (dispatch : DispatchRequest)
  | kDispatchReply (dispatch_reply : DispatchReply)
  | kOtherCase (field_number : positive)
  | MESSAGE_NOT_SET.

(** A freshly constructed [DispatchReply]: protobuf defaults. *)
Definition empty_reply : DispatchReply :=
  {| status := CTRL_OK; reply_model_index := 0; query_list := [] |}.

(** What the ingress consumes and the sources do not contain: the protobuf
    decoder, the global id issuer, and the scheduler's request entrance.
    [EnqueueQuery] receives the request as an rvalue reference; besides the
    status it yields what is left in the caller's [request] object
    afterwards, which [HandleDispatch] goes on to read. *)
Class Collaborators : Type := {
  ParseFromArray : list Z → option ControlMessage;
  GlobalIdIssuer : Type;
  Next : GlobalIdIssuer → Z * GlobalIdIssuer;
  RequestEntrance : Type;
  default_entrance : RequestEntrance;
  entrance_model_index : RequestEntrance → nat;
  EnqueueQuery :
    RequestEntrance → DispatchRequest → CtrlStatus * DispatchRequest;
}.

(** How a call ends: it returns, it leaves through a C++ exception, or it
    ends the process through [LOG(FATAL)]. *)
Inductive outcome (A : Type) : Type :=
  | Returned (a : A)
  | Thrown (what : string)
  | LogFatal (msg : string).
Arguments Returned {A} a.
Arguments Thrown {A} what.
Arguments LogFatal {A} msg.

Global Instance outcome_bind : MBind outcome := λ A B k r,
  match r with
  | Returned a => k a
  | Thrown what => Thrown what
  | LogFatal msg => LogFatal msg
  end.

Section ingress.
Context `{Collaborators}.

Record ModelWorker : Type := {
  model_session_entrance_table_ : list RequestEntrance;
  global_id_issuer_ : GlobalIdIssuer;
}.

(** The task [AddModelSession] posts to the executor:
<<
    if (table.size() <= entrance.model_index().t)
      table.resize(entrance.model_index().t + 1);
    table[entrance.model_index().t] = entrance;
>> *)
Definition AddModelSession (entrance : RequestEntrance) (w : ModelWorker)
    : ModelWorker :=
  let i := entrance_model_index entrance in
  let table := model_session_entrance_table_ w in
  let table1 :=
    if bool_decide (length table ≤ i)%nat
    then resize (i + 1) default_entrance table else table in
  {| model_session_entrance_table_ := <[i := entrance]> table1;
     global_id_issuer_ := global_id_issuer_ w |}.

Definition set_clock (c : QueryPunchClockProto) (r : DispatchRequest)
    : DispatchRequest :=
  {| model_index := model_index r; query_id := query_id r;
     query_without_input :=
       {| global_id := global_id (query_without_input r); clock := c |} |}.

Definition set_global_id (g : Z) (r : DispatchRequest) : DispatchRequest :=
  {| model_index := model_index r; query_id := query_id r;
     query_without_input :=
       {| global_id := g; clock := clock (query_without_input r) |} |}.

(** The request after the three writes that precede the enqueue:
    [set_dispatcher_recv_ns], [set_dispatcher_sched_ns], [set_global_id]. *)
Definition stamp (request : DispatchRequest)
    (recv_ns sched_ns gid : Z) : DispatchRequest :=
  set_global_id gid
    (set_clock {| dispatcher_recv_ns := recv_ns;
                  dispatcher_sched_ns := sched_ns |} request).

(** <<
void HandleDispatch(DispatchRequest&& request, DispatchReply* reply,
                    long dispatcher_recv_ns) {
  auto* clock = request.mutable_query_without_input()->mutable_clock();
  clock->set_dispatcher_recv_ns(dispatcher_recv_ns);
  auto dispatcher_sched_ns = Clock::now() ...;
  clock->set_dispatcher_sched_ns(dispatcher_sched_ns);
  auto global_id = global_id_issuer_.Next();
  query_without_input->set_global_id(global_id.t);
  auto& entrance = model_session_entrance_table_.at(request.model_index());
  auto status = entrance.EnqueueQuery(std::move(request));
  reply->set_status(status);
  if (status != CtrlStatus::CTRL_OK) {
    reply->set_model_index(request.model_index());
    auto* q = reply->add_query_list();
    q->set_query_id(request.query_id());
    q->mutable_clock()->CopyFrom(clock[0]);
  }
}
>>
    [std::vector::at] throws [std::out_of_range] for an index that is not
    below [size()].  [clock_now] is the reading of [Clock::now()].

    [clock] is a pointer taken before the call of [EnqueueQuery]: it refers
    to the clock object the ingress has just stamped, and goes on referring
    to it wherever the call moves the request.  The reply copies that
    object, whereas [model_index] and [query_id] are read from [request]
    itself, as the call left it. *)
Definition HandleDispatch (request : DispatchRequest) (reply : DispatchReply)
    (dispatcher_recv_ns clock_now : Z) (w : ModelWorker)
    : outcome (ModelWorker * DispatchReply) :=
  let dispatcher_sched_ns := clock_now in
  let '(global_id, issuer1) := Next (global_id_issuer_ w) in
  let request1 := stamp request dispatcher_recv_ns dispatcher_sched_ns
                        global_id in
  let w1 := {| model_session_entrance_table_ :=
                 model_session_entrance_table_ w;
               global_id_issuer_ := issuer1 |} in
  match model_session_entrance_table_ w !! model_index request1 with
  | None => Thrown "std::out_of_range"
  | Some entrance =>
      let '(status1, request2) := EnqueueQuery entrance request1 in
      let reply1 := {| status := status1;
                       reply_model_index := reply_model_index reply;
                       query_list := query_list reply |} in
      if bool_decide (status1 ≠ CTRL_OK) then
        Returned (w1,
          {| status := status1;
             reply_model_index := model_index request2;
             query_list := query_list reply1 ++
               [{| reply_query_id := query_id request2;
                   reply_clock := clock (query_without_input request1) |}]
          |})
      else Returned (w1, reply1)
  end.

(** A connection is known by its peer. *)
Abbreviation RdmaQueuePair := nat (only parsing).

(** <<
void OnRecv(RdmaQueuePair* conn, OwnedMemoryBlock buf) {
  auto dispatcher_recv_ns = Clock::now() ...;
  auto view = buf.AsMessageView();
  ControlMessage req;
  bool ok = req.ParseFromArray(view.bytes(), view.bytes_length());
  if (!ok) { LOG(ERROR) << "ParseFromArray failed"; return; }
  switch (req.message_case()) {
    case kDispatch: {
      ControlMessage resp;
      auto* reply = resp.mutable_dispatch_reply();
      outer_.HandleDispatch(std::move(req.dispatch), reply, recv_ns);
      if (reply->status() != CtrlStatus::CTRL_OK)
        outer_.rdma_sender_.SendMessage(conn, resp);
      break;
    }
    default: LOG(FATAL) << "Unhandled message: " << ...;
  }
}
>>
    The result carries the messages handed to [SendMessage], each with the
    connection it is sent on.  [recv_now] and [sched_now] are the two
    readings of the clock, at entry and inside [HandleDispatch]. *)
Definition OnRecv (conn : RdmaQueuePair) (bytes : list Z)
    (recv_now sched_now : Z) (w : ModelWorker)
    : outcome (ModelWorker * list (RdmaQueuePair * ControlMessage)) :=
  let dispatcher_recv_ns := recv_now in
  match ParseFromArray bytes with
  | None => Returned (w, [])
  | Some (kDispatch request) =>
      '(w1, reply) ← HandleDispatch request empty_reply dispatcher_recv_ns
                                    sched_now w;
      if bool_decide (status reply ≠ CTRL_OK)
      then Returned (w1, [(conn, kDispatchReply reply)])
      else Returned (w1, [])
  | Some _ => LogFatal "Unhandled message"
  end.

(** The messages a call of [OnRecv] sent before it ended. *)
Definition sent {A : Type}
    (r : outcome (A * list (RdmaQueuePair * ControlMessage)))
    : list (RdmaQueuePair * ControlMessage) :=
  match r with
  | Returned (_, msgs) => msgs
  | Thrown _ | LogFatal _ => []
  end.

End ingress.

(** ** A concrete set of collaborators *)

(** An entrance that accepts every query ([true]) or refuses every query
    with failure code 1 ([false]).  Accepting moves the request out, which
    leaves a default-constructed message behind; refusing leaves the
    request as it was.  Messages are three numbers: tag 0, the model index,
    the query id. *)
Definition moved_from_request : DispatchRequest :=
  {| model_index := 0; query_id := 0;
     query_without_input :=
       {| global_id := 0;
          clock := {| dispatcher_recv_ns := 0; dispatcher_sched_ns := 0 |} |}
  |}.

Definition toy_collaborators : Collaborators :=
  {| ParseFromArray := λ bytes,
       match bytes with
       | [0; m; q] =>
           Some (kDispatch
                   {| model_index := Z.to_nat m; query_id := q;
                      query_without_input :=
                        query_without_input moved_from_request |})
       | [1] => Some MESSAGE_NOT_SET
       | _ => None
       end;
     GlobalIdIssuer := Z;
     Next := λ n, (n, n + 1);
     RequestEntrance := bool;
     default_entrance := false;
     entrance_model_index := λ _, 0%nat;
     EnqueueQuery := λ (accepts : bool) request,
       if accepts then (CTRL_OK, moved_from_request)
       else (CTRL_FAILURE 1, request) |}.

(** A worker with no model session, and one whose table holds an accepting
    entrance at index 0 and a refusing one at index 1. *)
Definition toy_empty : @ModelWorker toy_collaborators :=
  @Build_ModelWorker toy_collaborators [] 7.

Definition toy_worker : @ModelWorker toy_collaborators :=
  @Build_ModelWorker toy_collaborators [true; false] 7.

End Dispatcher.

(* ===================================================================== *)
(** * ario::Connection  (src/ario/rdma.cpp)                               *)
(* ===================================================================== *)

Module Ario.

Local Open Scope N_scope.

(** ** The verbs data the connection builds *)

Inductive ibv_qp_state : Type :=
  | IBV_QPS_RESET | IBV_QPS_INIT | IBV_QPS_RTR | IBV_QPS_RTS
  | IBV_QPS_SQD | IBV_QPS_SQE | IBV_QPS_ERR.

Global Instance ibv_qp_state_eq_dec : EqDecision ibv_qp_state.
Proof. solve_decision. Defined.

(** [enum ibv_mtu]: the enumerators are 1 .. 5 for 256 .. 4096 bytes. *)
Definition IBV_MTU_1024 : N := 3.
Definition ibv_mtu_bytes (mtu : N) : N := 2 ^ (mtu + 7).

Inductive ibv_qp_attr_mask : Type :=
  | IBV_QP_STATE | IBV_QP_PKEY_INDEX | IBV_QP_PORT | IBV_QP_ACCESS_FLAGS
  | IBV_QP_AV | IBV_QP_PATH_MTU | IBV_QP_DEST_QPN | IBV_QP_RQ_PSN
  | IBV_QP_MAX_DEST_RD_ATOMIC | IBV_QP_MIN_RNR_TIMER | IBV_QP_SQ_PSN
  | IBV_QP_TIMEOUT | IBV_QP_RETRY_CNT | IBV_QP_RNR_RETRY
  | IBV_QP_MAX_QP_RD_ATOMIC.

Global Instance ibv_qp_attr_mask_eq_dec : EqDecision ibv_qp_attr_mask.
Proof. solve_decision. Defined.

Definition IBV_ACCESS_LOCAL_WRITE : N := 1.
Definition IBV_ACCESS_REMOTE_WRITE : N := 2.
Definition IBV_ACCESS_REMOTE_READ : N := 4.
Definition IBV_ACCESS_REMOTE_ATOMIC : N := 8.

(** [union ibv_gid]: 128 bits. *)
Abbreviation ibv_gid := N (only parsing).

Record ibv_global_route : Type := {
  dgid : ibv_gid;
  hop_limit : N;
}.

Record ibv_ah_attr : Type := {
  grh : ibv_global_route;
  dlid : N;
  is_global : bool;
  ah_port_num : N;
}.

Record ibv_qp_attr : Type := {
  attr_qp_state : ibv_qp_state;
  path_mtu : N;
  rq_psn : N;
  sq_psn : N;
  dest_qp_num : N;
  qp_access_flags : N;
  ah_attr : ibv_ah_attr;
  pkey_index : N;
  max_rd_atomic : N;
  max_dest_rd_atomic : N;
  min_rnr_timer : N;
  port_num : N;
  timeout : N;
  retry_cnt : N;
  rnr_retry : N;
}.

(** [memset(&attr, 0, sizeof(attr))]. *)
Definition zero_ah_attr : ibv_ah_attr :=
  {| grh := {| dgid := 0; hop_limit := 0 |}; dlid := 0; is_global := false;
     ah_port_num := 0 |}.

Definition zero_attr : ibv_qp_attr :=
  {| attr_qp_state := IBV_QPS_RESET; path_mtu := 0; rq_psn := 0; sq_psn := 0;
     dest_qp_num := 0; qp_access_flags := 0; ah_attr := zero_ah_attr;
     pkey_index := 0; max_rd_atomic := 0; max_dest_rd_atomic := 0;
     min_rnr_timer := 0; port_num := 0; timeout := 0; retry_cnt := 0;
     rnr_retry := 0 |}.

(** ** The handshake message *)

Record ConnInfo : Type := {
  lid : N;
  gid : ibv_gid;
  qp_num : N;
}.

Record MemoryRegion : Type := {
  addr : N;
  size : N;
  rkey : N;
}.

(** Modelled from the spec: [RdmaConnectorMessage] (ario/rdma.h is not
    among the sources).  Section 6: a fixed-size message, a [u32 type]
    (1 = ConnInfo, 2 = MemoryRegion) followed by a union of the two
    payloads.  [msg_conn] and [msg_mr] are the two views of the union. *)
Record RdmaConnectorMessage : Type := {
  type : N;
  msg_conn : ConnInfo;
  msg_mr : MemoryRegion;
}.

Definition kConnInfo : N := 1.
Definition kMemoryRegion : N := 2.

Definition zero_mr : MemoryRegion := {| addr := 0; size := 0; rkey := 0 |}.
Definition zero_conn : ConnInfo := {| lid := 0; gid := 0; qp_num := 0 |}.

(** ** Buffers *)

Definition kRdmaBufferPoolBits : N := 30.
Definition kRdmaBufferBlockBits : N := 20.

(** A block of the pool and the header of its message view. *)
Record Block : Type := {
  block_index : N;
  bytes_length : N;
}.

(** Modelled from the spec: the buffer pool and [OwnedMemoryBlock]
    (ario/memory.h is not among the sources).  Sections 3 and 4.A: the pool
    is [2^pool_bits] bytes cut into blocks of [2^block_bits]; [allocate]
    hands a free block out as an owned handle or fails with
    [PoolExhausted]; dropping the handle returns the block; a handle that
    was moved from owns nothing.  The message view is a header
    [{u32 bytes_length}] followed by the payload. *)
Abbreviation OwnedMemoryBlock := (option Block) (only parsing).

Record MemoryBlockAllocator : Type := {
  pool_data : N;
  free_blocks : list N;
}.

Definition new_pool (base : N) : MemoryBlockAllocator :=
  {| pool_data := base;
     free_blocks :=
       N.of_nat <$> seq 0 (N.to_nat (2 ^ (kRdmaBufferPoolBits
                                          - kRdmaBufferBlockBits))) |}.

Definition Allocate (pool : MemoryBlockAllocator)
    : option (Block * MemoryBlockAllocator) :=
  match free_blocks pool with
  | [] => None
  | i :: rest =>
      Some ({| block_index := i; bytes_length := 0 |},
            {| pool_data := pool_data pool; free_blocks := rest |})
  end.

Definition release (buf : OwnedMemoryBlock) (pool : MemoryBlockAllocator)
    : MemoryBlockAllocator :=
  match buf with
  | Some b => {| pool_data := pool_data pool;
                 free_blocks := block_index b :: free_blocks pool |}
  | None => pool
  end.

Definition block_size : N := 2 ^ kRdmaBufferBlockBits.
Definition sizeof_header : N := 4.

(** [buf.data()], [msg.bytes()], [msg.total_length()]. *)
Definition block_data (pool : MemoryBlockAllocator) (b : Block) : N :=
  pool_data pool + block_index b * block_size.
Definition message_bytes (pool : MemoryBlockAllocator) (b : Block) : N :=
  block_data pool b + sizeof_header.
Definition total_length (b : Block) : N := bytes_length b + sizeof_header.

(** ** Work requests and completions *)

Record ibv_sge : Type := {
  sge_addr : N;
  sge_length : N;
  sge_lkey : N;
}.

Record ibv_recv_wr : Type := {
  recv_wr_id : N;
  recv_sg_list : list ibv_sge;
}.

Inductive ibv_wr_opcode : Type := IBV_WR_SEND | IBV_WR_RDMA_READ.

Record ibv_send_wr : Type := {
  send_wr_id : N;
  opcode : ibv_wr_opcode;
  send_signaled : bool;
  send_sg_list : list ibv_sge;
  remote_addr : N;
  wr_rkey : N;
}.

(** [enum ibv_wc_opcode]. *)
Definition IBV_WC_SEND : N := 0.
Definition IBV_WC_RDMA_WRITE : N := 1.
Definition IBV_WC_RDMA_READ : N := 2.
Definition IBV_WC_RECV : N := 128.
Definition IBV_WC_RECV_RDMA_WITH_IMM : N := 129.
Definition IBV_WC_SUCCESS : N := 0.

Record ibv_wc : Type := {
  wc_wr_id : N;
  wc_status : N;
  wc_opcode : N;
}.

(** The entry of [wr_ctx_]: the buffer the work request uses. *)
Record WorkRequestContext : Type := { buf : OwnedMemoryBlock }.

(** ** What the connection does to the outside *)

Inductive ReadKind : Type := ReadConnInfo | ReadMemoryRegion.

Inductive Event : Type :=
  (* the [EventHandler] callbacks *)
  | OnConnected
  | OnRecv (buf : OwnedMemoryBlock)
  | OnSent (buf : OwnedMemoryBlock)
  | OnRdmaReadComplete (buf : OwnedMemoryBlock)
  | OnError (kind : string)
  (* the context table, under [mutex_] *)
  | CtxEmplace (wr_id : N)
  (* verbs *)
  | ModifyQp (attr : ibv_qp_attr) (mask : list ibv_qp_attr_mask)
  | PostRecv (wr : ibv_recv_wr)
  | PostSend (wr : ibv_send_wr)
  | ReqNotifyCq
  | StartPoller
  (* the TCP bootstrap channel *)
  | TcpAsyncWrite (msg : RdmaConnectorMessage)
  | TcpAsyncRead (kind : ReadKind)
  (* stderr *)
  | LogUnknownOpcode (opcode : N)
  | LogRecvMemoryRegionFailed.

Definition is_handler_call (e : Event) : bool :=
  match e with
  | OnConnected | OnRecv _ | OnSent _ | OnRdmaReadComplete _ | OnError _ =>
      true
  | _ => false
  end.

Definition is_OnError (e : Event) : bool :=
  match e with OnError _ => true | _ => false end.

Inductive PollerType : Type := kBlocking | kSpinning.

(** The queue pair as the program sees it: its state, and the work
    requests posted whose completion the poller has not taken yet. *)
Record QueuePair : Type := {
  qp_state : ibv_qp_state;
  local_qp_num : N;
  recv_queue : list ibv_recv_wr;
  send_queue : list ibv_send_wr;
}.

Definition kMaxSendQueueSize : nat := 1024.
Definition kMaxRecvQueueSize : nat := 1024.

Record Connection : Type := {
  dev_port_ : N;
  local_lid : N;
  local_gid : ibv_gid;
  memory_region_ : option MemoryRegion;
  poller_type_ : PollerType;
  is_connected_ : bool;
  qp_ : QueuePair;
  local_mr_lkey : N;
  remote_mr_ : MemoryRegion;
  next_wr_id_ : N;
  wr_ctx_ : gmap N WorkRequestContext;
  local_buf_ : MemoryBlockAllocator;
  tcp_pending_read : option ReadKind;
  poller_running : bool;
  trace : list Event;
}.

(** A call ends by returning or by ending the process ([die]). *)
Inductive outcome : Type :=
  | Done (c : Connection)
  | Died (c : Connection) (msg : string).

Definition and_then (f g : Connection → outcome) : Connection → outcome :=
  λ c, match f c with
       | Done c' => g c'
       | Died c' msg => Died c' msg
       end.

Infix ">>>" := and_then (at level 61, left associativity).

Definition state_of (o : outcome) : Connection :=
  match o with Done c | Died c _ => c end.

Definition is_done (o : outcome) : bool :=
  match o with Done _ => true | Died _ _ => false end.

(** *** Field updates *)

Definition emit (e : Event) (c : Connection) : Connection :=
  {| dev_port_ := dev_port_ c; local_lid := local_lid c;
     local_gid := local_gid c; memory_region_ := memory_region_ c;
     poller_type_ := poller_type_ c; is_connected_ := is_connected_ c;
     qp_ := qp_ c; local_mr_lkey := local_mr_lkey c;
     remote_mr_ := remote_mr_ c; next_wr_id_ := next_wr_id_ c;
     wr_ctx_ := wr_ctx_ c; local_buf_ := local_buf_ c;
     tcp_pending_read := tcp_pending_read c;
     poller_running := poller_running c; trace := trace c ++ [e] |}.

Definition set_qp (q : QueuePair) (c : Connection) : Connection :=
  {| dev_port_ := dev_port_ c; local_lid := local_lid c;
     local_gid := local_gid c; memory_region_ := memory_region_ c;
     poller_type_ := poller_type_ c; is_connected_ := is_connected_ c;
     qp_ := q; local_mr_lkey := local_mr_lkey c;
     remote_mr_ := remote_mr_ c; next_wr_id_ := next_wr_id_ c;
     wr_ctx_ := wr_ctx_ c; local_buf_ := local_buf_ c;
     tcp_pending_read := tcp_pending_read c;
     poller_running := poller_running c; trace := trace c |}.

Definition set_is_connected (b : bool) (c : Connection) : Connection :=
  {| dev_port_ := dev_port_ c; local_lid := local_lid c;
     local_gid := local_gid c; memory_region_ := memory_region_ c;
     poller_type_ := poller_type_ c; is_connected_ := b;
     qp_ := qp_ c; local_mr_lkey := local_mr_lkey c;
     remote_mr_ := remote_mr_ c; next_wr_id_ := next_wr_id_ c;
     wr_ctx_ := wr_ctx_ c; local_buf_ := local_buf_ c;
     tcp_pending_read := tcp_pending_read c;
     poller_running := poller_running c; trace := trace c |}.

Definition set_remote_mr (m : MemoryRegion) (c : Connection) : Connection :=
  {| dev_port_ := dev_port_ c; local_lid := local_lid c;
     local_gid := local_gid c; memory_region_ := memory_region_ c;
     poller_type_ := poller_type_ c; is_connected_ := is_connected_ c;
     qp_ := qp_ c; local_mr_lkey := local_mr_lkey c;
     remote_mr_ := m; next_wr_id_ := next_wr_id_ c;
     wr_ctx_ := wr_ctx_ c; local_buf_ := local_buf_ c;
     tcp_pending_read := tcp_pending_read c;
     poller_running := poller_running c; trace := trace c |}.

Definition set_next_wr_id (n : N) (c : Connection) : Connection :=
  {| dev_port_ := dev_port_ c; local_lid := local_lid c;
     local_gid := local_gid c; memory_region_ := memory_region_ c;
     poller_type_ := poller_type_ c; is_connected_ := is_connected_ c;
     qp_ := qp_ c; local_mr_lkey := local_mr_lkey c;
     remote_mr_ := remote_mr_ c; next_wr_id_ := n;
     wr_ctx_ := wr_ctx_ c; local_buf_ := local_buf_ c;
     tcp_pending_read := tcp_pending_read c;
     poller_running := poller_running c; trace := trace c |}.

Definition set_wr_ctx (t : gmap N WorkRequestContext) (c : Connection)
    : Connection :=
  {| dev_port_ := dev_port_ c; local_lid := local_lid c;
     local_gid := local_gid c; memory_region_ := memory_region_ c;
     poller_type_ := poller_type_ c; is_connected_ := is_connected_ c;
     qp_ := qp_ c; local_mr_lkey := local_mr_lkey c;
     remote_mr_ := remote_mr_ c; next_wr_id_ := next_wr_id_ c;
     wr_ctx_ := t; local_buf_ := local_buf_ c;
     tcp_pending_read := tcp_pending_read c;
     poller_running := poller_running c; trace := trace c |}.

Definition set_local_buf (p : MemoryBlockAllocator) (c : Connection)
    : Connection :=
  {| dev_port_ := dev_port_ c; local_lid := local_lid c;
     local_gid := local_gid c; memory_region_ := memory_region_ c;
     poller_type_ := poller_type_ c; is_connected_ := is_connected_ c;
     qp_ := qp_ c; local_mr_lkey := local_mr_lkey c;
     remote_mr_ := remote_mr_ c; next_wr_id_ := next_wr_id_ c;
     wr_ctx_ := wr_ctx_ c; local_buf_ := p;
     tcp_pending_read := tcp_pending_read c;
     poller_running := poller_running c; trace := trace c |}.

Definition set_pending_read (r : option ReadKind) (c : Connection)
    : Connection :=
  {| dev_port_ := dev_port_ c; local_lid := local_lid c;
     local_gid := local_gid c; memory_region_ := memory_region_ c;
     poller_type_ := poller_type_ c; is_connected_ := is_connected_ c;
     qp_ := qp_ c; local_mr_lkey := local_mr_lkey c;
     remote_mr_ := remote_mr_ c; next_wr_id_ := next_wr_id_ c;
     wr_ctx_ := wr_ctx_ c; local_buf_ := local_buf_ c;
     tcp_pending_read := r;
     poller_running := poller_running c; trace := trace c |}.

Definition set_poller_running (b : bool) (c : Connection) : Connection :=
  {| dev_port_ := dev_port_ c; local_lid := local_lid c;
     local_gid := local_gid c; memory_region_ := memory_region_ c;
     poller_type_ := poller_type_ c; is_connected_ := is_connected_ c;
     qp_ := qp_ c; local_mr_lkey := local_mr_lkey c;
     remote_mr_ := remote_mr_ c; next_wr_id_ := next_wr_id_ c;
     wr_ctx_ := wr_ctx_ c; local_buf_ := local_buf_ c;
     tcp_pending_read := tcp_pending_read c;
     poller_running := b; trace := trace c |}.

(** ** The verbs the connection calls *)

(** Modelled from the spec: [ibv_modify_qp] (the verbs library is not part
    of the sources).  Section 3: the queue pair's state progresses
    linearly, Reset, Init, RTR, RTS; any other request is refused with a
    non-zero return value.  The call is recorded together with the
    attributes and the mask it was given. *)
Definition ibv_modify_qp (attr : ibv_qp_attr) (mask : list ibv_qp_attr_mask)
    (c : Connection) : Z * Connection :=
  let c1 := emit (ModifyQp attr mask) c in
  let legal :=
    match qp_state (qp_ c), attr_qp_state attr with
    | IBV_QPS_RESET, IBV_QPS_INIT
    | IBV_QPS_INIT, IBV_QPS_RTR
    | IBV_QPS_RTR, IBV_QPS_RTS => true
    | _, _ => false
    end in
  if bool_decide (IBV_QP_STATE ∈ mask) && legal
  then (0%Z,
        set_qp {| qp_state := attr_qp_state attr;
                  local_qp_num := local_qp_num (qp_ c);
                  recv_queue := recv_queue (qp_ c);
                  send_queue := send_queue (qp_ c) |} c1)
  else (22%Z, c1).

(** Modelled from the spec: [ibv_post_recv] and [ibv_post_send].  The work
    request joins its queue; the queues hold at most [max_recv_wr] and
    [max_send_wr] requests ([BuildQueuePair]), beyond which posting is
    refused with a non-zero return value. *)
Definition ibv_post_recv (wr : ibv_recv_wr) (c : Connection)
    : Z * Connection :=
  let c1 := emit (PostRecv wr) c in
  if bool_decide (length (recv_queue (qp_ c)) < kMaxRecvQueueSize)%nat
  then (0%Z,
        set_qp {| qp_state := qp_state (qp_ c);
                  local_qp_num := local_qp_num (qp_ c);
                  recv_queue := recv_queue (qp_ c) ++ [wr];
                  send_queue := send_queue (qp_ c) |} c1)
  else (12%Z, c1).

Definition ibv_post_send (wr : ibv_send_wr) (c : Connection)
    : Z * Connection :=
  let c1 := emit (PostSend wr) c in
  if bool_decide (length (send_queue (qp_ c)) < kMaxSendQueueSize)%nat
  then (0%Z,
        set_qp {| qp_state := qp_state (qp_ c);
                  local_qp_num := local_qp_num (qp_ c);
                  recv_queue := recv_queue (qp_ c);
                  send_queue := send_queue (qp_ c) ++ [wr] |} c1)
  else (12%Z, c1).

(** [if (ret) die(msg)]. *)
Definition die_if (r : Z * Connection) (msg : string) : outcome :=
  if bool_decide (r.1 ≠ 0%Z) then Died r.2 msg else Done r.2.

(** ** Queue pair transitions *)

(** The attributes [TransitQueuePairToInit] builds. *)
Definition init_attr (dev_port : N) : ibv_qp_attr :=
  {| attr_qp_state := IBV_QPS_INIT; path_mtu := 0; rq_psn := 0; sq_psn := 0;
     dest_qp_num := 0;
     qp_access_flags :=
       N.lor (N.lor (N.lor IBV_ACCESS_LOCAL_WRITE IBV_ACCESS_REMOTE_READ)
                    IBV_ACCESS_REMOTE_WRITE) IBV_ACCESS_REMOTE_ATOMIC;
     ah_attr := zero_ah_attr; pkey_index := 0; max_rd_atomic := 0;
     max_dest_rd_atomic := 0; min_rnr_timer := 0; port_num := dev_port;
     timeout := 0; retry_cnt := 0; rnr_retry := 0 |}.

Definition TransitQueuePairToInit (c : Connection) : outcome :=
  die_if (ibv_modify_qp (init_attr (dev_port_ c))
            [IBV_QP_STATE; IBV_QP_PKEY_INDEX; IBV_QP_PORT;
             IBV_QP_ACCESS_FLAGS] c)
         "TransitQueuePairToInit".

(** The attributes [TransitQueuePairToRTR] builds:
<<
  memset(&attr, 0, sizeof(attr));
  attr.qp_state = IBV_QPS_RTR;
  attr.ah_attr.port_num = dev_port_;
  attr.ah_attr.dlid = msg.lid;
  attr.path_mtu = IBV_MTU_1024;
  attr.dest_qp_num = msg.qp_num;
  attr.rq_psn = 0;
  attr.max_dest_rd_atomic = 1;
  attr.min_rnr_timer = 12;
  if (msg.lid) {
    attr.ah_attr.dlid = msg.lid;
  } else {
    attr.ah_attr.is_global = true;
    attr.ah_attr.grh.dgid = msg.gid;
    attr.ah_attr.grh.hop_limit = 1;
  }
>> *)
Definition rtr_attr (dev_port : N) (msg : ConnInfo) : ibv_qp_attr :=
  let ah0 := {| grh := grh zero_ah_attr; dlid := lid msg;
                is_global := is_global zero_ah_attr;
                ah_port_num := dev_port |} in
  let ah1 :=
    if bool_decide (lid msg ≠ 0)
    then {| grh := grh ah0; dlid := lid msg; is_global := is_global ah0;
            ah_port_num := ah_port_num ah0 |}
    else {| grh := {| dgid := gid msg; hop_limit := 1 |}; dlid := dlid ah0;
            is_global := true; ah_port_num := ah_port_num ah0 |} in
  {| attr_qp_state := IBV_QPS_RTR; path_mtu := IBV_MTU_1024; rq_psn := 0;
     sq_psn := 0; dest_qp_num := qp_num msg; qp_access_flags := 0;
     ah_attr := ah1; pkey_index := 0; max_rd_atomic := 0;
     max_dest_rd_atomic := 1; min_rnr_timer := 12; port_num := 0;
     timeout := 0; retry_cnt := 0; rnr_retry := 0 |}.

Definition rtr_mask : list ibv_qp_attr_mask :=
  [IBV_QP_STATE; IBV_QP_AV; IBV_QP_PATH_MTU; IBV_QP_DEST_QPN; IBV_QP_RQ_PSN;
   IBV_QP_MAX_DEST_RD_ATOMIC; IBV_QP_MIN_RNR_TIMER].

Definition TransitQueuePairToRTR (msg : ConnInfo) (c : Connection)
    : outcome :=
  die_if (ibv_modify_qp (rtr_attr (dev_port_ c) msg) rtr_mask c)
         "TransitQueuePairToRTR".

(** The attributes [TransitQueuePairToRTS] builds:
<<
  memset(&attr, 0, sizeof(attr));
  attr.qp_state = IBV_QPS_RTS;
  attr.timeout = 8;
  attr.retry_cnt = 7;
  attr.rnr_retry = 7;
  attr.max_rd_atomic = 1;
>> *)
Definition rts_attr : ibv_qp_attr :=
  {| attr_qp_state := IBV_QPS_RTS; path_mtu := 0; rq_psn := 0; sq_psn := 0;
     dest_qp_num := 0; qp_access_flags := 0; ah_attr := zero_ah_attr;
     pkey_index := 0; max_rd_atomic := 1; max_dest_rd_atomic := 0;
     min_rnr_timer := 0; port_num := 0; timeout := 8; retry_cnt := 7;
     rnr_retry := 7 |}.

Definition rts_mask : list ibv_qp_attr_mask :=
  [IBV_QP_STATE; IBV_QP_SQ_PSN; IBV_QP_TIMEOUT; IBV_QP_RETRY_CNT;
   IBV_QP_RNR_RETRY; IBV_QP_MAX_QP_RD_ATOMIC].

Definition TransitQueuePairToRTS (c : Connection) : outcome :=
  die_if (ibv_modify_qp rts_attr rts_mask c) "TransitQueuePairToRTS".

(** ** Posting *)

(** [next_wr_id_.fetch_add(1)] on a 64-bit counter. *)
Definition fetch_add_wr_id (c : Connection) : N * Connection :=
  (next_wr_id_ c, set_next_wr_id ((next_wr_id_ c + 1) `mod` 2 ^ 64) c).

(** [wr_ctx_.emplace(wr_id, std::move(buf))] under [mutex_]: nothing is
    stored when the key is taken, and the handle that was moved into the
    rejected node is dropped with it. *)
Definition emplace_ctx (wr_id : N) (b : Block) (c : Connection)
    : Connection :=
  let c1 := emit (CtxEmplace wr_id) c in
  match wr_ctx_ c !! wr_id with
  | None => set_wr_ctx (<[wr_id := {| buf := Some b |}]> (wr_ctx_ c)) c1
  | Some _ => set_local_buf (release (Some b) (local_buf_ c)) c1
  end.

(** What happens when the pool has no free block is decided in
    ario/memory.h; here the call does not return. *)
Definition with_block (k : Block → Connection → outcome) (c : Connection)
    : outcome :=
  match Allocate (local_buf_ c) with
  | None => Died c "MemoryBlockAllocator::Allocate: PoolExhausted"
  | Some (b, pool) => k b (set_local_buf pool c)
  end.

(** <<
void PostReceive() {
  wr.wr_id = next_wr_id_.fetch_add(1);
  wr.sg_list = &sge; wr.num_sge = 1;
  auto buf = local_buf_.Allocate();
  sge.addr = buf.data(); sge.length = buf.size(); sge.lkey = local_mr_->lkey;
  { lock(mutex_); wr_ctx_.emplace(wr.wr_id, std::move(buf)); }
  int ret = ibv_post_recv(qp_, &wr, &bad_wr);
  if (ret) die("ibv_post_recv");
}
>> *)
Definition PostReceive (c : Connection) : outcome :=
  let '(wr_id, c1) := fetch_add_wr_id c in
  with_block (λ b c2,
    let sge := {| sge_addr := block_data (local_buf_ c2) b;
                  sge_length := block_size;
                  sge_lkey := local_mr_lkey c2 |} in
    let c3 := emplace_ctx wr_id b c2 in
    let wr := {| recv_wr_id := wr_id; recv_sg_list := [sge] |} in
    die_if (ibv_post_recv wr c3) "ibv_post_recv") c1.

(** <<
void AsyncSend(OwnedMemoryBlock buf) {
  if (!is_connected_) die("Send: not connected.");
  wr.wr_id = next_wr_id_.fetch_add(1);
  wr.opcode = IBV_WR_SEND; wr.send_flags = IBV_SEND_SIGNALED;
  auto msg = buf.AsMessageView();
  sge.addr = buf.data(); sge.length = msg.total_length();
  sge.lkey = local_mr_->lkey;
  { lock(mutex_); wr_ctx_.emplace(wr.wr_id, std::move(buf)); }
  int ret = ibv_post_send(qp_, &wr, &bad_wr);
  if (ret) die("Connection::Send: ibv_post_send");
}
>> *)
Definition AsyncSend (b : Block) (c : Connection) : outcome :=
  if negb (is_connected_ c) then Died c "Send: not connected."
  else
    let '(wr_id, c1) := fetch_add_wr_id c in
    let sge := {| sge_addr := block_data (local_buf_ c1) b;
                  sge_length := total_length b;
                  sge_lkey := local_mr_lkey c1 |} in
    let wr := {| send_wr_id := wr_id; opcode := IBV_WR_SEND;
                 send_signaled := true; send_sg_list := [sge];
                 remote_addr := 0; wr_rkey := 0 |} in
    let c2 := emplace_ctx wr_id b c1 in
    die_if (ibv_post_send wr c2) "Connection::Send: ibv_post_send".

(** <<
void AsyncRead(size_t offset, size_t length) {
  wr.wr_id = next_wr_id_.fetch_add(1);
  wr.opcode = IBV_WR_RDMA_READ; wr.send_flags = IBV_SEND_SIGNALED;
  wr.wr.rdma.remote_addr = remote_mr_.addr + offset;
  wr.wr.rdma.rkey = remote_mr_.rkey;
  auto buf = local_buf_.Allocate();
  auto msg = buf.AsMessageView();
  sge.addr = msg.bytes(); sge.length = length; sge.lkey = local_mr_->lkey;
  msg.bytes_length() = length;
  { lock(mutex_); wr_ctx_.emplace(wr.wr_id, std::move(buf)); }
  int ret = ibv_post_send(qp_, &wr, &bad_wr);
  if (ret) die("Connection::PostRead: ibv_post_send");
}
>>
    [remote_addr] is a [uint64_t], [sge.length] and [bytes_length] are
    [uint32_t]. *)
Definition AsyncRead (offset length : N) (c : Connection) : outcome :=
  let '(wr_id, c1) := fetch_add_wr_id c in
  with_block (λ b c2,
    let sge := {| sge_addr := message_bytes (local_buf_ c2) b;
                  sge_length := length `mod` 2 ^ 32;
                  sge_lkey := local_mr_lkey c2 |} in
    let wr := {| send_wr_id := wr_id; opcode := IBV_WR_RDMA_READ;
                 send_signaled := true; send_sg_list := [sge];
                 remote_addr := (addr (remote_mr_ c2) + offset) `mod` 2 ^ 64;
                 wr_rkey := rkey (remote_mr_ c2) |} in
    let b1 := {| block_index := block_index b;
                 bytes_length := length `mod` 2 ^ 32 |} in
    let c3 := emplace_ctx wr_id b1 c2 in
    die_if (ibv_post_send wr c3) "Connection::PostRead: ibv_post_send") c1.

(** ** Completions *)

(** <<
void HandleWorkCompletion(struct ibv_wc *wc) {
  if (wc->status != IBV_WC_SUCCESS) die("wc->status != IBV_WC_SUCCESS");
  WorkRequestContext wr_ctx;
  { lock(mutex_);
    auto iter = wr_ctx_.find(wc->wr_id);
    if (iter == wr_ctx_.end()) die("wc->wr_id not in wr_ctx_");
    wr_ctx = std::move(iter->second); }
  if (wc->opcode & IBV_WC_RECV) {
    PostReceive(); handler_->OnRecv(std::move(wr_ctx.buf)); return;
  }
  switch (wc->opcode) {
    case IBV_WC_SEND: handler_->OnSent(std::move(wr_ctx.buf)); return;
    case IBV_WC_RDMA_READ:
      handler_->OnRdmaReadComplete(std::move(wr_ctx.buf)); return;
    case IBV_WC_RDMA_WRITE:
    default: fprintf(stderr, "Unknown wc->opcode %d", wc->opcode); return;
  }
}
>>
    Moving out of [iter->second] leaves the entry in the table, holding a
    handle that owns nothing.  In the last case the local [wr_ctx] goes
    out of scope with the buffer, which returns to the pool. *)
Definition HandleWorkCompletion (wc : ibv_wc) (c : Connection) : outcome :=
  if bool_decide (wc_status wc ≠ IBV_WC_SUCCESS)
  then Died c "wc->status != IBV_WC_SUCCESS"
  else
    match wr_ctx_ c !! wc_wr_id wc with
    | None => Died c "wc->wr_id not in wr_ctx_"
    | Some entry =>
        let wr_ctx := entry in
        let c1 := set_wr_ctx (<[wc_wr_id wc := {| buf := None |}]> (wr_ctx_ c))
                             c in
        if bool_decide (N.land (wc_opcode wc) IBV_WC_RECV ≠ 0)
        then (PostReceive >>> (λ c2, Done (emit (OnRecv (buf wr_ctx)) c2))) c1
        else if bool_decide (wc_opcode wc = IBV_WC_SEND)
        then Done (emit (OnSent (buf wr_ctx)) c1)
        else if bool_decide (wc_opcode wc = IBV_WC_RDMA_READ)
        then Done (emit (OnRdmaReadComplete (buf wr_ctx)) c1)
        else Done (set_local_buf (release (buf wr_ctx) (local_buf_ c1))
                     (emit (LogUnknownOpcode (wc_opcode wc)) c1))
    end.

Fixpoint repeat_call (n : nat) (f : Connection → outcome) : Connection → outcome :=
  match n with
  | O => Done
  | S n' => f >>> repeat_call n' f
  end.

Section backlog.
(** [kRecvBacklog] is declared in ario/rdma.h, which is not among the
    sources; every definition below takes its value as a parameter. *)
Variable kRecvBacklog : nat.

(** <<
void MarkConnected() {
  ... ibv_query_qp ...
  if (attr.qp_state != IBV_QPS_RTS) die("attr.qp_state != IBV_QPS_RTS");
  if (poller_type_ == PollerType::kBlocking) {
    int ret = ibv_req_notify_cq(cq_, 0); if (ret) die("ibv_req_notify_cq");
    cq_poller_thread_ = std::thread(PollCompletionQueueBlocking, this);
  } else {
    cq_poller_thread_ = std::thread(PollCompletionQueueSpinning, this);
  }
  for (size_t i = 0; i < kRecvBacklog; ++i) PostReceive();
  is_connected_ = true;
}
>> *)
Definition MarkConnected (c : Connection) : outcome :=
  if bool_decide (qp_state (qp_ c) ≠ IBV_QPS_RTS)
  then Died c "attr.qp_state != IBV_QPS_RTS"
  else
    let c1 := match poller_type_ c with
              | kBlocking => emit ReqNotifyCq c
              | kSpinning => c
              end in
    let c2 := set_poller_running true (emit StartPoller c1) in
    (repeat_call kRecvBacklog PostReceive
       >>> (λ c3, Done (set_is_connected true c3))) c2.

(** ** The handshake *)

(** [SendConnInfo]: the message written to the TCP socket. *)
Definition SendConnInfo (c : Connection) : outcome :=
  let gid := if bool_decide (local_lid c = 0) then local_gid c else 0 in
  Done (emit (TcpAsyncWrite
                {| type := kConnInfo;
                   msg_conn := {| lid := local_lid c; gid := gid;
                                  qp_num := local_qp_num (qp_ c) |};
                   msg_mr := zero_mr |}) c).

(** The callbacks of the two [AsyncWrite]s: [if (err) die(...)]. *)
Definition SendConnInfo_cb (err : Z) (c : Connection) : outcome :=
  if bool_decide (err ≠ 0%Z) then Died c "SendConnInfo AsyncWrite callback"
  else Done c.

Definition SendMemoryRegion_cb (err : Z) (c : Connection) : outcome :=
  if bool_decide (err ≠ 0%Z)
  then Died c "SendMemoryRegion AsyncWrite callback"
  else Done c.

(** [RecvConnInfo] and [RecvMemoryRegion] start an [AsyncRead] on the
    socket; the body of its callback is the [_cb] function. *)
Definition RecvConnInfo (c : Connection) : outcome :=
  Done (set_pending_read (Some ReadConnInfo)
          (emit (TcpAsyncRead ReadConnInfo) c)).

Definition RecvMemoryRegion (c : Connection) : outcome :=
  Done (set_pending_read (Some ReadMemoryRegion)
          (emit (TcpAsyncRead ReadMemoryRegion) c)).

Definition SendMemoryRegion (c : Connection) : outcome :=
  match memory_region_ c with
  | Some region =>
      Done (emit (TcpAsyncWrite {| type := kMemoryRegion;
                                   msg_conn := zero_conn;
                                   msg_mr := region |}) c)
  | None => Died c "SendMemoryRegion: rdma_remote_mr_ is null"
  end.

Definition call_OnConnected (c : Connection) : outcome :=
  Done (emit OnConnected c).

(** <<
  tcp_.AsyncRead(buf, [msg, this](int err, size_t) {
    if (err) { ...; die("RecvConnInfo AsyncRead callback"); }
    if (msg->type != Type::kConnInfo) {
      ...; die("RecvConnInfo AsyncRead callback"); }
    TransitQueuePairToRTR(msg->payload.conn);
    TransitQueuePairToRTS();
    if (memory_region_) {
      MarkConnected(); handler_->OnConnected(this); SendMemoryRegion();
    } else {
      RecvMemoryRegion();
    }
  });
>> *)
Definition RecvConnInfo_cb (err : Z) (msg : RdmaConnectorMessage)
    (c : Connection) : outcome :=
  if bool_decide (err ≠ 0%Z) then Died c "RecvConnInfo AsyncRead callback"
  else if bool_decide (type msg ≠ kConnInfo)
  then Died c "RecvConnInfo AsyncRead callback"
  else
    (TransitQueuePairToRTR (msg_conn msg) >>> TransitQueuePairToRTS
     >>> (λ c1, match memory_region_ c1 with
                | Some _ =>
                    (MarkConnected >>> call_OnConnected
                     >>> SendMemoryRegion) c1
                | None => RecvMemoryRegion c1
                end)) c.

(** <<
  tcp_.AsyncRead(buf, [msg, this](int err, size_t) {
    if (err) { fprintf(stderr, ...); return; }
    if (msg->type != Type::kMemoryRegion) { fprintf(stderr, ...); return; }
    remote_mr_ = msg->payload.mr;
    MarkConnected();
    handler_->OnConnected(this);
  });
>> *)
Definition RecvMemoryRegion_cb (err : Z) (msg : RdmaConnectorMessage)
    (c : Connection) : outcome :=
  if bool_decide (err ≠ 0%Z) then Done (emit LogRecvMemoryRegionFailed c)
  else if bool_decide (type msg ≠ kMemoryRegion)
  then Done (emit LogRecvMemoryRegionFailed c)
  else (MarkConnected >>> call_OnConnected) (set_remote_mr (msg_mr msg) c).

(** The constructor from [TransitQueuePairToInit] on; the protection
    domain, the completion queue and the queue pair (in state Reset, with
    empty queues) have been built, the pool registered. *)
Record Config : Type := {
  cfg_dev_port : N;
  cfg_lid : N;
  cfg_gid : ibv_gid;
  cfg_qp_num : N;
  cfg_lkey : N;
  cfg_pool_base : N;
  cfg_memory_region : option MemoryRegion;
}.

Definition blank (cfg : Config) : Connection :=
  {| dev_port_ := cfg_dev_port cfg; local_lid := cfg_lid cfg;
     local_gid := cfg_gid cfg; memory_region_ := cfg_memory_region cfg;
     poller_type_ := kBlocking; is_connected_ := false;
     qp_ := {| qp_state := IBV_QPS_RESET; local_qp_num := cfg_qp_num cfg;
               recv_queue := []; send_queue := [] |};
     local_mr_lkey := cfg_lkey cfg; remote_mr_ := zero_mr;
     next_wr_id_ := 0; wr_ctx_ := ∅;
     local_buf_ := new_pool (cfg_pool_base cfg);
     tcp_pending_read := None; poller_running := false; trace := [] |}.

Definition Connection_ctor (cfg : Config) : outcome :=
  (TransitQueuePairToInit >>> SendConnInfo >>> RecvConnInfo) (blank cfg).

(** ** The connection among the socket, the NIC and the application

    One action is one callback of the TCP socket, one completion taken by
    the poller thread, one call by the application, or the application
    dropping a buffer it was handed. *)
Inductive Action : Type :=
  | TcpReadCompletes (err : Z) (msg : RdmaConnectorMessage)
  | PollRecv (with_imm : bool)
  | PollSend
  | PollFailure (wc : ibv_wc)
  | CallAsyncSend (b : Block)
  | CallAsyncRead (offset length : N)
  | DropBuffer (b : Block).

Definition pop_recv (c : Connection) : Connection :=
  set_qp {| qp_state := qp_state (qp_ c);
            local_qp_num := local_qp_num (qp_ c);
            recv_queue := tail (recv_queue (qp_ c));
            send_queue := send_queue (qp_ c) |} c.

Definition pop_send (c : Connection) : Connection :=
  set_qp {| qp_state := qp_state (qp_ c);
            local_qp_num := local_qp_num (qp_ c);
            recv_queue := recv_queue (qp_ c);
            send_queue := tail (send_queue (qp_ c)) |} c.

Definition wc_opcode_of (op : ibv_wr_opcode) : N :=
  match op with
  | IBV_WR_SEND => IBV_WC_SEND
  | IBV_WR_RDMA_READ => IBV_WC_RDMA_READ
  end.

(** [None]: the action is not enabled.  The poller must be running to
    take a completion; successful completions come in posting order, and
    taking one removes its work request from the queue it was posted to
    and hands it to [HandleWorkCompletion] in the same action; a failed
    completion may carry any work request id. *)
Definition step (a : Action) (c : Connection) : option outcome :=
  match a with
  | TcpReadCompletes err msg =>
      match tcp_pending_read c with
      | Some ReadConnInfo =>
          Some (RecvConnInfo_cb err msg (set_pending_read None c))
      | Some ReadMemoryRegion =>
          Some (RecvMemoryRegion_cb err msg (set_pending_read None c))
      | None => None
      end
  | PollRecv with_imm =>
      match poller_running c, recv_queue (qp_ c) with
      | true, wr :: _ =>
          Some (HandleWorkCompletion
                  {| wc_wr_id := recv_wr_id wr; wc_status := IBV_WC_SUCCESS;
                     wc_opcode := if with_imm then IBV_WC_RECV_RDMA_WITH_IMM
                                  else IBV_WC_RECV |}
                  (pop_recv c))
      | _, _ => None
      end
  | PollSend =>
      match poller_running c, send_queue (qp_ c) with
      | true, wr :: _ =>
          Some (HandleWorkCompletion
                  {| wc_wr_id := send_wr_id wr; wc_status := IBV_WC_SUCCESS;
                     wc_opcode := wc_opcode_of (opcode wr) |}
                  (pop_send c))
      | _, _ => None
      end
  | PollFailure wc =>
      if poller_running c && bool_decide (wc_status wc ≠ IBV_WC_SUCCESS)
      then Some (HandleWorkCompletion wc c) else None
  | CallAsyncSend b => Some (AsyncSend b c)
  | CallAsyncRead offset length => Some (AsyncRead offset length c)
  | DropBuffer b =>
      Some (Done (set_local_buf (release (Some b) (local_buf_ c)) c))
  end.

Fixpoint run (acts : list Action) (o : outcome) : option outcome :=
  match acts with
  | [] => Some o
  | a :: acts' =>
      match o with
      | Done c =>
          match step a c with
          | Some o' => run acts' o'
          | None => None
          end
      | Died _ _ => None
      end
  end.

Definition reachable (o : outcome) : Prop :=
  ∃ cfg acts, run acts (Connection_ctor cfg) = Some o.

(** The receives posted and not yet completed. *)
Definition outstanding_receives (c : Connection) : nat :=
  length (recv_queue (qp_ c)).

End backlog.

End Ario.

(* ===================================================================== *)
(** * ario::RdmaConnector: opening the device  (src/ario/rdma.cpp)        *)
(* ===================================================================== *)

Module Connector.

(** [enum ibv_port_state]. *)
Inductive ibv_port_state : Type :=
  | IBV_PORT_NOP | IBV_PORT_DOWN | IBV_PORT_INIT | IBV_PORT_ARMED
  | IBV_PORT_ACTIVE | IBV_PORT_ACTIVE_DEFER.

Global Instance ibv_port_state_eq_dec : EqDecision ibv_port_state.
Proof. solve_decision. Defined.

(** What the verbs library answers about a port: the return value of
    [ibv_query_port] and, when that is zero, [port_attr.state]. *)
Record ibv_port : Type := {
  port_query : Z;
  port_state : ibv_port_state;
}.

(** A device of [ibv_get_device_list]: its name, the return value of
    [ibv_query_device], and its [phys_port_cnt] ports, numbered from 1. *)
Record ibv_device : Type := {
  device_name : string;
  device_query : Z;
  ports : list ibv_port;
}.

(** The members [CreateContext] sets: [ctx_] (the device whose context is
    kept, by its index in the device list) and [dev_port_]; and the
    contexts that are open when it returns. *)
Record Context : Type := {
  ctx_ : option nat;
  dev_port_ : nat;
  open_contexts : list nat;
}.

(** The inner loop:
<<
    int dev_port = 0;
    for (int p = 1; p <= device_attr.phys_port_cnt; ++p) {
      ret = ibv_query_port(ctx, p, &port_attr);
      if (ret) die("ibv_query_port");
      if (port_attr.state != IBV_PORT_ACTIVE) continue;
      if (!dev_port) dev_port = p;
    }
>> *)
Fixpoint scan_ports (p : nat) (l : list ibv_port) (dev_port : nat)
    : result nat :=
  match l with
  | [] => Ok dev_port
  | port :: rest =>
      if bool_decide (port_query port ≠ 0) then Fatal "ibv_query_port"
      else if bool_decide (port_state port ≠ IBV_PORT_ACTIVE)
      then scan_ports (S p) rest dev_port
      else scan_ports (S p) rest
             (if bool_decide (dev_port = 0%nat) then p else dev_port)
  end.

(** The outer loop, from device [i] on:
<<
  for (int i = 0; i < cnt; i++) {
    const char *name = ibv_get_device_name(devs[i]);
    ctx = ibv_open_device(devs[i]);
    ret = ibv_query_device(ctx, &device_attr);
    if (ret) die("ibv_query_device");
    ... the inner loop ...
    if (dev_name_ == name) {
      if (!dev_port) die("Could not find active port at device " + dev_name_);
      ctx_ = ctx;
      dev_port_ = dev_port;
    } else {
      ibv_close_device(ctx);
    }
  }
>>
    [ibv_open_device] is taken to succeed: the code does not look at its
    result before using it. *)
Fixpoint scan_devices (dev_name_ : string) (i : nat) (devs : list ibv_device)
    (st : Context) : result Context :=
  match devs with
  | [] => Ok st
  | dev :: rest =>
      if bool_decide (device_query dev ≠ 0) then Fatal "ibv_query_device"
      else
        dev_port ← scan_ports 1 (ports dev) 0;
        if bool_decide (dev_name_ = device_name dev) then
          if bool_decide (dev_port = 0%nat)
          then Fatal ("Could not find active port at device " +:+ dev_name_)
          else scan_devices dev_name_ (S i) rest
                 {| ctx_ := Some i; dev_port_ := dev_port;
                    open_contexts := open_contexts st ++ [i] |}
        else scan_devices dev_name_ (S i) rest st
  end.

(** <<
void RdmaConnector::CreateContext() {
  ibv_device **devs = ibv_get_device_list(&cnt);
  ... the outer loop ...
  ibv_free_device_list(devs);
  if (!ctx_) die("Could not open device: " + dev_name_);
}
>>
    It is called once, by the constructor, with [ctx_] null. *)
Definition CreateContext (dev_name_ : string) (devs : list ibv_device)
    : result Context :=
  st ← scan_devices dev_name_ 0 devs
         {| ctx_ := None; dev_port_ := 0; open_contexts := [] |};
  match ctx_ st with
  | None => Fatal ("Could not open device: " +:+ dev_name_)
  | Some _ => Ok st
  end.

(** The number of the first active port of a device, 0 when it has none. *)
Definition first_active_port (dev : ibv_device) : nat :=
  match list_find (λ port, port_state port = IBV_PORT_ACTIVE) (ports dev) with
  | Some (k, _) => S k
  | None => 0
  end.

(** Every query of the verbs library about [devs] succeeds. *)
Definition queries_succeed (devs : list ibv_device) : Prop :=
  Forall (λ dev, device_query dev = 0
                 ∧ Forall (λ port, port_query port = 0) (ports dev)) devs.

End Connector.

(* ===================================================================== *)
(** * ModelInstanceSimple  (src/nexus/backend/model_ins_simple.cpp)       *)
(** * LoadTest             (src/tools/load_test/load.cpp)                 *)
(* ===================================================================== *)

Module ModelInstance.

Local Open Scope N_scope.

(** [ModelSession] (nnquery.proto): the fields the two files read or
    write.  The image size is optional. *)
Record ModelSession : Type := {
  framework : string;
  model_name : string;
  version : N;
  latency_sla : N;
  image_height : option N;
  image_width : option N;
}.

(** [ModelInstanceConfig]: the first model session, [batch], [max_batch]
    (both [uint32]). *)
Record ModelInstanceConfig : Type := {
  model_session_0 : ModelSession;
  batch : N;
  max_batch : N;
}.

(** What the two files use and the sources do not contain: the model
    database with its YAML entries, and the naming functions of
    nexus/common/model_def.h.  A YAML node is read through [operator bool]
    (is the key defined) and [as<T>()], which throws when the node does
    not convert ([None]). *)
Class Environment : Type := {
  ModelInfo : Type;
  GetModelInfo : string → option ModelInfo;
  GetModelInfo3 : string → string → Z → option ModelInfo;
  node_defined : ModelInfo → string → bool;
  node_as_bool : ModelInfo → string → option bool;
  node_as_uint32 : ModelInfo → string → option N;
  ModelSessionToModelID : ModelSession → string;
  ModelSessionToString : ModelSession → string;
}.

Section instance.
Context `{Environment}.

Record ModelInstanceSimple : Type := {
  gpu_id_ : Z;
  model_session_ : ModelSession;
  model_index_ : nat;
  batch_ : N;
  max_batch_ : N;
  model_info_ : ModelInfo;
  model_session_id_ : string;
}.

(** <<
ModelInstanceSimple(int gpu_id, const ModelInstanceConfig& config,
                    ModelIndex model_index)
    : gpu_id_(gpu_id), model_session_(config.model_session(0)),
      model_index_(model_index), batch_(config.batch()),
      max_batch_(config.max_batch()) {
  CHECK_GT(batch_, 0) << "batch must be greater than 0";
  CHECK_GE(max_batch_, batch_) << "max_batch must be greater than batch";
  std::string model_id = ModelSessionToModelID(model_session_);
  auto info = ModelDatabase::Singleton().GetModelInfo(model_id);
  CHECK(info != nullptr) << "Model not found in the database";
  model_info_ = *info;
  model_session_id_ = ModelSessionToString(model_session_);
  ...
}
>> *)
Definition ModelInstanceSimple_ctor (gpu_id : Z) (config : ModelInstanceConfig)
    (model_index : nat) : result ModelInstanceSimple :=
  if negb (bool_decide (0 < batch config))
  then Fatal "batch must be greater than 0"
  else if negb (bool_decide (batch config ≤ max_batch config))
  then Fatal "max_batch must be greater than batch"
  else
    match GetModelInfo (ModelSessionToModelID (model_session_0 config)) with
    | None => Fatal "Model not found in the database"
    | Some info =>
        Ok {| gpu_id_ := gpu_id; model_session_ := model_session_0 config;
              model_index_ := model_index; batch_ := batch config;
              max_batch_ := max_batch config; model_info_ := info;
              model_session_id_ :=
                ModelSessionToString (model_session_0 config) |}
    end.

(** <<
void set_batch(size_t batch) {
  CHECK_LE(batch, max_batch_) << "Batch size must be less than max_batch";
  batch_.store(batch);
}
>> *)
Definition set_batch (b : N) (m : ModelInstanceSimple)
    : result ModelInstanceSimple :=
  if bool_decide (b ≤ max_batch_ m)
  then Ok {| gpu_id_ := gpu_id_ m; model_session_ := model_session_ m;
             model_index_ := model_index_ m; batch_ := b;
             max_batch_ := max_batch_ m; model_info_ := model_info_ m;
             model_session_id_ := model_session_id_ m |}
  else Fatal "Batch size must be less than max_batch".

(** A sequence of [set_batch] calls. *)
Fixpoint set_batches (bs : list N) (m : ModelInstanceSimple)
    : result ModelInstanceSimple :=
  match bs with
  | [] => Ok m
  | b :: rest => m1 ← set_batch b m; set_batches rest m1
  end.

(** [GetPeakBytesInUse] and [GetBytesInUse]: [LOG(FATAL)]. *)
Definition GetPeakBytesInUse (m : ModelInstanceSimple) : result N :=
  Fatal "GetPeakBytesInUse not implemented".

Definition GetBytesInUse (m : ModelInstanceSimple) : result N :=
  Fatal "GetBytesInUse not implemented".

End instance.

(** ** LoadTest *)

(** How the constructor ends: it returns, a YAML conversion throws, or a
    CHECK or [LOG(FATAL)] ends the process. *)
Inductive ending (A : Type) : Type :=
  | Constructed (a : A)
  | Throws (what : string)
  | Aborts (msg : string).
Arguments Constructed {A} a.
Arguments Throws {A} what.
Arguments Aborts {A} msg.

Section load_test.
Context `{Environment}.
(** The build: with or without [USE_GPU]; in a GPU build, how
    [NEXUS_CUDA_CHECK(cudaSetDevice(gpu_))] and [GetGPUDevice(gpu_)] end
    (nexus/common/device.h is not among the sources). *)
Variable USE_GPU : bool.
Variable gpu_setup : Z → ending unit.

Record LoadTest : Type := {
  gpu_ : Z;
  model_sess_ : ModelSession;
  load_model_info_ : ModelInfo;
  model_sessions_ : list string;
}.

Definition with_image (h w : N) (s : ModelSession) : ModelSession :=
  {| framework := framework s; model_name := model_name s;
     version := version s; latency_sla := latency_sla s;
     image_height := Some h; image_width := Some w |}.

(** The image size the session gets:
<<
    if (height > 0) {
      CHECK_GT(width, 0) << "Height and width must be set together";
      model_sess_.set_image_height(height);
      model_sess_.set_image_width(width);
    } else {
      if (info["resizable"] && info["resizable"].as<bool>()) {
        model_sess_.set_image_height(info["image_height"].as<uint32_t>());
        model_sess_.set_image_width(info["image_width"].as<uint32_t>());
      }
    }
>> *)
Definition set_image_size (info : ModelInfo) (height width : Z)
    (s : ModelSession) : ending ModelSession :=
  if bool_decide (0 < height)%Z then
    if bool_decide (0 < width)%Z
    then Constructed (with_image (Z.to_N height) (Z.to_N width) s)
    else Aborts "Height and width must be set together"
  else if node_defined info "resizable" then
    match node_as_bool info "resizable" with
    | None => Throws "YAML::BadConversion"
    | Some false => Constructed s
    | Some true =>
        match node_as_uint32 info "image_height" with
        | None => Throws "YAML::BadConversion"
        | Some h =>
            match node_as_uint32 info "image_width" with
            | None => Throws "YAML::BadConversion"
            | Some w => Constructed (with_image h w s)
            end
        end
    end
  else Constructed s.

(** <<
  LoadTest(int gpu, const std::string& framework,
           const std::string& model_name, int model_version,
           int height = 0, int width = 0) : gpu_(gpu) {
    model_info_ = ModelDatabase::Singleton().GetModelInfo(
        framework, model_name, model_version);
    CHECK(model_info_ != nullptr) << "Cannot find model info for " ...;
    model_sess_.set_framework(framework);
    model_sess_.set_model_name(model_name);
    model_sess_.set_version(model_version);
    model_sess_.set_latency_sla(50000);
    ... the image size ...
    model_sessions_.push_back(ModelSessionToString(model_sess_));
#ifdef USE_GPU
    NEXUS_CUDA_CHECK(cudaSetDevice(gpu_));
    gpu_device_ = DeviceManager::Singleton().GetGPUDevice(gpu_);
#else
    if (gpu_ != -1) LOG(FATAL) << "The code is compiled without USE_GPU. ...";
#endif
  }
>>
    [set_version] takes a [uint32]: the [int] is converted modulo 2^32. *)
Definition LoadTest_ctor (gpu : Z) (framework_ model_name_ : string)
    (model_version height width : Z) : ending LoadTest :=
  match GetModelInfo3 framework_ model_name_ model_version with
  | None => Aborts "Cannot find model info"
  | Some info =>
      let sess0 := {| framework := framework_; model_name := model_name_;
                      version := Z.to_N (model_version `mod` 2 ^ 32);
                      latency_sla := 50000;
                      image_height := None; image_width := None |} in
      match set_image_size info height width sess0 with
      | Constructed sess =>
          let lt := {| gpu_ := gpu; model_sess_ := sess;
                       load_model_info_ := info;
                       model_sessions_ := [ModelSessionToString sess] |} in
          if USE_GPU then
            match gpu_setup gpu with
            | Constructed _ => Constructed lt
            | Throws what => Throws what
            | Aborts msg => Aborts msg
            end
          else if bool_decide (gpu ≠ -1)%Z
          then Aborts "The code is compiled without USE_GPU."
          else Constructed lt
      | Throws what => Throws what
      | Aborts msg => Aborts msg
      end
  end.

End load_test.

(** ** A concrete database *)

(** One resizable model, [resnet_0] at 224 by 224, and one of fixed size,
    [vgg16]; a model's YAML entry is the name it was found under. *)
Definition toy_environment : Environment :=
  {| ModelInfo := string;
     GetModelInfo := λ id,
       if bool_decide (id = "tensorflow:resnet_0:1") then Some "resnet_0"
       else if bool_decide (id = "tensorflow:vgg16:1") then Some "vgg16"
       else None;
     GetModelInfo3 := λ fw name v,
       if bool_decide (fw = "tensorflow" ∧ name = "resnet_0" ∧ v = 1%Z)
       then Some "resnet_0"
       else if bool_decide (fw = "tensorflow" ∧ name = "vgg16" ∧ v = 1%Z)
       then Some "vgg16"
       else None;
     node_defined := λ info key,
       bool_decide (info = "resnet_0"
                    ∧ key ∈ ["resizable"; "image_height"; "image_width"]);
     node_as_bool := λ info key,
       if bool_decide (info = "resnet_0" ∧ key = "resizable") then Some true
       else None;
     node_as_uint32 := λ info key,
       if bool_decide (info = "resnet_0"
                       ∧ key ∈ ["image_height"; "image_width"])
       then Some 224 else None;
     ModelSessionToModelID := λ s,
       framework s +:+ ":" +:+ model_name s +:+ ":1";
     ModelSessionToString := λ s,
       framework s +:+ ":" +:+ model_name s +:+ ":1" |}.

Definition resnet_session : ModelSession :=
  {| framework := "tensorflow"; model_name := "resnet_0"; version := 1;
     latency_sla := 50000; image_height := None; image_width := None |}.

(** The configuration [TestTime] builds: batch and max_batch 16. *)
Definition resnet_config : ModelInstanceConfig :=
  {| model_session_0 := resnet_session; batch := 16; max_batch := 16 |}.

End ModelInstance.

(* ===================================================================== *)
(** * Concrete followers used by the examples below                       *)
(* ===================================================================== *)

Module FollowerScenarios.
Import Follower.

Definition resnet : ModelExecutor :=
  {| model_index_ := 0; model_session_id_ := "tensorflow:resnet_0:1:100" |}.

Definition vgg : ModelExecutor :=
  {| model_index_ := 0; model_session_id_ := "tensorflow:vgg16:1:200" |}.

(** A plan for [model] that is due at [t] and expected to take 50 ns. *)
Definition plan_at (id : Z) (model : nat) (t : Z) : BatchPlanContext :=
  {| proto := {| plan_id := id; model_index := model; exec_time_ns := t;
                 expected_finish_time_ns := t + 50; queries_size := 1 |} |}.

(** One complete pass of [OnTimer] that finds its model: the pop, the
    lookup, the call, [d] nanoseconds inside [ExecuteBatchPlan], the
    return. *)
Definition on_timer_pass (d : Z) : list Action :=
  [TimerExpires; FollowerStep; FollowerStep; FollowerStep; Tick d;
   FollowerStep].

(** Section 8, scenario 4: plans due at 300, 100 and 200 inserted at time 0. *)
Definition three_plans : list Action :=
  [CallAddModel resnet;
   CallAddBatchPlan (plan_at 1 0 300);
   CallAddBatchPlan (plan_at 2 0 100);
   CallAddBatchPlan (plan_at 3 0 200);
   Tick 100] ++ on_timer_pass 10 ++ [Tick 90] ++ on_timer_pass 10
   ++ [Tick 90] ++ on_timer_pass 10.

(** A plan due at 100 that arrives at time 210, after the plan due at 200
    has run. *)
Definition late_plan : list Action :=
  [CallAddModel resnet;
   CallAddBatchPlan (plan_at 2 0 200);
   Tick 200] ++ on_timer_pass 10 ++
  [CallAddBatchPlan (plan_at 1 0 100)] ++ on_timer_pass 10.

(** The timer has fired with two plans pending; the pop is next. *)
Definition before_pop : list Action :=
  [CallAddModel resnet;
   CallAddBatchPlan (plan_at 1 0 300);
   CallAddBatchPlan (plan_at 2 0 100);
   Tick 100; TimerExpires].

(** A plan for model 7, which nobody installed, has been popped. *)
Definition unknown_model_popped : list Action :=
  [CallAddModel resnet;
   CallAddBatchPlan (plan_at 1 7 100);
   CallAddBatchPlan (plan_at 2 0 300);
   Tick 100; TimerExpires; FollowerStep].

(** The same, one step later: the follower has looked model 7 up, found
    nothing, and returned to its event loop. *)
Definition unknown_model_discarded : list Action :=
  unknown_model_popped ++ [FollowerStep].

(** Two plans due at the same time; the one popped first names model 7. *)
Definition unknown_model_equal_deadlines : list Action :=
  [CallAddModel resnet;
   CallAddBatchPlan (plan_at 1 7 100);
   CallAddBatchPlan (plan_at 2 0 100);
   Tick 100; TimerExpires; FollowerStep].

Definition world_after (acts : list Action) : World :=
  default (init 0 0) (run acts (init 0 0)).

(** A table whose slot 0 holds [vgg]. *)
Definition vgg_installed : State :=
  {| models_ := [Some vgg]; plans_ := [];
     next_timer_ := {| timeout := 0; armed := false |};
     is_executing_ := false |}.

End FollowerScenarios.

(* ===================================================================== *)
(** * Concrete connections used by the examples below                     *)
(* ===================================================================== *)

Module ArioScenarios.
Import Ario.
Local Open Scope N_scope.

(** A server on InfiniBand (lid 5) that exposes a 1 MiB region, and a client
    on RoCE (lid 0). *)
Definition server_cfg : Config :=
  {| cfg_dev_port := 1; cfg_lid := 5; cfg_gid := 0; cfg_qp_num := 77;
     cfg_lkey := 4660; cfg_pool_base := 1073741824;
     cfg_memory_region :=
       Some {| addr := 2147483648; size := 1048576; rkey := 9029 |} |}.

Definition client_cfg : Config :=
  {| cfg_dev_port := 1; cfg_lid := 0; cfg_gid := 1099511627777;
     cfg_qp_num := 78; cfg_lkey := 4661; cfg_pool_base := 1073741824;
     cfg_memory_region := None |}.

(** The peer's [ConnInfo] message as the server receives it. *)
Definition client_hello : RdmaConnectorMessage :=
  {| type := kConnInfo;
     msg_conn := {| lid := 0; gid := 1099511627777; qp_num := 78 |};
     msg_mr := zero_mr |}.

Definition server_hello : RdmaConnectorMessage :=
  {| type := kConnInfo;
     msg_conn := {| lid := 5; gid := 0; qp_num := 77 |};
     msg_mr := zero_mr |}.

Definition server_region : RdmaConnectorMessage :=
  {| type := kMemoryRegion; msg_conn := zero_conn;
     msg_mr := {| addr := 2147483648; size := 1048576; rkey := 9029 |} |}.

(** Section 8, scenario 3: the backlog is 4. *)
Definition backlog : nat := 4.

Definition after (cfg : Config) (acts : list Action) : outcome :=
  default (Connection_ctor cfg) (run backlog acts (Connection_ctor cfg)).

(** The server has finished the handshake and taken three messages. *)
Definition server_busy : list Action :=
  [TcpReadCompletes 0 client_hello; PollRecv false; PollRecv false;
   PollRecv true].

(** The server has finished the handshake and taken its first message, the
    receive with work request id 0. *)
Definition server_first_recv : list Action :=
  [TcpReadCompletes 0 client_hello; PollRecv false].


(** The client's queue pair is in RTS; the peer's memory region has not
    arrived, and [remote_mr_] is as constructed. *)
Definition client_before_region : Connection :=
  state_of (after client_cfg [TcpReadCompletes 0 server_hello]).

End ArioScenarios.

(* ===================================================================== *)
(** * Facts about the heap algorithms                                     *)
(* ===================================================================== *)

Module StdHeapFacts.
Import StdHeap.

Example push_heap_3 :
  push_heap (λ a b : Z, bool_decide (b < a)) [100; 300; 200; 50]
  = [50; 100; 200; 300].
Proof. reflexivity. Qed.

Example pop_heap_3 :
  pop_heap (λ a b : Z, bool_decide (b < a)) [50; 100; 200; 300]
  = [100; 300; 200; 50].
Proof. reflexivity. Qed.

Section key_order.
Context {A : Type} `{!Inhabited A}.
Variable key : A → Z.
Variable comp : A → A → bool.
(** The comparator is the strict descending order of an integer key, as
    [OrderBatchPlanProtoByExecTimeDesc] is for [exec_time_ns]. *)
Hypothesis comp_spec : ∀ a b, comp a b = true ↔ key b < key a.

Local Abbreviation parent i := ((i - 1) / 2)%nat.

(** The heap property in terms of the key: a parent's key never exceeds
    its child's. *)
Definition heap_le (l : list A) : Prop :=
  ∀ i : nat, (0 < i < length l)%nat → key (l !!! parent i) ≤ key (l !!! i).

(** The heap property around a hole at index [h], whose content is to be
    ignored: every edge that does not touch the hole is ordered, and the
    children of the hole are ordered against the hole's parent. *)
Definition hole_inv (l : list A) (h : nat) : Prop :=
  (∀ i : nat, (0 < i < length l)%nat → i ≠ h → parent i ≠ h →
      key (l !!! parent i) ≤ key (l !!! i))
  ∧ (∀ c : nat, (0 < c < length l)%nat → parent c = h → (0 < h)%nat →
      key (l !!! parent h) ≤ key (l !!! c)).

(** [v] may sit above every child of the hole. *)
Definition below_ok (l : list A) (h : nat) (v : A) : Prop :=
  ∀ c : nat, (0 < c < length l)%nat → parent c = h → key v ≤ key (l !!! c).

Lemma comp_false a b : comp a b = false ↔ key a ≤ key b.
Proof.
  destruct (comp a b) eqn:E.
  - apply comp_spec in E. split; [discriminate | lia].
  - split; [intros _ | done].
    destruct (Z_lt_le_dec (key b) (key a)) as [Hlt | Hle]; [| done].
    apply comp_spec in Hlt. congruence.
Qed.

Lemma is_heap_heap_le l : is_heap comp l ↔ heap_le l.
Proof.
  unfold is_heap, heap_le. split; intros H i Hi.
  - by apply comp_false, H.
  - by apply comp_false, H.
Qed.

Lemma heap_le_hole_inv l h : heap_le l → hole_inv l h.
Proof.
  intros H. split.
  - intros i Hi _ _. by apply H.
  - intros c Hc Hp Hh. subst h.
    etrans; [apply (H (parent c)); lia | apply (H c); lia].
Qed.

Lemma heap_le_top l i :
  heap_le l → (i < length l)%nat → key (l !!! 0%nat) ≤ key (l !!! i).
Proof.
  intros H. induction (lt_wf i) as [i _ IH]. intros Hi.
  destruct (decide (i = 0%nat)) as [-> | Hne]; [done |].
  etrans; [apply (IH (parent i)); lia | apply H; lia].
Qed.

Lemma heap_le_take l n : heap_le l → heap_le (take n l).
Proof.
  intros H i. rewrite length_take. intros Hi.
  rewrite !lookup_total_take_lt by lia. apply H. lia.
Qed.

(** ** Writing the value into the hole *)

Lemma place_heap l h v :
  (h < length l)%nat → hole_inv l h → below_ok l h v →
  ((0 < h)%nat → key (l !!! parent h) ≤ key v) →
  heap_le (<[h := v]> l).
Proof.
  intros Hh [Ha Hb] Hc Hup i. rewrite length_insert. intros Hi.
  destruct (decide (i = h)) as [-> | Hih].
  - rewrite list_lookup_total_insert_eq by done.
    rewrite list_lookup_total_insert_ne by lia. apply Hup. lia.
  - rewrite (list_lookup_total_insert_ne _ h i) by done.
    destruct (decide (parent i = h)) as [Hp | Hp].
    + rewrite Hp, list_lookup_total_insert_eq by done. by apply Hc.
    + rewrite list_lookup_total_insert_ne by done. by apply Ha.
Qed.

(** ** One iteration of the [__push_heap] loop *)

Lemma hole_up l h v :
  (0 < h < length l)%nat → hole_inv l h → below_ok l h v →
  key v < key (l !!! parent h) →
  hole_inv (<[h := l !!! parent h]> l) (parent h)
  ∧ below_ok (<[h := l !!! parent h]> l) (parent h) v.
Proof.
  intros Hh [Ha Hb] Hc Hlt. repeat split.
  - intros i. rewrite length_insert. intros Hi Hne Hpne.
    assert (i ≠ h) by (intros ->; done).
    rewrite (list_lookup_total_insert_ne _ h i) by done.
    destruct (decide (parent i = h)) as [Hp | Hp].
    + rewrite Hp, list_lookup_total_insert_eq by lia. apply Hb; lia.
    + rewrite list_lookup_total_insert_ne by done. by apply Ha.
  - intros c. rewrite length_insert. intros Hc' Hpc Hpos.
    rewrite (list_lookup_total_insert_ne _ h (parent (parent h))) by lia.
    destruct (decide (c = h)) as [-> | Hch].
    + rewrite list_lookup_total_insert_eq by lia. apply Ha; lia.
    + rewrite list_lookup_total_insert_ne by done.
      etrans; [apply (Ha (parent h)); lia |].
      rewrite <- Hpc. apply Ha; lia.
  - intros c. rewrite length_insert. intros Hc' Hpc.
    destruct (decide (c = h)) as [-> | Hch].
    + rewrite list_lookup_total_insert_eq by lia. lia.
    + rewrite list_lookup_total_insert_ne by done.
      assert (key (l !!! parent h) ≤ key (l !!! c)); [| lia].
      rewrite <- Hpc. apply Ha; lia.
Qed.

Lemma push_heap_loop_length fuel l h top v :
  length (push_heap_loop comp fuel l h top v) = length l.
Proof.
  revert l h. induction fuel as [| fuel IH]; intros l h;
    cbn [push_heap_loop].
  - by rewrite length_insert.
  - destruct (_ && _); [rewrite IH |]; by rewrite length_insert.
Qed.

Lemma push_heap_loop_heap fuel l h v :
  (h ≤ fuel)%nat → (h < length l)%nat → hole_inv l h → below_ok l h v →
  heap_le (push_heap_loop comp fuel l h 0 v).
Proof.
  revert l h. induction fuel as [| fuel IH]; intros l h Hf Hh Hinv Hc;
    cbn [push_heap_loop].
  - apply place_heap; [done .. | lia].
  - destruct (bool_decide (0 < h)%nat && comp (l !!! parent h) v) eqn:E.
    + apply andb_true_iff in E as [Hpos%bool_decide_eq_true Hcmp%comp_spec].
      destruct (hole_up l h v) as [Hinv' Hc']; [lia | done .. |].
      apply IH; [lia | rewrite length_insert; lia | done ..].
    + apply place_heap; [done .. |]. intros Hpos.
      apply andb_false_iff in E as [E | E].
      * apply bool_decide_eq_false in E. lia.
      * by apply comp_false.
Qed.

(** ** Contents: the algorithms only move elements around *)

Lemma insert_Permutation_delete (l : list A) j v :
  (j < length l)%nat → <[j := v]> l ≡ₚ v :: delete j l.
Proof.
  intros Hj. rewrite insert_take_drop, delete_take_drop by done.
  by rewrite Permutation_middle.
Qed.

Lemma hole_move_Permutation (l : list A) i j v :
  i ≠ j → (i < length l)%nat → (j < length l)%nat →
  <[i := v]> (<[j := l !!! i]> l) ≡ₚ <[j := v]> l.
Proof.
  intros Hij Hi Hj.
  trans (v :: delete i (<[j := l !!! i]> l)).
  { apply insert_Permutation_delete. rewrite length_insert. lia. }
  trans (v :: delete j l).
  2: { symmetry. by apply insert_Permutation_delete. }
  f_equiv. apply (inj (cons (l !!! i))).
  trans (<[j := l !!! i]> l).
  - symmetry. apply delete_Permutation.
    rewrite list_lookup_insert_ne by done.
    by apply list_lookup_lookup_total_lt.
  - by apply insert_Permutation_delete.
Qed.

Lemma push_heap_loop_Permutation fuel l h top v :
  (h < length l)%nat → push_heap_loop comp fuel l h top v ≡ₚ <[h := v]> l.
Proof.
  revert l h. induction fuel as [| fuel IH]; intros l h Hh;
    cbn [push_heap_loop]; [done |].
  destruct (bool_decide (top < h)%nat && comp (l !!! parent h) v) eqn:E;
    [| done].
  apply andb_true_iff in E as [Hpos%bool_decide_eq_true _].
  rewrite IH by (rewrite length_insert; lia).
  apply hole_move_Permutation; lia.
Qed.

(** ** The downward loop of [__adjust_heap] *)

Lemma hole_down l h m :
  (0 < m < length l)%nat → parent m = h →
  (∀ c : nat, (0 < c < length l)%nat → parent c = h →
      key (l !!! m) ≤ key (l !!! c)) →
  hole_inv l h → hole_inv (<[h := l !!! m]> l) m.
Proof.
  intros Hm Hpm Hmin [Ha Hb]. split.
  - intros i. rewrite length_insert. intros Hi Him Hpim.
    destruct (decide (i = h)) as [-> | Hih].
    + rewrite list_lookup_total_insert_eq by lia.
      rewrite list_lookup_total_insert_ne by lia. apply Hb; lia.
    + rewrite (list_lookup_total_insert_ne _ h i) by done.
      destruct (decide (parent i = h)) as [Hp | Hp].
      * rewrite Hp, list_lookup_total_insert_eq by lia. by apply Hmin.
      * rewrite list_lookup_total_insert_ne by done. by apply Ha.
  - intros c. rewrite length_insert. intros Hc Hpc _.
    rewrite Hpm, list_lookup_total_insert_eq by lia.
    rewrite list_lookup_total_insert_ne by lia.
    rewrite <- Hpc. apply Ha; lia.
Qed.

Lemma adjust_heap_down_spec fuel l h :
  (h < length l)%nat → hole_inv l h →
  ∀ l' h' sc',
    adjust_heap_down comp fuel l h h (length l) = (l', h', sc') →
    length l' = length l ∧ (h' < length l)%nat ∧ sc' = h' ∧ hole_inv l' h'
    ∧ (∀ v, <[h' := v]> l' ≡ₚ <[h := v]> l)
    ∧ ((length l ≤ fuel + h)%nat → ¬ (h' < (length l - 1) / 2)%nat).
Proof.
  revert l h. induction fuel as [| fuel IH]; intros l h Hh Hinv l' h' sc';
    cbn [adjust_heap_down].
  - intros [= <- <- <-]. split_and!; [done .. | lia].
  - case_bool_decide as Hlt.
    + set (sc := (2 * (h + 1))%nat).
      set (m := if comp (l !!! sc) (l !!! (sc - 1)%nat)
                then (sc - 1)%nat else sc).
      assert (Hm : (0 < m < length l)%nat ∧ parent m = h
                   ∧ ∀ c : nat, (0 < c < length l)%nat → parent c = h →
                       key (l !!! m) ≤ key (l !!! c)).
      { subst m. destruct (comp (l !!! sc) (l !!! (sc - 1)%nat)) eqn:E.
        - apply comp_spec in E. repeat split; [lia .. |].
          intros c Hc Hpc.
          assert (c = (sc - 1)%nat ∨ c = sc) as [-> | ->] by lia; lia.
        - apply comp_false in E. repeat split; [lia .. |].
          intros c Hc Hpc.
          assert (c = (sc - 1)%nat ∨ c = sc) as [-> | ->] by lia; lia. }
      destruct Hm as (Hm & Hpm & Hmin). intros Heq.
      pose proof (hole_down l h m Hm Hpm Hmin Hinv) as Hinv'.
      specialize (IH (<[h := l !!! m]> l) m).
      rewrite length_insert in IH.
      destruct (IH ltac:(lia) Hinv' l' h' sc' Heq)
        as (Hlen & Hh' & Hsc & Hinv'' & Hperm & Hdone).
      split_and!; [done .. | |].
      * intros v. rewrite Hperm. apply hole_move_Permutation; lia.
      * intros Hfuel. apply Hdone. lia.
    + intros [= <- <- <-]. split_and!; done.
Qed.

Lemma adjust_heap_spec l v :
  (0 < length l)%nat → hole_inv l 0 →
  heap_le (adjust_heap comp l 0 (length l) v)
  ∧ adjust_heap comp l 0 (length l) v ≡ₚ <[0%nat := v]> l.
Proof.
  intros Hlen Hinv. unfold adjust_heap.
  destruct (adjust_heap_down comp (length l) l 0 0 (length l))
    as [[l1 h1] sc1] eqn:Hdown.
  destruct (adjust_heap_down_spec _ l 0%nat Hlen Hinv _ _ _ Hdown)
    as (Hlen1 & Hh1 & -> & Hinv1 & Hperm1 & Hdone).
  specialize (Hdone ltac:(lia)).
  destruct (bool_decide (length l `mod` 2 = 0)%nat
            && bool_decide (h1 = (length l - 2) / 2)%nat) eqn:E.
  - apply andb_true_iff in E
      as [Heven%bool_decide_eq_true Hlast%bool_decide_eq_true].
    set (m := (2 * (h1 + 1) - 1)%nat).
    assert (Hm : (0 < m < length l1)%nat ∧ parent m = h1) by (subst m; lia).
    destruct Hm as [Hm Hpm].
    assert (Hinv2 : hole_inv (<[h1 := l1 !!! m]> l1) m).
    { apply hole_down; [done .. | | done].
      intros c Hc Hpc. assert (c = m) as -> by (subst m; lia). done. }
    unfold push_heap_aux. split.
    + apply push_heap_loop_heap;
        [done | rewrite length_insert; lia | done |].
      intros c. rewrite length_insert. intros Hc Hpc. subst m. lia.
    + rewrite push_heap_loop_Permutation by (rewrite length_insert; lia).
      rewrite <- Hperm1. apply hole_move_Permutation; subst m; lia.
  - unfold push_heap_aux. split.
    + apply push_heap_loop_heap; [done | lia | done |].
      intros c Hc Hpc. exfalso.
      apply andb_false_iff in E as [E | E]; apply bool_decide_eq_false in E;
        lia.
    + rewrite push_heap_loop_Permutation by lia. apply Hperm1.
Qed.

(** ** [std::push_heap] and [std::pop_heap] *)

(** Pushing onto a heap gives a heap with the same elements. *)
Lemma push_heap_spec l x :
  heap_le l →
  heap_le (push_heap comp (l ++ [x])) ∧ push_heap comp (l ++ [x]) ≡ₚ x :: l.
Proof.
  intros Hheap. unfold push_heap, push_heap_aux.
  rewrite length_app, Nat.add_1_r.
  rewrite lookup_total_app_r, Nat.sub_diag by done. simpl.
  assert (Hidem : <[length l := x]> (l ++ [x]) = l ++ [x]).
  { apply list_insert_id. by rewrite lookup_app_r, Nat.sub_diag. }
  split.
  - apply push_heap_loop_heap; [done | rewrite length_app; cbn [length]; lia | |].
    + split.
      * intros i. rewrite length_app. cbn [length]. intros Hi Hne Hpne.
        rewrite !lookup_total_app_l by lia. apply Hheap. lia.
      * intros c. rewrite length_app. cbn [length]. lia.
    + intros c. rewrite length_app. cbn [length]. lia.
  - rewrite push_heap_loop_Permutation by (rewrite length_app; cbn [length]; lia).
    rewrite Hidem. by rewrite Permutation_app_comm.
Qed.

(** Popping a non-empty heap moves a smallest-key element, the old top,
    to the back and leaves a heap of the others in front. *)
Lemma pop_heap_spec v :
  heap_le v → v ≠ [] →
  ∃ rest top,
    pop_heap comp v = rest ++ [top]
    ∧ v !! 0%nat = Some top
    ∧ heap_le rest
    ∧ v ≡ₚ top :: rest
    ∧ ∀ x, x ∈ v → key top ≤ key x.
Proof.
  intros Hheap Hne.
  assert (Hmin : ∀ x, x ∈ v → key (v !!! 0%nat) ≤ key x).
  { intros x [i Hi]%list_elem_of_lookup.
    rewrite <- (list_lookup_total_correct _ _ _ Hi).
    apply heap_le_top; [done |]. by eapply lookup_lt_Some. }
  assert (H0 : v !! 0%nat = Some (v !!! 0%nat)).
  { apply list_lookup_lookup_total_lt. destruct v; [done | simpl; lia]. }
  unfold pop_heap. destruct (length v) as [| [| n]] eqn:Hlen.
  - by destruct v.
  - exists [], (v !!! 0%nat). destruct v as [| a [| ? ?]]; try done.
    simpl. repeat split; try done. intros i Hi. simpl in Hi. lia.
  - set (k := S n). exists (adjust_heap comp (take k v) 0 k (v !!! k)),
      (v !!! 0%nat).
    assert (Hk : length (take k v) = k) by (rewrite length_take; lia).
    destruct (adjust_heap_spec (take k v) (v !!! k)) as [Hh Hp].
    { lia. }
    { apply heap_le_hole_inv, heap_le_take, Hheap. }
    rewrite Hk in Hh, Hp. split_and!; [done .. | | done].
    rewrite Hp. clear Hh Hp Hk Hmin H0 Hheap. subst k.
    destruct v as [| a w]; [done |]. simpl in Hlen. simpl.
    f_equiv.
    assert (Hd : drop n w = [w !!! n]).
    { apply list_eq. intros [| i]; simpl.
      - rewrite lookup_drop, Nat.add_0_r.
        apply list_lookup_lookup_total_lt. lia.
      - rewrite lookup_drop. apply lookup_ge_None_2. lia. }
    rewrite <- (take_drop n w) at 1. rewrite Hd.
    apply Permutation_app_comm.
Qed.

End key_order.

End StdHeapFacts.

(* ===================================================================== *)
(** * Facts about the follower                                            *)
(* ===================================================================== *)

Module FollowerFacts.
Import StdHeap StdHeapFacts Follower.

(** The key the heap is ordered by. *)
Definition exec_time (p : BatchPlanContext) : Z := exec_time_ns (proto p).

Abbreviation plan_heap := (heap_le exec_time).

Lemma Order_spec (a b : BatchPlanContext) :
  OrderBatchPlanProtoByExecTimeDesc a b = true ↔ exec_time b < exec_time a.
Proof. unfold OrderBatchPlanProtoByExecTimeDesc. apply bool_decide_eq_true. Qed.

Lemma plan_heap_is_heap (v : list BatchPlanContext) :
  is_heap OrderBatchPlanProtoByExecTimeDesc v ↔ plan_heap v.
Proof. apply is_heap_heap_le, Order_spec. Qed.

(** ** [UpdateTimer] *)

Lemma UpdateTimer_models s : models_ (UpdateTimer s) = models_ s.
Proof.
  unfold UpdateTimer. destruct (plans_ s); [done |]. by case_bool_decide.
Qed.

Lemma UpdateTimer_plans s : plans_ (UpdateTimer s) = plans_ s.
Proof.
  unfold UpdateTimer. destruct (plans_ s) eqn:E; [done |].
  by case_bool_decide.
Qed.

Lemma UpdateTimer_executing s :
  is_executing_ (UpdateTimer s) = is_executing_ s.
Proof.
  unfold UpdateTimer. destruct (plans_ s); [done |]. by case_bool_decide.
Qed.

(** After [UpdateTimer] the timer's deadline is the top plan's. *)
Lemma UpdateTimer_timeout s p rest :
  plans_ s = p :: rest → timeout (next_timer_ (UpdateTimer s)) = exec_time p.
Proof.
  intros E. unfold UpdateTimer. rewrite E.
  case_bool_decide as H; simpl; [done |].
  unfold exec_time. destruct (decide (exec_time_ns (proto p)
    = timeout (next_timer_ s))); [done | contradiction].
Qed.

(** It arms the timer exactly when that deadline differs from the one the
    timer already has; otherwise the timer is left as it is. *)
Lemma UpdateTimer_armed s p rest :
  plans_ s = p :: rest →
  armed (next_timer_ (UpdateTimer s))
  = if bool_decide (exec_time p ≠ timeout (next_timer_ s)) then true
    else armed (next_timer_ s).
Proof.
  intros E. unfold UpdateTimer, exec_time. rewrite E.
  by case_bool_decide.
Qed.

Lemma UpdateTimer_empty s : plans_ s = [] → UpdateTimer s = s.
Proof. intros E. unfold UpdateTimer. by rewrite E. Qed.

Lemma UpdateTimer_armed_nonempty s :
  (armed (next_timer_ s) = true → plans_ s ≠ []) →
  armed (next_timer_ (UpdateTimer s)) = true → plans_ s ≠ [].
Proof.
  intros H. unfold UpdateTimer. destruct (plans_ s) eqn:E; [| done].
  intros Ha. by apply H.
Qed.

(** ** [AddBatchPlan] *)

Lemma AddBatchPlan_plans plan s :
  plan_heap (plans_ s) →
  plan_heap (plans_ (AddBatchPlan plan s))
  ∧ plans_ (AddBatchPlan plan s) ≡ₚ plan :: plans_ s.
Proof.
  intros H. unfold AddBatchPlan. rewrite UpdateTimer_plans. simpl.
  by apply push_heap_spec; [apply Order_spec |].
Qed.

Lemma AddBatchPlan_models plan s :
  models_ (AddBatchPlan plan s) = models_ s.
Proof. unfold AddBatchPlan. by rewrite UpdateTimer_models. Qed.

Lemma AddBatchPlan_executing plan s :
  is_executing_ (AddBatchPlan plan s) = is_executing_ s.
Proof. unfold AddBatchPlan. by rewrite UpdateTimer_executing. Qed.

Lemma AddBatchPlan_length plan s :
  plan_heap (plans_ s) →
  length (plans_ (AddBatchPlan plan s)) = S (length (plans_ s)).
Proof.
  intros H. destruct (AddBatchPlan_plans plan s H) as [_ Hp].
  by rewrite Hp.
Qed.

(** The top of a heap carries the smallest key. *)
Lemma plan_heap_top (v : list BatchPlanContext) p rest q :
  plan_heap v → v = p :: rest → q ∈ v → exec_time p ≤ exec_time q.
Proof.
  intros H -> [i Hi]%list_elem_of_lookup.
  rewrite <- (list_lookup_total_correct _ _ _ Hi).
  change p with ((p :: rest) !!! 0%nat) at 1.
  apply heap_le_top; [done |]. by eapply lookup_lt_Some.
Qed.

Lemma AddBatchPlan_timeout plan s p rest :
  plan_heap (plans_ s) →
  plans_ (AddBatchPlan plan s) = p :: rest →
  timeout (next_timer_ (AddBatchPlan plan s)) = exec_time p.
Proof.
  intros H E. unfold AddBatchPlan in *. rewrite UpdateTimer_plans in E.
  by eapply UpdateTimer_timeout.
Qed.

(** The new top is the new plan or the old top, whichever is earlier. *)
Lemma AddBatchPlan_top_le plan s p rest q :
  plan_heap (plans_ s) →
  plans_ (AddBatchPlan plan s) = p :: rest →
  q ∈ plan :: plans_ s → exec_time p ≤ exec_time q.
Proof.
  intros H E Hq. destruct (AddBatchPlan_plans plan s H) as [Hh Hp].
  eapply plan_heap_top; [done .. |]. by rewrite Hp.
Qed.

(** ** The pop of [OnTimer] *)

Lemma OnTimer_pop_spec s :
  plan_heap (plans_ s) → plans_ s ≠ [] →
  ∃ p s1,
    OnTimer_pop s = Some (p, s1)
    ∧ plans_ s !! 0%nat = Some p
    ∧ plan_heap (plans_ s1)
    ∧ plans_ s ≡ₚ p :: plans_ s1
    ∧ (∀ q, q ∈ plans_ s → exec_time p ≤ exec_time q)
    ∧ models_ s1 = models_ s
    ∧ next_timer_ s1 = next_timer_ s
    ∧ is_executing_ s1 = is_executing_ s.
Proof.
  intros H Hne.
  destruct (pop_heap_spec exec_time _ Order_spec (plans_ s) H Hne)
    as (rest & top & Hpop & H0 & Hrest & Hperm & Hmin).
  exists top, (set_plans rest s). unfold OnTimer_pop.
  destruct (plans_ s) as [| a v] eqn:E; [done |].
  rewrite Hpop, last_snoc, removelast_last. by split_and!.
Qed.

Lemma OnTimer_pop_None s : OnTimer_pop s = None → plan_heap (plans_ s) →
  plans_ s = [].
Proof.
  intros Hn H. destruct (plans_ s) eqn:E; [done |].
  destruct (OnTimer_pop_spec s) as (p & s1 & Hp & _); [by rewrite E .. |].
  congruence.
Qed.


(** ** Plans inserted together leave in deadline order *)

Definition by_exec_time (a b : BatchPlanContext) : Prop :=
  exec_time a ≤ exec_time b.

Lemma drain_spec n s :
  plan_heap (plans_ s) → (length (plans_ s) ≤ n)%nat →
  drain n s ≡ₚ plans_ s ∧ StronglySorted by_exec_time (drain n s).
Proof.
  revert s. induction n as [| n IH]; intros s Hh Hlen; simpl.
  - destruct (plans_ s); [| simpl in Hlen; lia]. split; [done | constructor].
  - destruct (decide (plans_ s = [])) as [E | Hne].
    + unfold OnTimer_pop. rewrite E. split; [done | constructor].
    + destruct (OnTimer_pop_spec s Hh Hne) as (p & s1 & -> & _ & Hh1 & Hperm
        & Hmin & _).
      assert (Hlen1 : (length (plans_ s1) ≤ n)%nat).
      { rewrite Hperm in Hlen. simpl in Hlen. lia. }
      destruct (IH s1 Hh1 Hlen1) as [Hp Hs]. split.
      * by rewrite Hp, Hperm.
      * constructor; [done |]. apply Forall_forall. intros q Hq.
        apply Hmin. rewrite Hperm, <- Hp. by right.
Qed.

Lemma AddBatchPlan_all (l : list BatchPlanContext) (s : State) :
  plan_heap (plans_ s) →
  plan_heap (plans_ (foldl (λ s p, AddBatchPlan p s) s l))
  ∧ plans_ (foldl (λ s p, AddBatchPlan p s) s l) ≡ₚ l ++ plans_ s.
Proof.
  revert s. induction l as [| p l IH]; intros s Hh; simpl; [done |].
  destruct (AddBatchPlan_plans p s Hh) as [Hh1 Hp1].
  destruct (IH (AddBatchPlan p s) Hh1) as [Hh2 Hp2].
  split; [done |]. rewrite Hp2, Hp1. by rewrite <- Permutation_middle.
Qed.

(** Whatever the order in which plans are added to an empty follower, they
    leave the heap in the order of their [exec_time_ns]. *)
Lemma inserted_together_leave_in_deadline_order
    (l : list BatchPlanContext) (s : State) :
  plans_ s = [] →
  let s' := foldl (λ s p, AddBatchPlan p s) s l in
  drain (length l) s' ≡ₚ l ∧ StronglySorted by_exec_time (drain (length l) s').
Proof.
  intros Hempty s'.
  assert (Hh : plan_heap (plans_ s)).
  { rewrite Hempty. intros i Hi. simpl in Hi. lia. }
  destruct (AddBatchPlan_all l s Hh) as [Hh' Hp'].
  rewrite Hempty, app_nil_r in Hp'.
  destruct (drain_spec (length l) s' Hh') as [Hp Hs].
  { subst s'. by rewrite Hp'. }
  split; [| done]. subst s'. by rewrite Hp, Hp'.
Qed.

(** ** [AddModel] and [RemoveModel] leave the schedule alone *)

Definition same_schedule (s s' : State) : Prop :=
  plans_ s' = plans_ s ∧ next_timer_ s' = next_timer_ s
  ∧ is_executing_ s' = is_executing_ s.

Lemma AddModel_schedule model s s' :
  AddModel model s = Ok s' → same_schedule s s'.
Proof.
  unfold AddModel. destruct (_ !! _) as [[|]|]; intros [= <-]; done.
Qed.

Lemma RemoveModel_schedule model s s' :
  RemoveModel model s = Ok s' → same_schedule s s'.
Proof.
  unfold RemoveModel. case_bool_decide; [| done].
  destruct (_ !! _) as [[|]|]; intros [= <-]; done.
Qed.

(** ** Reading the log *)

Lemma executed_app l1 l2 : executed (l1 ++ l2) = executed l1 ++ executed l2.
Proof. apply omap_app. Qed.
Lemma accepted_app l1 l2 : accepted (l1 ++ l2) = accepted l1 ++ accepted l2.
Proof. apply omap_app. Qed.
Lemma discarded_app l1 l2 :
  discarded (l1 ++ l2) = discarded l1 ++ discarded l2.
Proof. apply omap_app. Qed.

(** The call left open by a log, if any. *)
Fixpoint open_after (open : option BatchPlanContext) (l : list Event)
    : option BatchPlanContext :=
  match l with
  | [] => open
  | ExecuteBegin p _ _ :: l' => open_after (Some p) l'
  | ExecuteEnd _ _ :: l' => open_after None l'
  | _ :: l' => open_after open l'
  end.

Definition open_call (p : Pc) : option BatchPlanContext :=
  match p with Executing _ plan _ => Some plan | _ => None end.

Lemma open_after_app o l1 l2 :
  open_after o (l1 ++ l2) = open_after (open_after o l1) l2.
Proof. revert o. induction l1 as [| [] l1 IH]; intros o; simpl; auto. Qed.

Lemma no_overlap_app o l1 l2 :
  no_overlap o (l1 ++ l2)
  = no_overlap o l1 && no_overlap (open_after o l1) l2.
Proof.
  revert o. induction l1 as [| e l1 IH]; intros o; [done |].
  destruct e; simpl; auto.
  - destruct o; [done | apply IH].
  - destruct o; [| done]. rewrite IH. by rewrite andb_assoc.
Qed.

(** ** The invariant of the reachable worlds *)

Definition armed_nonempty (s : State) : Prop :=
  armed (next_timer_ s) = true → plans_ s ≠ [].

Definition top_is (R : Z → Z → Prop) (s : State) (t : Z) : Prop :=
  ∀ p rest, plans_ s = p :: rest → R (exec_time p) t.

Definition pc_inv (w : World) : Prop :=
  let s := follower w in
  match pc w with
  | Idle =>
      is_executing_ s = false ∧ armed_nonempty s
      ∧ top_is eq s (timeout (next_timer_ s))
  | Woken st =>
      is_executing_ s = false ∧ plans_ s ≠ []
      ∧ (armed (next_timer_ s) = true → (2 ≤ length (plans_ s))%nat)
      ∧ st ≤ now w ∧ top_is Z.le s st
  | Popped st p | Found st p _ =>
      is_executing_ s = false ∧ armed_nonempty s
      ∧ exec_time p ≤ st ∧ st ≤ now w
  | Executing st p _ =>
      is_executing_ s = true ∧ armed_nonempty s
      ∧ exec_time p ≤ st ∧ st ≤ now w
  | Aborted _ => True
  end.

Record Inv (w : World) : Prop := {
  inv_heap : plan_heap (plans_ (follower w));
  inv_pc : pc_inv w;
  inv_times : ∀ p m t, ExecuteBegin p m t ∈ log w → exec_time p ≤ t;
  inv_no_overlap : no_overlap None (log w) = true;
  inv_open :
    is_aborted (pc w) = false → open_after None (log w) = open_call (pc w);
  inv_conserve :
    is_aborted (pc w) = false →
    accepted (log w)
    ≡ₚ executed (log w) ++ discarded (log w) ++ plans_ (follower w)
       ++ in_hand (pc w);
  inv_sub : ∀ p, p ∈ executed (log w) → p ∈ accepted (log w);
}.

Lemma Inv_init timeout0 now0 : Inv (init timeout0 now0).
Proof.
  split; simpl; try done.
  intros p m t Hin. by apply elem_of_nil in Hin.
Qed.

Lemma Inv_abort w msg :
  Inv w →
  Inv {| follower := follower w; now := now w; pc := Aborted msg;
         log := log w |}.
Proof. intros []. split; simpl; done. Qed.

(** Changing the model table only. *)
Lemma Inv_same_schedule w s' :
  Inv w → same_schedule (follower w) s' →
  Inv {| follower := s'; now := now w; pc := pc w; log := log w |}.
Proof.
  intros [Hh Hp Ht Hn Ho Hc Hs] (Epl & Etm & Eex). split; simpl; try done.
  - by rewrite Epl.
  - unfold pc_inv, armed_nonempty, top_is in *. simpl.
    rewrite Epl, Etm, Eex. done.
  - by rewrite Epl.
Qed.

Lemma Inv_with_follower w r :
  Inv w → (∀ s', r = Ok s' → same_schedule (follower w) s') →
  Inv (with_follower r w).
Proof.
  intros HI Hr. destruct r as [s' | msg]; simpl.
  - by apply Inv_same_schedule, Hr.
  - by apply Inv_abort.
Qed.

Lemma Inv_tick w dt :
  Inv w → 0 ≤ dt →
  Inv {| follower := follower w; now := now w + dt; pc := pc w;
         log := log w |}.
Proof.
  intros [Hh Hp Ht Hn Ho Hc Hs] Hdt. split; simpl; try done.
  unfold pc_inv in *. simpl.
  destruct (pc w); try done; destruct_and!; split_and!; try done; lia.
Qed.

Lemma Inv_add_plan w plan :
  Inv w → is_aborted (pc w) = false →
  Inv {| follower := AddBatchPlan plan (follower w); now := now w;
         pc := pc w; log := log w ++ [Accepted plan] |}.
Proof.
  intros [Hh Hp Ht Hn Ho Hc Hs] Hna.
  destruct (AddBatchPlan_plans plan _ Hh) as [Hh' Hperm].
  assert (Hne : plans_ (AddBatchPlan plan (follower w)) ≠ []).
  { intros E. rewrite E in Hperm. by apply Permutation_nil_cons in Hperm. }
  split; simpl.
  - done.
  - unfold pc_inv in *. simpl. rewrite AddBatchPlan_executing.
    destruct (pc w) as [| st | st p | st p m | st p m |]; try done.
    + destruct Hp as (? & ? & ?). split_and!; [done | by intros _ |].
      intros p rest E. symmetry. by eapply AddBatchPlan_timeout.
    + destruct Hp as (? & Hne0 & ? & ? & Htop). split_and!; try done.
      * intros _. rewrite AddBatchPlan_length by done.
        destruct (plans_ (follower w)); [done | simpl; lia].
      * intros p rest E.
        destruct (plans_ (follower w)) as [| q r] eqn:Eq; [done |].
        rewrite <- Eq in Hh.
        trans (exec_time q); [| exact (Htop q r Eq)].
        apply (AddBatchPlan_top_le plan (follower w) p rest q Hh E).
        rewrite Eq. set_solver.
    + destruct_and!. split_and!; try done. by intros _.
    + destruct_and!. split_and!; try done. by intros _.
    + destruct_and!. split_and!; try done. by intros _.
  - intros p m t [Hin | Hin%list_elem_of_singleton]%elem_of_app;
      [by eapply Ht | done].
  - rewrite no_overlap_app, Hn. simpl.
    by destruct (open_after None (log w)).
  - intros Hna'. rewrite open_after_app. simpl. by apply Ho.
  - intros _. rewrite accepted_app, executed_app, discarded_app. simpl.
    rewrite Hperm, (Hc Hna). solve_Permutation.
  - intros p. rewrite accepted_app, executed_app. simpl.
    rewrite app_nil_r. set_solver.
Qed.


Lemma Inv_timer_expires w :
  Inv w → pc w = Idle →
  armed (next_timer_ (follower w)) = true →
  timeout (next_timer_ (follower w)) ≤ now w →
  Inv {| follower :=
           set_timer {| timeout := timeout (next_timer_ (follower w));
                        armed := false |} (follower w);
         now := now w; pc := Woken (now w); log := log w |}.
Proof.
  intros [Hh Hp Ht Hn Ho Hc Hs] Hpc Harmed Hdue.
  unfold pc_inv in Hp. rewrite Hpc in *.
  destruct Hp as (Hex & Hne & Htop).
  split; simpl; try done.
  unfold pc_inv. simpl. split_and!; [done | by apply Hne | done | done |].
  intros p rest E. by rewrite (Htop p rest E).
Qed.

Lemma Inv_follower_step w w' :
  Inv w → follower_step w = Some w' → Inv w'.
Proof.
  intros [Hh Hp Ht Hn Ho Hc Hs]. unfold follower_step, pc_inv in *.
  destruct (pc w) as [| st | st p | st p m | st p m |] eqn:Hpc; try done.
  - (* the pop *)
    destruct Hp as (Hex & Hne & Hlen & Hst & Htop).
    destruct (OnTimer_pop_spec _ Hh Hne)
      as (p & s1 & -> & H0 & Hh1 & Hperm & Hmin & Em & Et & Ee).
    intros [= <-]. split; simpl; try done.
    + unfold pc_inv, armed_nonempty. simpl. rewrite Et, Ee.
      split_and!; try done.
      * intros Ha E. specialize (Hlen Ha).
        rewrite Hperm, E in Hlen. simpl in Hlen. lia.
      * destruct (plans_ (follower w)) as [| q r] eqn:Eq; [done |].
        injection H0 as ->.  by apply (Htop p r).
    + intros _. rewrite (Hc eq_refl), Hperm. simpl. solve_Permutation.
  - (* the lookup *)
    destruct Hp as (Hex & Hne & Hpst & Hst).
    destruct (OnTimer_find p (follower w)) as [m |].
    + intros [= <-]. split; simpl; try done.
      * intros q m' t [Hin | Hin]%elem_of_app; [by eapply Ht |].
        case_bool_decide; [| by apply elem_of_nil in Hin].
        by apply list_elem_of_singleton in Hin.
      * rewrite no_overlap_app, Hn, (Ho eq_refl). simpl.
        by case_bool_decide.
      * intros _. rewrite open_after_app, (Ho eq_refl). simpl.
        by case_bool_decide.
      * intros _. rewrite accepted_app, executed_app, discarded_app.
        rewrite (Hc eq_refl). simpl. case_bool_decide; simpl;
          rewrite !app_nil_r; done.
      * intros q. rewrite accepted_app, executed_app.
        case_bool_decide; simpl; rewrite !app_nil_r; apply Hs.
    + intros [= <-]. split; simpl.
      * by rewrite UpdateTimer_plans.
      * unfold pc_inv. simpl. rewrite UpdateTimer_executing.
        split_and!; [done | |].
        -- intros Ha. rewrite UpdateTimer_plans.
           by apply (UpdateTimer_armed_nonempty _ Hne).
        -- intros q rest E. rewrite UpdateTimer_plans in E.
           symmetry. by eapply UpdateTimer_timeout.
      * intros q m' t [Hin | Hin%list_elem_of_singleton]%elem_of_app;
          [by eapply Ht | done].
      * rewrite no_overlap_app, Hn, (Ho eq_refl). done.
      * intros _. rewrite open_after_app, (Ho eq_refl). done.
      * intros _. rewrite accepted_app, executed_app, discarded_app.
        rewrite (Hc eq_refl), UpdateTimer_plans. simpl. solve_Permutation.
      * intros q. rewrite accepted_app, executed_app. simpl.
        rewrite !app_nil_r. apply Hs.
  - (* test_and_set *)
    destruct Hp as (Hex & Hne & Hpst & Hst).
    unfold OnTimer_begin, test_and_set. rewrite Hex.
    intros [= <-]. split; simpl; try done.
    + intros q m' t [Hin | Hin%list_elem_of_singleton]%elem_of_app;
        [by eapply Ht |].
      injection Hin as -> -> ->. lia.
    + rewrite no_overlap_app, Hn, (Ho eq_refl). done.
    + intros _. rewrite open_after_app, (Ho eq_refl). done.
    + intros _. rewrite accepted_app, executed_app, discarded_app.
      rewrite (Hc eq_refl). simpl. solve_Permutation.
    + intros q. rewrite accepted_app, executed_app. simpl.
      rewrite app_nil_r. intros [Hin | ->%list_elem_of_singleton]%elem_of_app;
        [by apply Hs |].
      rewrite (Hc eq_refl). simpl. set_solver.
  - (* the return of ExecuteBatchPlan *)
    destruct Hp as (Hex & Hne & Hpst & Hst).
    intros [= <-]. unfold OnTimer_end. split; simpl.
    + by rewrite UpdateTimer_plans.
    + unfold pc_inv. simpl. split_and!; [done | |].
      * intros Ha. simpl in *. rewrite UpdateTimer_plans.
        by apply (UpdateTimer_armed_nonempty _ Hne).
      * intros q rest E. simpl in *. rewrite UpdateTimer_plans in E.
        symmetry. by eapply UpdateTimer_timeout.
    + intros q m' t [Hin | [Hin | Hin]%elem_of_cons]%elem_of_app;
        [by eapply Ht | done |].
      case_bool_decide; [| by apply elem_of_nil in Hin].
      by apply list_elem_of_singleton in Hin.
    + rewrite no_overlap_app, Hn, (Ho eq_refl). simpl.
      rewrite bool_decide_eq_true_2 by done. by case_bool_decide.
    + intros _. rewrite open_after_app, (Ho eq_refl). simpl.
      by case_bool_decide.
    + intros _. rewrite accepted_app, executed_app, discarded_app.
      rewrite (Hc eq_refl), UpdateTimer_plans. simpl.
      case_bool_decide; simpl; rewrite !app_nil_r; done.
    + intros q. rewrite accepted_app, executed_app.
      case_bool_decide; simpl; rewrite !app_nil_r; apply Hs.
Qed.

Lemma Inv_step a w w' : Inv w → step a w = Some w' → Inv w'.
Proof.
  intros HI. unfold step. destruct (is_aborted (pc w)) eqn:Hab; [done |].
  destruct a as [dt | model | model | plan | | |].
  - case_bool_decide; [| done]. intros [= <-]. by apply Inv_tick.
  - intros [= <-]. apply Inv_with_follower; [done |].
    apply AddModel_schedule.
  - intros [= <-]. apply Inv_with_follower; [done |].
    apply RemoveModel_schedule.
  - intros [= <-]. by apply Inv_add_plan.
  - destruct (pc w) eqn:Hpc; try done.
    destruct (armed _) eqn:Ha; [| done]. simpl.
    case_bool_decide; [| done]. intros [= <-].
    rewrite <- Hpc in *. by apply Inv_timer_expires.
  - destruct (pc w); try done. by intros [= <-].
  - by apply Inv_follower_step.
Qed.

Lemma Inv_run acts w w' : Inv w → run acts w = Some w' → Inv w'.
Proof.
  revert w. induction acts as [| a acts IH]; intros w HI; simpl.
  - by intros [= <-].
  - destruct (step a w) as [w1 |] eqn:E; [| done].
    apply IH. by eapply Inv_step.
Qed.

Lemma reachable_Inv w : reachable w → Inv w.
Proof.
  intros (timeout0 & now0 & acts & Hrun).
  eapply Inv_run; [apply Inv_init | done].
Qed.


(** ** Scenario 4 of the specification, run *)

Import FollowerScenarios.

Example three_plans_run :
  run three_plans (init 0 0) = Some (world_after three_plans).
Proof. vm_compute. reflexivity. Qed.

Example three_plans_order :
  executed (log (world_after three_plans))
  = [plan_at 2 0 100; plan_at 3 0 200; plan_at 1 0 300].
Proof. vm_compute. reflexivity. Qed.

Lemma reachable_world_after acts w :
  run acts (init 0 0) = Some w → reachable (world_after acts).
Proof.
  intros E. exists 0, 0, acts. unfold world_after. by rewrite E.
Qed.


(** ** Timing and mutual exclusion of [ExecuteBatchPlan] *)

Lemma ExecuteBegin_executed l p m t :
  ExecuteBegin p m t ∈ l → p ∈ executed l.
Proof.
  intros Hin. unfold executed. apply list_elem_of_omap.
  by exists (ExecuteBegin p m t).
Qed.

Definition overlap_message : string :=
  "BUG: the backend has not finished the previous batch.".

(** The first half of C1 as stated: every plan the follower accepted is
    handed to [ExecuteBatchPlan].  At any moment, then, an accepted plan
    has been executed unless the follower still holds it, pending in the
    heap or in the hands of the follower thread. *)
Definition accepted_plans_are_executed : Prop :=
  ∀ w p, reachable w → p ∈ accepted (log w) →
    p ∈ executed (log w) ∨ p ∈ plans_ (follower w) ∨ p ∈ in_hand (pc w).

Example unknown_model_discarded_run :
  run unknown_model_discarded (init 0 0)
  = Some (world_after unknown_model_discarded).
Proof. vm_compute. reflexivity. Qed.

Example unknown_model_discarded_world :
  accepted (log (world_after unknown_model_discarded))
  = [plan_at 1 7 100; plan_at 2 0 300]
  ∧ executed (log (world_after unknown_model_discarded)) = []
  ∧ discarded (log (world_after unknown_model_discarded))
    = [plan_at 1 7 100]
  ∧ plans_ (follower (world_after unknown_model_discarded))
    = [plan_at 2 0 300]
  ∧ pc (world_after unknown_model_discarded) = Idle.
Proof. vm_compute. done. Qed.

(** C1, as stated, fails on "every plan accepted": the plan for model 7,
    which nobody installed, is accepted and popped when the timer fires at
    its deadline; the lookup finds no model, the follower logs the miss
    and returns.  The plan is then neither executed nor held any more. *)
Lemma plan_without_model_is_not_executed : ¬ accepted_plans_are_executed.
Proof.
  intros H.
  destruct unknown_model_discarded_world as (Ha & He & _ & Hp & Hpc).
  destruct (H (world_after unknown_model_discarded) (plan_at 1 7 100)
              (reachable_world_after _ _ unknown_model_discarded_run))
    as [Hin | [Hin | Hin]].
  - rewrite Ha. apply elem_of_cons. by left.
  - rewrite He in Hin. by apply elem_of_nil in Hin.
  - rewrite Hp in Hin. by apply list_elem_of_singleton in Hin.
  - rewrite Hpc in Hin. by apply elem_of_nil in Hin.
Qed.

(** C1, amended.  In every world the follower can reach, each call of
    [model->ExecuteBatchPlan(p)] is for a plan that was accepted through
    [AddBatchPlan] and is made (by the follower thread's own step) at a time
    not earlier than [p]'s [exec_time_ns]; the calls never overlap; and
    the guard is a test-and-set: [OnTimer] sets [is_executing_] before the
    call, and when it finds the flag already set the process aborts without
    calling the model.  On the reachable worlds the flag is set exactly
    while a call is in progress, so the follower thread always finds it
    clear when it is about to call the model, which it does at or after the
    plan's [exec_time_ns].  As for the accepted plans: each is, counted
    with multiplicity, executed, discarded for want of a model, pending, or
    in the hands of the follower thread; and a plan the follower has
    popped whose model is installed is handed to [ExecuteBatchPlan] by the
    follower thread's next two steps, at a time not earlier than its
    [exec_time_ns]. *)
Theorem execute_not_before_exec_time_and_exclusive (w : World) :
  reachable w →
  (∀ p m t, ExecuteBegin p m t ∈ log w →
     p ∈ accepted (log w) ∧ exec_time_ns (proto p) ≤ t)
  ∧ no_overlap None (log w) = true
  ∧ (∀ s, OnTimer_begin s
          = if is_executing_ s then Fatal overlap_message
            else Ok (set_executing true s))
  ∧ (∀ w0 st p m, pc w0 = Found st p m →
       step FollowerStep w0
       = Some (if is_executing_ (follower w0)
               then {| follower := follower w0; now := now w0;
                       pc := Aborted overlap_message; log := log w0 |}
               else {| follower := set_executing true (follower w0);
                       now := now w0; pc := Executing st p m;
                       log := log w0 ++ [ExecuteBegin p m (now w0)] |}))
  ∧ (is_aborted (pc w) = false →
       is_executing_ (follower w) = true
       ↔ ∃ st p m, pc w = Executing st p m)
  ∧ (∀ st p m, pc w = Found st p m →
       is_executing_ (follower w) = false
       ∧ exec_time_ns (proto p) ≤ st ∧ st ≤ now w)
  ∧ (is_aborted (pc w) = false →
       accepted (log w)
       ≡ₚ executed (log w) ++ discarded (log w) ++ plans_ (follower w)
          ++ in_hand (pc w))
  ∧ (∀ st p m, pc w = Popped st p →
       OnTimer_find p (follower w) = Some m →
       ∃ w', run [FollowerStep; FollowerStep] w = Some w'
             ∧ pc w' = Executing st p m
             ∧ executed (log w') = executed (log w) ++ [p]
             ∧ ExecuteBegin p m (now w) ∈ log w'
             ∧ exec_time_ns (proto p) ≤ now w).
Proof.
  intros [Hh Hp Ht Hn Ho Hc Hs]%reachable_Inv. split_and!.
  - intros p m t Hin. split; [| by eapply Ht].
    by eapply Hs, ExecuteBegin_executed.
  - done.
  - intros s. unfold OnTimer_begin, test_and_set. by destruct (is_executing_ s).
  - intros w0 st p m Hpc. unfold step, follower_step. rewrite Hpc. simpl.
    unfold OnTimer_begin, test_and_set.
    by destruct (is_executing_ (follower w0)).
  - intros Hna. unfold pc_inv in Hp.
    destruct (pc w) as [| st | st p | st p m | st p m |]; try done;
      destruct_and!; split.
    all: try (intros Htrue; congruence).
    all: try (by intros (? & ? & ? & [=])).
    all: eauto.
  - intros st p m Hpc. unfold pc_inv in Hp. rewrite Hpc in Hp.
    by destruct_and!.
  - done.
  - intros st p m Hpc Hfind. unfold pc_inv in Hp. rewrite Hpc in Hp.
    destruct Hp as (Hex & _ & Hpst & Hst). unfold exec_time in Hpst.
    eexists. split.
    { unfold run, step, follower_step. rewrite Hpc. simpl.
      rewrite Hfind. simpl. unfold OnTimer_begin, test_and_set. simpl.
      rewrite Hex. reflexivity. }
    simpl. split_and!; [done | | | lia].
    + rewrite !executed_app. simpl.
      case_bool_decide; simpl; by rewrite ?app_nil_r.
    + apply elem_of_app. right. by apply list_elem_of_singleton.
Qed.

Lemma execute_not_before_exec_time_and_exclusive_witness :
  (∀ p m t, ExecuteBegin p m t ∈ log (world_after three_plans) →
     p ∈ accepted (log (world_after three_plans))
     ∧ exec_time_ns (proto p) ≤ t)
  ∧ no_overlap None (log (world_after three_plans)) = true
  ∧ (∀ s, OnTimer_begin s
          = if is_executing_ s then Fatal overlap_message
            else Ok (set_executing true s))
  ∧ (∀ w0 st p m, pc w0 = Found st p m →
       step FollowerStep w0
       = Some (if is_executing_ (follower w0)
               then {| follower := follower w0; now := now w0;
                       pc := Aborted overlap_message; log := log w0 |}
               else {| follower := set_executing true (follower w0);
                       now := now w0; pc := Executing st p m;
                       log := log w0 ++ [ExecuteBegin p m (now w0)] |}))
  ∧ (is_aborted (pc (world_after three_plans)) = false →
       is_executing_ (follower (world_after three_plans)) = true
       ↔ ∃ st p m, pc (world_after three_plans) = Executing st p m)
  ∧ (∀ st p m, pc (world_after three_plans) = Found st p m →
       is_executing_ (follower (world_after three_plans)) = false
       ∧ exec_time_ns (proto p) ≤ st ∧ st ≤ now (world_after three_plans))
  ∧ (is_aborted (pc (world_after three_plans)) = false →
       accepted (log (world_after three_plans))
       ≡ₚ executed (log (world_after three_plans))
          ++ discarded (log (world_after three_plans))
          ++ plans_ (follower (world_after three_plans))
          ++ in_hand (pc (world_after three_plans)))
  ∧ (∀ st p m, pc (world_after three_plans) = Popped st p →
       OnTimer_find p (follower (world_after three_plans)) = Some m →
       ∃ w', run [FollowerStep; FollowerStep] (world_after three_plans)
             = Some w'
             ∧ pc w' = Executing st p m
             ∧ executed (log w')
               = executed (log (world_after three_plans)) ++ [p]
             ∧ ExecuteBegin p m (now (world_after three_plans)) ∈ log w'
             ∧ exec_time_ns (proto p) ≤ now (world_after three_plans)).
Proof.
  apply (execute_not_before_exec_time_and_exclusive (world_after three_plans)).
  exact (reachable_world_after three_plans _ three_plans_run).
Defined.

(** ** Which plan runs first *)

(** The property as the specification words it: of two accepted plans the
    one with the smaller [exec_time_ns] is never executed after the other. *)
Definition executes_in_exec_time_order : Prop :=
  ∀ w, reachable w →
  ∀ p1 p2 (i j : nat),
    p1 ∈ accepted (log w) → p2 ∈ accepted (log w) →
    exec_time_ns (proto p1) < exec_time_ns (proto p2) →
    executed (log w) !! i = Some p1 → executed (log w) !! j = Some p2 →
    (i < j)%nat.

Example late_plan_run :
  run late_plan (init 0 0) = Some (world_after late_plan).
Proof. vm_compute. reflexivity. Qed.

Example late_plan_accepted :
  accepted (log (world_after late_plan))
  = [plan_at 2 0 200; plan_at 1 0 100].
Proof. vm_compute. reflexivity. Qed.

Example late_plan_executed :
  executed (log (world_after late_plan))
  = [plan_at 2 0 200; plan_at 1 0 100].
Proof. vm_compute. reflexivity. Qed.

(** C2, as stated, fails: a plan due at 100 that is inserted at time 210,
    after the plan due at 200 has been executed, is executed second. *)
Lemma late_plan_is_executed_after_later_deadline :
  ¬ executes_in_exec_time_order.
Proof.
  intros H.
  specialize (H (world_after late_plan)
                (reachable_world_after late_plan _ late_plan_run)
                (plan_at 1 0 100) (plan_at 2 0 200) 1%nat 0%nat).
  assert (1 < 0)%nat; [| lia].
  apply H; rewrite ?late_plan_accepted, ?late_plan_executed.
  - apply elem_of_cons. right. apply elem_of_cons. by left.
  - apply elem_of_cons. by left.
  - vm_compute. reflexivity.
  - reflexivity.
  - reflexivity.
Qed.

(** C2, amended.  Whenever the follower thread pops, in a reachable world,
    it takes out of the pending plans one whose [exec_time_ns] is smallest
    among them, whatever the order in which [AddBatchPlan] inserted them:
    of two plans that are pending together, the one with the smaller
    [exec_time_ns] is the one popped (and handed to the model) first.  The
    other pending plans stay pending. *)
Theorem pop_takes_earliest_pending (w : World) (st : Z) :
  reachable w → pc w = Woken st →
  ∃ p w',
    step FollowerStep w = Some w'
    ∧ pc w' = Popped st p
    ∧ plans_ (follower w) ≡ₚ p :: plans_ (follower w')
    ∧ (∀ q, q ∈ plans_ (follower w) →
         exec_time_ns (proto p) ≤ exec_time_ns (proto q))
    ∧ is_heap OrderBatchPlanProtoByExecTimeDesc (plans_ (follower w'))
    ∧ log w' = log w.
Proof.
  intros [Hh Hp Ht Hn Ho Hc Hs]%reachable_Inv Hpc.
  unfold pc_inv in Hp. rewrite Hpc in Hp.
  destruct Hp as (Hex & Hne & Hlen & Hst & Htop).
  destruct (OnTimer_pop_spec _ Hh Hne)
    as (p & s1 & Hpop & H0 & Hh1 & Hperm & Hmin & Em & Et & Ee).
  exists p, {| follower := s1; now := now w; pc := Popped st p;
               log := log w |}.
  unfold step, follower_step. rewrite Hpc, Hpop. simpl.
  split_and!; try done. by apply plan_heap_is_heap.
Qed.

Example before_pop_run :
  run before_pop (init 0 0) = Some (world_after before_pop).
Proof. vm_compute. reflexivity. Qed.

Lemma pop_takes_earliest_pending_witness :
  ∃ p w',
    step FollowerStep (world_after before_pop) = Some w'
    ∧ pc w' = Popped 100 p
    ∧ plans_ (follower (world_after before_pop)) ≡ₚ p :: plans_ (follower w')
    ∧ (∀ q, q ∈ plans_ (follower (world_after before_pop)) →
         exec_time_ns (proto p) ≤ exec_time_ns (proto q))
    ∧ is_heap OrderBatchPlanProtoByExecTimeDesc (plans_ (follower w'))
    ∧ log w' = log (world_after before_pop).
Proof.
  apply (pop_takes_earliest_pending (world_after before_pop) 100).
  - exact (reachable_world_after before_pop _ before_pop_run).
  - vm_compute. reflexivity.
Defined.


(** ** [RemoveModel] *)

(** The check as the specification words it: a removal that goes through
    found the very model it was given in the slot. *)
Definition remove_model_checks_identity : Prop :=
  ∀ model s s',
    RemoveModel model s = Ok s' →
    models_ s !! model_index_ model = Some (Some model).

(** C8, as stated, fails: [RemoveModel] only checks that the slot is not
    null.  With [vgg] installed at index 0, removing [resnet] (another
    model with the same index) passes both checks and clears the slot. *)
Lemma remove_model_clears_another_model :
  ¬ remove_model_checks_identity.
Proof.
  intros H. specialize (H resnet vgg_installed _ eq_refl). done.
Qed.

(** C8, amended.  [RemoveModel(m)] checks that [m]'s [model_index] lies
    inside the table and that the slot there is not null, whichever model
    it holds; it aborts otherwise.  When the checks pass it sets that slot
    to null and changes nothing else: every other slot, the size of the
    table, the plans, the timer and the flag are as before. *)
Theorem RemoveModel_clears_occupied_slot (model : ModelExecutor) (s : State) :
  match RemoveModel model s with
  | Ok s' =>
      (∃ installed, models_ s !! model_index_ model = Some (Some installed))
      ∧ models_ s' !! model_index_ model = Some None
      ∧ (∀ j : nat, j ≠ model_index_ model → models_ s' !! j = models_ s !! j)
      ∧ length (models_ s') = length (models_ s)
      ∧ plans_ s' = plans_ s
      ∧ next_timer_ s' = next_timer_ s
      ∧ is_executing_ s' = is_executing_ s
  | Fatal _ =>
      (length (models_ s) ≤ model_index_ model)%nat
      ∨ models_ s !! model_index_ model = Some None
  end.
Proof.
  unfold RemoveModel. case_bool_decide as Hlt.
  - destruct (models_ s !! model_index_ model) as [[installed |] |] eqn:E.
    + simpl. split_and!; try done.
      * by exists installed.
      * by apply list_lookup_insert_eq.
      * intros j Hj. by apply list_lookup_insert_ne.
      * apply length_insert.
    + by right.
    + apply lookup_ge_None in E. lia.
  - left. lia.
Qed.

(** ** A popped plan whose model is missing *)

Lemma OnTimer_find_None plan s :
  OnTimer_find plan s = None ↔
  (length (models_ s) ≤ model_index (proto plan))%nat
  ∨ models_ s !! model_index (proto plan) = Some None.
Proof.
  unfold OnTimer_find. case_bool_decide as Hle.
  - split; [by left | done].
  - destruct (models_ s !! model_index (proto plan)) as [[m |] |] eqn:E.
    + split; [done | intros [? | ?]; [lia | done]].
    + split; [by right | done].
    + apply lookup_ge_None in E. lia.
Qed.

(** The sentence of C10 about the timer: after a miss, with plans still
    pending, a wait for the remaining top is pending. *)
Definition unknown_model_rearms_timer : Prop :=
  ∀ w st p w',
    reachable w → pc w = Popped st p →
    OnTimer_find p (follower w) = None →
    step FollowerStep w = Some w' →
    plans_ (follower w') ≠ [] →
    armed (next_timer_ (follower w')) = true.

Example unknown_model_equal_deadlines_run :
  run unknown_model_equal_deadlines (init 0 0)
  = Some (world_after unknown_model_equal_deadlines).
Proof. vm_compute. reflexivity. Qed.

(** That sentence does not hold of the code: the popped plan and the
    remaining top are both due at 100, the deadline the timer has just
    fired for.  [UpdateTimer] finds the top's deadline equal to
    [next_timer_.timeout()] and starts no wait. *)
Lemma equal_deadline_is_not_rearmed : ¬ unknown_model_rearms_timer.
Proof.
  intros H.
  specialize (H (world_after unknown_model_equal_deadlines) 100
                (plan_at 1 7 100) _
                (reachable_world_after _ _ unknown_model_equal_deadlines_run)
                eq_refl eq_refl eq_refl).
  vm_compute in H. by specialize (H ltac:(discriminate)).
Qed.


(** The part of C10 the code meets.  When the plan the follower popped
    names a model index with no installed model, the plan is already
    outside the heap (the accepted plans are those executed, those
    discarded, those pending and this one); the follower's next step logs
    the miss, calls [UpdateTimer] and returns to idle.  The plan is not put
    back and no call of [ExecuteBatchPlan] is made for it: it moves to the
    discarded ones.  The model table and the pending plans are unchanged.
    When the remaining top's deadline differs from the one the timer
    holds, [UpdateTimer] starts a wait for it. *)
Theorem unknown_model_plan_is_discarded
    (w : World) (st : Z) (p : BatchPlanContext) :
  reachable w → pc w = Popped st p → OnTimer_find p (follower w) = None →
  ∃ w',
    step FollowerStep w = Some w'
    ∧ pc w' = Idle
    ∧ follower w' = UpdateTimer (follower w)
    ∧ models_ (follower w') = models_ (follower w)
    ∧ plans_ (follower w') = plans_ (follower w)
    ∧ log w' = log w ++ [LogCannotFindModelIndex p]
    ∧ executed (log w') = executed (log w)
    ∧ discarded (log w') = discarded (log w) ++ [p]
    ∧ accepted (log w)
      ≡ₚ executed (log w) ++ discarded (log w) ++ plans_ (follower w) ++ [p]
    ∧ accepted (log w')
      ≡ₚ executed (log w') ++ discarded (log w') ++ plans_ (follower w')
    ∧ (∀ q rest, plans_ (follower w') = q :: rest →
         exec_time_ns (proto q) ≠ timeout (next_timer_ (follower w)) →
         timeout (next_timer_ (follower w')) = exec_time_ns (proto q)
         ∧ armed (next_timer_ (follower w')) = true).
Proof.
  intros Hreach Hpc Hfind.
  exists {| follower := UpdateTimer (follower w); now := now w; pc := Idle;
            log := log w ++ [LogCannotFindModelIndex p] |}.
  assert (Hstep : step FollowerStep w
    = Some {| follower := UpdateTimer (follower w); now := now w; pc := Idle;
              log := log w ++ [LogCannotFindModelIndex p] |}).
  { unfold step, follower_step. by rewrite Hpc, Hfind. }
  pose proof (reachable_Inv _ Hreach) as HI.
  pose proof (Inv_step _ _ _ HI Hstep) as HI'.
  pose proof (inv_conserve _ HI) as Hc. rewrite Hpc in Hc.
  pose proof (inv_conserve _ HI' eq_refl) as Hc'. simpl in Hc, Hc'.
  rewrite app_nil_r in Hc'.
  split_and!; simpl; try done.
  - apply UpdateTimer_models.
  - apply UpdateTimer_plans.
  - rewrite executed_app. simpl. by rewrite app_nil_r.
  - by rewrite discarded_app.
  - by apply Hc.
  - intros q rest E Hne. rewrite UpdateTimer_plans in E. split.
    + by eapply UpdateTimer_timeout.
    + rewrite (UpdateTimer_armed _ q rest E). unfold exec_time.
      by rewrite bool_decide_eq_true_2.
Qed.

Example unknown_model_popped_run :
  run unknown_model_popped (init 0 0)
  = Some (world_after unknown_model_popped).
Proof. vm_compute. reflexivity. Qed.

Lemma unknown_model_plan_is_discarded_witness :
  ∃ w',
    step FollowerStep (world_after unknown_model_popped) = Some w'
    ∧ pc w' = Idle
    ∧ follower w' = UpdateTimer (follower (world_after unknown_model_popped))
    ∧ models_ (follower w')
      = models_ (follower (world_after unknown_model_popped))
    ∧ plans_ (follower w')
      = plans_ (follower (world_after unknown_model_popped))
    ∧ log w' = log (world_after unknown_model_popped)
               ++ [LogCannotFindModelIndex (plan_at 1 7 100)]
    ∧ executed (log w') = executed (log (world_after unknown_model_popped))
    ∧ discarded (log w')
      = discarded (log (world_after unknown_model_popped))
        ++ [plan_at 1 7 100]
    ∧ accepted (log (world_after unknown_model_popped))
      ≡ₚ executed (log (world_after unknown_model_popped))
         ++ discarded (log (world_after unknown_model_popped))
         ++ plans_ (follower (world_after unknown_model_popped))
         ++ [plan_at 1 7 100]
    ∧ accepted (log w')
      ≡ₚ executed (log w') ++ discarded (log w') ++ plans_ (follower w')
    ∧ (∀ q rest, plans_ (follower w') = q :: rest →
         exec_time_ns (proto q)
         ≠ timeout (next_timer_
                      (follower (world_after unknown_model_popped))) →
         timeout (next_timer_ (follower w')) = exec_time_ns (proto q)
         ∧ armed (next_timer_ (follower w')) = true).
Proof.
  apply (unknown_model_plan_is_discarded
           (world_after unknown_model_popped) 100 (plan_at 1 7 100)).
  - exact (reachable_world_after unknown_model_popped _
             unknown_model_popped_run).
  - vm_compute. reflexivity.
  - vm_compute. reflexivity.
Defined.

(** ** [OnTimer] as one call *)

(** Run without interference, the follower thread's steps from [Woken]
    compose to [OnTimer]: same final state, same log entries (the call is
    stamped with the clock, which has not moved since [start_time]). *)
Local Ltac solve_steps :=
  repeat (apply Forall_cons_2; [auto |]); apply Forall_nil_2.

Lemma OnTimer_steps (w : World) (d : Z) :
  pc w = Woken (now w) → 0 ≤ d →
  match OnTimer kOk (now w) (now w + d) (follower w) with
  | Ok (s', events) =>
      ∃ acts w',
        run acts w = Some w' ∧ Forall (λ a, a = FollowerStep ∨ a = Tick d) acts
        ∧ pc w' = Idle ∧ follower w' = s' ∧ log w' = log w ++ events
  | Fatal msg =>
      ∃ w', run [FollowerStep; FollowerStep; FollowerStep] w = Some w'
            ∧ pc w' = Aborted msg ∧ executed (log w') = executed (log w)
  end.
Proof.
  intros Hpc Hd. unfold OnTimer. simpl.
  destruct (OnTimer_pop (follower w)) as [[plan s1] |] eqn:Hpop.
  - destruct (OnTimer_find plan s1) as [model |] eqn:Hfind.
    + destruct (OnTimer_begin s1) as [s2 | msg] eqn:Hbegin; simpl.
      * eexists [FollowerStep; FollowerStep; FollowerStep; Tick d;
                 FollowerStep], _.
        split; [| split; [solve_steps |]].
        { unfold run, step, follower_step. simpl.
          rewrite Hpc, Hpop. simpl. rewrite Hfind. simpl.
          rewrite Hbegin. simpl. rewrite bool_decide_eq_true_2 by done.
          simpl. reflexivity. }
        simpl. split; [done | split; [done |]].
        rewrite <- !(assoc_L (++)). simpl. done.
      * eexists. split.
        { unfold run, step, follower_step. simpl.
          rewrite Hpc, Hpop. simpl. rewrite Hfind. simpl.
          by rewrite Hbegin. }
        simpl. split; [done |]. rewrite executed_app.
        case_bool_decide; simpl; by rewrite app_nil_r.
    + eexists [FollowerStep; FollowerStep], _.
      split; [| split; [solve_steps |]].
      { unfold run, step, follower_step. simpl.
        rewrite Hpc, Hpop. simpl. by rewrite Hfind. }
      done.
  - eexists [FollowerStep], _.
    split; [| split; [solve_steps |]].
    { unfold run, step, follower_step. simpl. by rewrite Hpc, Hpop. }
    done.
Qed.

End FollowerFacts.

(* ===================================================================== *)
(** * Facts about the dispatch ingress                                    *)
(* ===================================================================== *)

Module DispatcherFacts.
Import Dispatcher.


Example unknown_index_throws :
  @OnRecv toy_collaborators 3 [0; 0; 42] 1000 1005 toy_empty
  = Thrown "std::out_of_range".
Proof. reflexivity. Qed.





Example refused_query_is_answered :
  sent (@OnRecv toy_collaborators 3 [0; 1; 42] 1000 1005 toy_worker)
  = [(3%nat, kDispatchReply
        {| status := CTRL_FAILURE 1; reply_model_index := 1;
           query_list :=
             [{| reply_query_id := 42;
                 reply_clock := {| dispatcher_recv_ns := 1000;
                                   dispatcher_sched_ns := 1005 |} |}] |})].
Proof. reflexivity. Qed.

Example accepted_query_is_silent :
  sent (@OnRecv toy_collaborators 3 [0; 0; 42] 1000 1005 toy_worker) = [].
Proof. reflexivity. Qed.

(** An entrance that takes the request it is handed (leaving a
    default-constructed message behind) and refuses it all the same. *)
Definition taking_collaborators : Collaborators :=
  {| ParseFromArray := @ParseFromArray toy_collaborators;
     GlobalIdIssuer := Z;
     Next := λ n, (n, n + 1);
     RequestEntrance := unit;
     default_entrance := ();
     entrance_model_index := λ _, 0%nat;
     EnqueueQuery := λ _ _, (CTRL_FAILURE 1, moved_from_request) |}.

(** The reply then still carries the two time stamps, copied from the
    clock object the ingress stamped, while its [model_index] and
    [query_id] are those of the emptied request. *)
Example taken_request_keeps_stamped_clock :
  sent (@OnRecv taking_collaborators 3 [0; 1; 42] 1000 1005
          (@Build_ModelWorker taking_collaborators [(); ()] 7))
  = [(3%nat, kDispatchReply
        {| status := CTRL_FAILURE 1; reply_model_index := 0;
           query_list :=
             [{| reply_query_id := 0;
                 reply_clock := {| dispatcher_recv_ns := 1000;
                                   dispatcher_sched_ns := 1005 |} |}] |})].
Proof. reflexivity. Qed.

End DispatcherFacts.

(* ===================================================================== *)
(** * Facts about the connection                                          *)
(* ===================================================================== *)

Module ArioFacts.
Import Ario ArioScenarios.
Local Open Scope N_scope.

(** ** Queue pair attributes *)

(** C7.  [TransitQueuePairToRTR] hands [ibv_modify_qp] the state RTR with
    path MTU [IBV_MTU_1024] (1024 bytes), [rq_psn = 0],
    [max_dest_rd_atomic = 1], [min_rnr_timer = 12] and the peer's
    [qp_num]; the address path follows the peer's [lid]: zero takes the
    RoCE path ([is_global], [grh.dgid] the peer's gid, [hop_limit = 1]),
    non-zero the InfiniBand path ([dlid] the peer's lid, no global
    routing).  [TransitQueuePairToRTS] then hands it the state RTS with
    [timeout = 8], [retry_cnt = 7], [rnr_retry = 7], [max_rd_atomic = 1].
    From Init the two calls, in this order, leave the queue pair in RTS. *)
Theorem queue_pair_transition_attributes (c : Connection) (peer : ConnInfo) :
  let rtr := rtr_attr (dev_port_ c) peer in
  trace (state_of (TransitQueuePairToRTR peer c))
    = trace c ++ [ModifyQp rtr rtr_mask]
  ∧ attr_qp_state rtr = IBV_QPS_RTR
  ∧ path_mtu rtr = IBV_MTU_1024 ∧ ibv_mtu_bytes (path_mtu rtr) = 1024
  ∧ rq_psn rtr = 0 ∧ max_dest_rd_atomic rtr = 1 ∧ min_rnr_timer rtr = 12
  ∧ dest_qp_num rtr = qp_num peer
  ∧ IBV_QP_AV ∈ rtr_mask ∧ IBV_QP_PATH_MTU ∈ rtr_mask
  ∧ IBV_QP_RQ_PSN ∈ rtr_mask ∧ IBV_QP_MAX_DEST_RD_ATOMIC ∈ rtr_mask
  ∧ IBV_QP_MIN_RNR_TIMER ∈ rtr_mask
  ∧ (lid peer = 0 →
       is_global (ah_attr rtr) = true
       ∧ dgid (grh (ah_attr rtr)) = gid peer
       ∧ hop_limit (grh (ah_attr rtr)) = 1)
  ∧ (lid peer ≠ 0 →
       is_global (ah_attr rtr) = false
       ∧ dlid (ah_attr rtr) = lid peer
       ∧ grh (ah_attr rtr) = grh zero_ah_attr)
  ∧ trace (state_of (TransitQueuePairToRTS c))
    = trace c ++ [ModifyQp rts_attr rts_mask]
  ∧ attr_qp_state rts_attr = IBV_QPS_RTS
  ∧ timeout rts_attr = 8 ∧ retry_cnt rts_attr = 7 ∧ rnr_retry rts_attr = 7
  ∧ max_rd_atomic rts_attr = 1
  ∧ IBV_QP_TIMEOUT ∈ rts_mask ∧ IBV_QP_RETRY_CNT ∈ rts_mask
  ∧ IBV_QP_RNR_RETRY ∈ rts_mask ∧ IBV_QP_MAX_QP_RD_ATOMIC ∈ rts_mask
  ∧ (qp_state (qp_ c) = IBV_QPS_INIT →
       ∃ c', (TransitQueuePairToRTR peer >>> TransitQueuePairToRTS) c
             = Done c'
             ∧ qp_state (qp_ c') = IBV_QPS_RTS
             ∧ trace c' = trace c ++ [ModifyQp rtr rtr_mask;
                                      ModifyQp rts_attr rts_mask]).
Proof.
  unfold rtr_mask, rts_mask.
  split_and!; try done; try (by set_solver).
  - unfold TransitQueuePairToRTR, die_if, ibv_modify_qp.
    destruct (_ && _); by case_bool_decide.
  - intros Hlid. unfold rtr_attr. rewrite Hlid. done.
  - intros Hlid. unfold rtr_attr. rewrite bool_decide_eq_true_2 by done.
    done.
  - unfold TransitQueuePairToRTS, die_if, ibv_modify_qp.
    destruct (_ && _); by case_bool_decide.
  - intros Hinit. eexists. unfold and_then, TransitQueuePairToRTR,
      TransitQueuePairToRTS, die_if, ibv_modify_qp. simpl.
    rewrite Hinit. simpl. split; [reflexivity |]. simpl.
    by rewrite <- (assoc_L (++)).
Qed.

Example roce_peer :
  ah_attr (rtr_attr 1 (msg_conn client_hello))
  = {| grh := {| dgid := 1099511627777; hop_limit := 1 |}; dlid := 0;
       is_global := true; ah_port_num := 1 |}.
Proof. reflexivity. Qed.

Example infiniband_peer :
  ah_attr (rtr_attr 1 (msg_conn server_hello))
  = {| grh := {| dgid := 0; hop_limit := 0 |}; dlid := 5;
       is_global := false; ah_port_num := 1 |}.
Proof. reflexivity. Qed.


(** ** Posting without a connection *)

(** The read request [AsyncRead] builds when the allocation yields block
    [b] of [pool]. *)
Definition read_wr (c : Connection) (pool : MemoryBlockAllocator)
    (b : Block) (offset length : N) : ibv_send_wr :=
  {| send_wr_id := next_wr_id_ c; opcode := IBV_WR_RDMA_READ;
     send_signaled := true;
     send_sg_list := [{| sge_addr := message_bytes pool b;
                         sge_length := length `mod` 2 ^ 32;
                         sge_lkey := local_mr_lkey c |}];
     remote_addr := (addr (remote_mr_ c) + offset) `mod` 2 ^ 64;
     wr_rkey := rkey (remote_mr_ c) |}.


Example client_before_region_state :
  is_connected_ client_before_region = false
  ∧ qp_state (qp_ client_before_region) = IBV_QPS_RTS
  ∧ remote_mr_ client_before_region = zero_mr
  ∧ tcp_pending_read client_before_region = Some ReadMemoryRegion.
Proof. vm_compute. done. Qed.


Example early_read_request :
  read_wr client_before_region
    {| pool_data := 1073741824; free_blocks := [] |}
    {| block_index := 0; bytes_length := 0 |} 32 16
  = {| send_wr_id := 0; opcode := IBV_WR_RDMA_READ; send_signaled := true;
       send_sg_list := [{| sge_addr := 1073741828; sge_length := 16;
                           sge_lkey := 4661 |}];
       remote_addr := 32; wr_rkey := 0 |}.
Proof. vm_compute. reflexivity. Qed.


(** ** What no operation of the connection ever does *)

(** From [c] to [c'] no [OnError] callback was made and no entry left the
    context table. *)
Definition grows (c c' : Connection) : Prop :=
  (∀ kind, OnError kind ∈ trace c' → OnError kind ∈ trace c)
  ∧ (∀ id, is_Some (wr_ctx_ c !! id) → is_Some (wr_ctx_ c' !! id)).

Definition growing (f : Connection → outcome) : Prop :=
  ∀ c, grows c (state_of (f c)).

Lemma grows_refl c : grows c c.
Proof. by split. Qed.

Lemma grows_trans c1 c2 c3 : grows c1 c2 → grows c2 c3 → grows c1 c3.
Proof. intros [H1 H2] [H3 H4]. split; eauto. Qed.

Lemma growing_and_then f g : growing f → growing g → growing (f >>> g).
Proof.
  intros Hf Hg c. unfold and_then. specialize (Hf c).
  destruct (f c) as [c1 | c1 msg]; simpl in *; [| done].
  eapply grows_trans; [done | apply Hg].
Qed.

Lemma growing_repeat_call n f : growing f → growing (repeat_call n f).
Proof.
  intros Hf. induction n as [| n IH]; simpl.
  - intros c. apply grows_refl.
  - by apply growing_and_then.
Qed.

Local Ltac unfold_ops :=
  unfold PostReceive, AsyncSend, AsyncRead, HandleWorkCompletion,
    TransitQueuePairToInit, TransitQueuePairToRTR, TransitQueuePairToRTS,
    SendConnInfo, SendMemoryRegion, RecvConnInfo, RecvMemoryRegion,
    call_OnConnected, SendConnInfo_cb, SendMemoryRegion_cb,
    fetch_add_wr_id, with_block, die_if, ibv_post_recv, ibv_post_send,
    ibv_modify_qp, emplace_ctx, pop_recv, pop_send in *.

Local Ltac cases :=
  repeat first
    [ case_bool_decide
    | match goal with
      | |- context [match ?x with _ => _ end] => destruct x eqn:?
      | |- context [if ?x then _ else _] => destruct x eqn:?
      end ];
  simpl in *.

Local Ltac solve_grows :=
  split; simpl;
  [ intros kind; rewrite ?elem_of_app, ?list_elem_of_singleton;
    intros Hin; intuition discriminate
  | intros id' Hsome; try exact Hsome; destruct Hsome as [x Hx];
    repeat match goal with
    | |- is_Some (<[?k := _]> _ !! id') =>
        destruct (decide (k = id')) as [-> |];
        [ rewrite lookup_insert_eq | rewrite lookup_insert_ne by done ]
    end; eauto ].

Lemma growing_PostReceive : growing PostReceive.
Proof. intros c. unfold_ops. cases; solve_grows. Qed.

Lemma growing_AsyncSend b : growing (AsyncSend b).
Proof. intros c. unfold_ops. cases; solve_grows. Qed.

Lemma growing_AsyncRead offset length : growing (AsyncRead offset length).
Proof. intros c. unfold_ops. cases; solve_grows. Qed.

Lemma growing_TransitQueuePairToRTR peer :
  growing (TransitQueuePairToRTR peer).
Proof. intros c. unfold_ops. cases; solve_grows. Qed.

Lemma growing_TransitQueuePairToRTS : growing TransitQueuePairToRTS.
Proof. intros c. unfold_ops. cases; solve_grows. Qed.


Lemma growing_simple :
  growing SendConnInfo ∧ growing SendMemoryRegion ∧ growing RecvConnInfo
  ∧ growing RecvMemoryRegion ∧ growing call_OnConnected.
Proof. split_and!; intros c; unfold_ops; cases; solve_grows. Qed.

Lemma growing_HandleWorkCompletion wc : growing (HandleWorkCompletion wc).
Proof.
  intros c. unfold HandleWorkCompletion.
  case_bool_decide; [apply grows_refl |].
  destruct (wr_ctx_ c !! wc_wr_id wc) as [entry |] eqn:E;
    [| apply grows_refl].
  assert (Hmoved : grows c (set_wr_ctx
            (<[wc_wr_id wc := {| buf := None |}]> (wr_ctx_ c)) c)).
  { solve_grows. }
  repeat case_bool_decide.
  - eapply grows_trans; [exact Hmoved |].
    apply (growing_and_then PostReceive); [apply growing_PostReceive |].
    intros c2. solve_grows.
  - eapply grows_trans; [exact Hmoved |]. solve_grows.
  - eapply grows_trans; [exact Hmoved |]. solve_grows.
  - eapply grows_trans; [exact Hmoved |]. solve_grows.
Qed.

Section backlog_facts.
Variable k : nat.

Lemma growing_MarkConnected : growing (MarkConnected k).
Proof.
  intros c. unfold MarkConnected. case_bool_decide; [apply grows_refl |].
  eapply grows_trans;
    [| apply (growing_and_then (repeat_call k PostReceive));
       [apply growing_repeat_call, growing_PostReceive |]].
  - destruct (poller_type_ c); solve_grows.
  - intros c3. solve_grows.
Qed.

Lemma growing_RecvConnInfo_cb err msg : growing (RecvConnInfo_cb k err msg).
Proof.
  intros c. unfold RecvConnInfo_cb.
  repeat (case_bool_decide; [apply grows_refl |]).
  destruct growing_simple as (? & ? & ? & ? & ?).
  apply growing_and_then;
    [apply growing_and_then;
       [apply growing_TransitQueuePairToRTR
       | apply growing_TransitQueuePairToRTS] |].
  intros c1. destruct (memory_region_ c1); [| done].
  apply growing_and_then; [apply growing_and_then |]; try done.
  apply growing_MarkConnected.
Qed.

Lemma growing_RecvMemoryRegion_cb err msg :
  growing (RecvMemoryRegion_cb k err msg).
Proof.
  intros c. unfold RecvMemoryRegion_cb.
  repeat (case_bool_decide; [solve_grows |]).
  destruct growing_simple as (? & ? & ? & ? & ?).
  eapply grows_trans;
    [| apply growing_and_then; [apply growing_MarkConnected | done]].
  solve_grows.
Qed.

Lemma grows_step a c o : step k a c = Some o → grows c (state_of o).
Proof.
  destruct a; simpl.
  - destruct (tcp_pending_read c) as [[] |] eqn:E; intros [= <-].
    + eapply grows_trans; [| apply growing_RecvConnInfo_cb]. solve_grows.
    + eapply grows_trans; [| apply growing_RecvMemoryRegion_cb].
      solve_grows.
  - destruct (poller_running c), (recv_queue (qp_ c)); intros [= <-].
    eapply grows_trans; [| apply growing_HandleWorkCompletion].
    unfold_ops. solve_grows.
  - destruct (poller_running c), (send_queue (qp_ c)); intros [= <-].
    eapply grows_trans; [| apply growing_HandleWorkCompletion].
    unfold_ops. solve_grows.
  - destruct (_ && _); intros [= <-]. apply growing_HandleWorkCompletion.
  - intros [= <-]. apply growing_AsyncSend.
  - intros [= <-]. apply growing_AsyncRead.
  - intros [= <-]. solve_grows.
Qed.

Lemma grows_run acts o o' :
  run k acts o = Some o' → grows (state_of o) (state_of o').
Proof.
  revert o. induction acts as [| a acts IH]; intros o; simpl.
  - intros [= <-]. apply grows_refl.
  - destruct o as [c | c msg]; [| done].
    destruct (step k a c) as [o1 |] eqn:E; [| done]. intros Hrun.
    eapply grows_trans; [by eapply grows_step | by apply IH].
Qed.



End backlog_facts.


(** ** Errors during the handshake *)







(** ** The context table at a completion *)

(** Whatever the completion, its entry is still in the table when
    [HandleWorkCompletion] returns, holding a handle that owns nothing. *)
Lemma and_then_Done f g c c' :
  (f >>> g) c = Done c' → ∃ c1, f c = Done c1 ∧ g c1 = Done c'.
Proof.
  unfold and_then. destruct (f c) as [c1 | c1 msg]; [| done]. eauto.
Qed.

Lemma PostReceive_Done c c' :
  PostReceive c = Done c' →
  ∃ wr,
    recv_queue (qp_ c') = recv_queue (qp_ c) ++ [wr]
    ∧ recv_wr_id wr = next_wr_id_ c
    ∧ send_queue (qp_ c') = send_queue (qp_ c)
    ∧ qp_state (qp_ c') = qp_state (qp_ c)
    ∧ is_connected_ c' = is_connected_ c
    ∧ tcp_pending_read c' = tcp_pending_read c
    ∧ poller_running c' = poller_running c
    ∧ poller_type_ c' = poller_type_ c
    ∧ memory_region_ c' = memory_region_ c
    ∧ trace c' = trace c ++ [CtxEmplace (next_wr_id_ c); PostRecv wr]
    ∧ (∀ id x, wr_ctx_ c !! id = Some x → wr_ctx_ c' !! id = Some x).
Proof.
  unfold PostReceive, fetch_add_wr_id, with_block. simpl.
  destruct (Allocate (local_buf_ c)) as [[b pool] |]; [| done].
  unfold die_if, ibv_post_recv. simpl.
  destruct (bool_decide (_ < _)%nat) eqn:Hroom; simpl; [| done].
  intros [= <-]. eexists. unfold emplace_ctx. simpl.
  destruct (wr_ctx_ c !! next_wr_id_ c) eqn:E; simpl;
    (split_and!; [reflexivity | reflexivity | done .. | |]);
    try (by rewrite <- (assoc_L (++))); try done.
  intros id x Hx. rewrite lookup_insert_ne; [done |]. congruence.
Qed.

Lemma HandleWorkCompletion_keeps_entry wc c c' :
  HandleWorkCompletion wc c = Done c' →
  wr_ctx_ c' !! wc_wr_id wc = Some {| buf := None |}.
Proof.
  unfold HandleWorkCompletion. case_bool_decide; [done |].
  destruct (wr_ctx_ c !! wc_wr_id wc) as [entry |] eqn:E; [| done].
  repeat case_bool_decide.
  - unfold and_then.
    destruct (PostReceive _) as [c2 | c2 msg] eqn:Hpost; [| done].
    intros [= <-]. simpl.
    apply PostReceive_Done in Hpost as (wr & _ & _ & _ & _ & _ & _ & _ & _
      & _ & _ & Hkeep).
    apply Hkeep. simpl. apply lookup_insert_eq.
  - intros [= <-]. simpl. apply lookup_insert_eq.
  - intros [= <-]. simpl. apply lookup_insert_eq.
  - intros [= <-]. simpl. apply lookup_insert_eq.
Qed.

(** Each of the three post operations enters the context in the table
    before it calls the verb: whenever the verb is reached, the trace grew
    by the table insertion followed by the post, both for the same work
    request id. *)
Lemma context_is_entered_before_posting c :
  (trace (state_of (PostReceive c)) = trace c
   ∨ ∃ wr, trace (state_of (PostReceive c))
           = trace c ++ [CtxEmplace (next_wr_id_ c); PostRecv wr]
           ∧ recv_wr_id wr = next_wr_id_ c)
  ∧ (∀ b, trace (state_of (AsyncSend b c)) = trace c
          ∨ ∃ wr, trace (state_of (AsyncSend b c))
                  = trace c ++ [CtxEmplace (next_wr_id_ c); PostSend wr]
                  ∧ send_wr_id wr = next_wr_id_ c
                  ∧ opcode wr = IBV_WR_SEND)
  ∧ (∀ offset len,
       trace (state_of (AsyncRead offset len c)) = trace c
       ∨ ∃ wr, trace (state_of (AsyncRead offset len c))
               = trace c ++ [CtxEmplace (next_wr_id_ c); PostSend wr]
               ∧ send_wr_id wr = next_wr_id_ c
               ∧ opcode wr = IBV_WR_RDMA_READ).
Proof.
  split_and!.
  - unfold PostReceive, fetch_add_wr_id, with_block. simpl.
    destruct (Allocate (local_buf_ c)) as [[b pool] |]; [| by left].
    right. unfold die_if, ibv_post_recv, emplace_ctx. simpl.
    eexists. destruct (bool_decide (_ < _)%nat);
      destruct (wr_ctx_ c !! next_wr_id_ c); simpl;
      rewrite <- (assoc_L (++)); done.
  - intros b. unfold AsyncSend.
    destruct (is_connected_ c); simpl; [| by left].
    right. unfold die_if, ibv_post_send, emplace_ctx, fetch_add_wr_id.
    simpl. eexists. destruct (bool_decide (_ < _)%nat);
      destruct (wr_ctx_ c !! next_wr_id_ c); simpl;
      rewrite <- (assoc_L (++)); done.
  - intros offset len. unfold AsyncRead, fetch_add_wr_id, with_block. simpl.
    destruct (Allocate (local_buf_ c)) as [[b pool] |]; [| by left].
    right. unfold die_if, ibv_post_send, emplace_ctx. simpl.
    eexists. destruct (bool_decide (_ < _)%nat);
      destruct (wr_ctx_ c !! next_wr_id_ c); simpl;
      rewrite <- (assoc_L (++)); done.
Qed.

(** A completion that is handled makes at most one handler callback, and
    the buffer of its entry goes into that callback. *)
Lemma completion_calls_one_handler wc c c' entry :
  HandleWorkCompletion wc c = Done c' →
  wr_ctx_ c !! wc_wr_id wc = Some entry →
  filter (λ e, is_handler_call e = true)
         (drop (List.length (trace c)) (trace c'))
  = if bool_decide (N.land (wc_opcode wc) IBV_WC_RECV ≠ 0)
    then [OnRecv (buf entry)]
    else if bool_decide (wc_opcode wc = IBV_WC_SEND)
    then [OnSent (buf entry)]
    else if bool_decide (wc_opcode wc = IBV_WC_RDMA_READ)
    then [OnRdmaReadComplete (buf entry)]
    else [].
Proof.
  unfold HandleWorkCompletion. case_bool_decide; [done |].
  intros Hdone E. rewrite E in Hdone. revert Hdone.
  case_bool_decide as Hrecv.
  - intros (c2 & Hpost & [= <-])%and_then_Done.
    apply PostReceive_Done in Hpost
      as (wr & _ & _ & _ & _ & _ & _ & _ & _ & _ & Htr & _).
    simpl in *. rewrite Htr, <- (assoc_L (++)), drop_app_length. done.
  - repeat case_bool_decide; intros [= <-]; simpl;
      by rewrite drop_app_length.
Qed.

(** No action ever takes an entry out of the table. *)
Lemma context_entries_are_never_removed k acts o o' id :
  run k acts o = Some o' →
  is_Some (wr_ctx_ (state_of o) !! id) →
  is_Some (wr_ctx_ (state_of o') !! id).
Proof. intros Hrun. apply (grows_run k) in Hrun as [_ Hrun]. apply Hrun. Qed.

Definition server_connected : Connection :=
  state_of (after server_cfg [TcpReadCompletes 0 client_hello]).

Definition server_after_first_recv : Connection :=
  state_of (after server_cfg server_first_recv).

Definition block0 : Block := {| block_index := 0; bytes_length := 0 |}.

(** C5, at the failing input.  The server has prefilled four receives,
    with work request ids 0 to 3; each was entered in the table before it
    was posted.  The poller takes the successful completion of receive 0:
    a replacement (id 4) is entered and posted, and the buffer of receive 0
    is moved into [OnRecv], the one callback made.  The entry of id 0 is
    still in the table afterwards, emptied: the table holds five entries
    where four receives are outstanding. *)
Theorem completed_entry_stays_in_table :
  run backlog server_first_recv (Connection_ctor server_cfg)
  = Some (Done server_after_first_recv)
  ∧ recv_wr_id <$> recv_queue (qp_ server_connected) = [0; 1; 2; 3]
  ∧ wr_ctx_ server_connected !! 0 = Some {| buf := Some block0 |}
  ∧ base.size (wr_ctx_ server_connected) = 4%nat
  ∧ (∃ wr,
       trace server_after_first_recv
       = trace server_connected
         ++ [CtxEmplace 4; PostRecv wr; OnRecv (Some block0)]
       ∧ recv_wr_id wr = 4)
  ∧ recv_wr_id <$> recv_queue (qp_ server_after_first_recv) = [1; 2; 3; 4]
  ∧ wr_ctx_ server_after_first_recv !! 0 = Some {| buf := None |}
  ∧ base.size (wr_ctx_ server_after_first_recv) = 5%nat.
Proof.
  split_and!; try (vm_compute; reflexivity).
  eexists. split; vm_compute; reflexivity.
Qed.


(** ** The receive backlog *)







Section backlog_invariant.
Variable k : nat.













End backlog_invariant.


Definition server_busy_state : Connection :=
  state_of (after server_cfg server_busy).

Example server_busy_run :
  run backlog server_busy (Connection_ctor server_cfg)
  = Some (Done server_busy_state).
Proof. vm_compute. reflexivity. Qed.


Example server_busy_queue :
  recv_wr_id <$> recv_queue (qp_ server_busy_state) = [3; 4; 5; 6].
Proof. vm_compute. reflexivity. Qed.

End ArioFacts.

(* ===================================================================== *)
(** * More about the follower: the model table, the timer, the log        *)
(* ===================================================================== *)

Module FollowerTable.
Import StdHeap StdHeapFacts Follower FollowerFacts FollowerScenarios.

(** The model installed at an index: none beyond the end of [models_] and
    none in a null slot. *)
Definition installed (s : State) (i : nat) : option ModelExecutor :=
  default None (models_ s !! i).

Lemma installed_None s i :
  installed s i = None
  ↔ (length (models_ s) ≤ i)%nat ∨ models_ s !! i = Some None.
Proof.
  unfold installed. destruct (models_ s !! i) as [[m |] |] eqn:E; simpl.
  - split; [done |]. intros [Hle | ?]; [| done].
    apply lookup_lt_Some in E. lia.
  - split; [by right | done].
  - split; [| done]. intros _. left. by apply lookup_ge_None.
Qed.

(** ** [AddModel] *)

(** What a successful [AddModel] found and what it left. *)
Lemma AddModel_Ok_inv (model : ModelExecutor) (s s' : State) :
  AddModel model s = Ok s' →
  installed s (model_index_ model) = None
  ∧ models_ s' !! model_index_ model = Some (Some model)
  ∧ (∀ j : nat, j ≠ model_index_ model → installed s' j = installed s j)
  ∧ length (models_ s')
    = (length (models_ s) `max` (model_index_ model + 1))%nat.
Proof.
  unfold AddModel, installed. set (i := model_index_ model).
  case_bool_decide as Hle.
  - (* the table is extended *)
    rewrite lookup_resize_new by lia. intros [= <-]. simpl.
    rewrite (lookup_ge_None_2 (models_ s) i) by lia. simpl.
    split_and!; try done.
    + rewrite list_lookup_insert_eq; [done |]. rewrite length_resize. lia.
    + intros j Hj. rewrite list_lookup_insert_ne by done.
      destruct (decide (j < length (models_ s))%nat) as [Hlt | Hge].
      * by rewrite lookup_resize by lia.
      * rewrite (lookup_ge_None_2 (models_ s) j) by lia.
        destruct (decide (j < i + 1)%nat).
        -- by rewrite lookup_resize_new by lia.
        -- rewrite lookup_ge_None_2; [done |]. rewrite length_resize. lia.
    + rewrite length_insert, length_resize. lia.
  - destruct (models_ s !! i) as [[m |] |] eqn:E; simpl; [done | | done].
    intros [= <-]. simpl. split_and!; try done.
    + rewrite list_lookup_insert_eq; [done | lia].
    + intros j Hj. by rewrite list_lookup_insert_ne.
    + rewrite length_insert. lia.
Qed.

(** X1.  [AddModel] goes through exactly when no model is installed at the
    model's index (the slot is null, or the table ends before it, in which
    case the table is first extended with null slots).  Afterwards the
    model is the one installed at its index, every other index has what it
    had, the table is as long as before or reaches just past the index,
    and plans, timer and flag are untouched.  When a model is installed at
    the index already, the CHECK ends the process. *)
Theorem AddModel_installs_in_empty_slot (model : ModelExecutor) (s : State) :
  match AddModel model s with
  | Ok s' =>
      installed s (model_index_ model) = None
      ∧ installed s' (model_index_ model) = Some model
      ∧ (∀ j : nat, j ≠ model_index_ model → installed s' j = installed s j)
      ∧ length (models_ s')
        = (length (models_ s) `max` (model_index_ model + 1))%nat
      ∧ same_schedule s s'
  | Fatal _ => is_Some (installed s (model_index_ model))
  end.
Proof.
  destruct (AddModel model s) as [s' | msg] eqn:Hadd.
  - destruct (AddModel_Ok_inv model s s' Hadd) as (Hnone & Hin & Hother & Hlen).
    split_and!; try done.
    + unfold installed. by rewrite Hin.
    + by apply (AddModel_schedule model).
  - unfold AddModel in Hadd. unfold installed.
    case_bool_decide as Hle.
    + by rewrite lookup_resize_new in Hadd by lia.
    + destruct (models_ s !! model_index_ model) as [[m |] |] eqn:E; simpl.
      * by eexists.
      * done.
      * apply lookup_ge_None in E. lia.
Qed.

(** X2.  Round trip: after [AddModel(m)] went through, [RemoveModel] of any
    model with [m]'s index goes through as well and leaves every index with
    what it had before the two calls.  The table itself does not shrink
    back: it keeps the length [AddModel] gave it. *)
Theorem RemoveModel_undoes_AddModel
    (model other : ModelExecutor) (s s1 : State) :
  AddModel model s = Ok s1 →
  model_index_ other = model_index_ model →
  ∃ s2,
    RemoveModel other s1 = Ok s2
    ∧ (∀ j : nat, installed s2 j = installed s j)
    ∧ length (models_ s2)
      = (length (models_ s) `max` (model_index_ model + 1))%nat
    ∧ same_schedule s s2.
Proof.
  intros Hadd Hidx.
  destruct (AddModel_Ok_inv model s s1 Hadd) as (Hnone & Hin & Hother & Hlen).
  pose proof (AddModel_schedule model s s1 Hadd) as (Hp & Ht & He).
  pose proof (lookup_lt_Some _ _ _ Hin) as Hlt.
  unfold RemoveModel. rewrite Hidx, Hin.
  rewrite bool_decide_eq_true_2 by done.
  eexists. split; [done |]. simpl. split_and!.
  - intros j. unfold installed at 1. simpl.
    destruct (decide (j = model_index_ model)) as [-> | Hj].
    + by rewrite list_lookup_insert_eq, Hnone.
    + rewrite list_lookup_insert_ne by done. by apply Hother.
  - by rewrite length_insert.
  - by split_and!.
Qed.

Lemma RemoveModel_undoes_AddModel_witness :
  ∃ s2,
    RemoveModel resnet vgg_installed = Ok s2
    ∧ (∀ j : nat,
         installed s2 j
         = installed {| models_ := []; plans_ := [];
                        next_timer_ := {| timeout := 0; armed := false |};
                        is_executing_ := false |} j)
    ∧ length (models_ s2) = (0 `max` (model_index_ vgg + 1))%nat
    ∧ same_schedule {| models_ := []; plans_ := [];
                       next_timer_ := {| timeout := 0; armed := false |};
                       is_executing_ := false |} s2.
Proof.
  apply (RemoveModel_undoes_AddModel vgg resnet
           {| models_ := []; plans_ := [];
              next_timer_ := {| timeout := 0; armed := false |};
              is_executing_ := false |} vgg_installed).
  - reflexivity.
  - reflexivity.
Defined.

(** ** The table and the model a plan runs on *)

(** Every occupied slot holds a model whose own index is the slot's. *)
Definition table_indexed (s : State) : Prop :=
  ∀ (i : nat) m, models_ s !! i = Some (Some m) → model_index_ m = i.

Definition own_model (w : World) : Prop :=
  table_indexed (follower w)
  ∧ (∀ p m t, ExecuteBegin p m t ∈ log w →
       model_index_ m = model_index (proto p))
  ∧ match pc w with
    | Found _ p m | Executing _ p m => model_index_ m = model_index (proto p)
    | _ => True
    end.

Lemma AddModel_indexed model s s' :
  AddModel model s = Ok s' → table_indexed s → table_indexed s'.
Proof.
  unfold AddModel. set (i := model_index_ model).
  set (models1 := if bool_decide _ then _ else _).
  assert (Hold : ∀ (j : nat) m, models1 !! j = Some (Some m) →
                                 models_ s !! j = Some (Some m)).
  { intros j m. subst models1. case_bool_decide; [| done].
    intros Hj. pose proof (lookup_lt_Some _ _ _ Hj) as Hlt.
    rewrite length_resize in Hlt.
    destruct (decide (j < length (models_ s))%nat).
    - by rewrite lookup_resize in Hj by lia.
    - by rewrite lookup_resize_new in Hj by lia. }
  destruct (models1 !! i) as [[m0 |] |] eqn:E; try done.
  intros [= <-] Hidx j m. simpl.
  destruct (decide (i = j)) as [<- | Hne].
  - rewrite list_lookup_insert_eq by (by eapply lookup_lt_Some).
    by intros [= <-].
  - rewrite list_lookup_insert_ne by done. intros Hj. by apply Hidx, Hold.
Qed.

Lemma RemoveModel_indexed model s s' :
  RemoveModel model s = Ok s' → table_indexed s → table_indexed s'.
Proof.
  unfold RemoveModel. case_bool_decide; [| done].
  destruct (models_ s !! model_index_ model) as [[m0 |] |] eqn:E; try done.
  intros [= <-] Hidx j m. simpl.
  destruct (decide (model_index_ model = j)) as [<- | Hne].
  - rewrite list_lookup_insert_eq by (by eapply lookup_lt_Some). done.
  - rewrite list_lookup_insert_ne by done. apply Hidx.
Qed.

Lemma OnTimer_pop_models s p s1 :
  OnTimer_pop s = Some (p, s1) → models_ s1 = models_ s.
Proof.
  unfold OnTimer_pop. destruct (plans_ s); [done |].
  destruct (last _); [| done]. by intros [= _ <-].
Qed.

Lemma OnTimer_find_Some p s m :
  OnTimer_find p s = Some m → models_ s !! model_index (proto p) = Some (Some m).
Proof.
  unfold OnTimer_find. case_bool_decide; [done |].
  destruct (models_ s !! _) as [[m' |] |]; try done. by intros [= <-].
Qed.

Lemma own_model_step a w w' : own_model w → step a w = Some w' → own_model w'.
Proof.
  intros (Ht & Hl & Hp). unfold step.
  destruct (is_aborted (pc w)) eqn:Hab; [done |].
  destruct a as [dt | model | model | plan | | |].
  - case_bool_decide; [| done]. by intros [= <-].
  - intros [= <-]. destruct (AddModel model (follower w)) as [s' | msg] eqn:E;
      simpl; [| done].
    split_and!; [by eapply AddModel_indexed | done | done].
  - intros [= <-].
    destruct (RemoveModel model (follower w)) as [s' | msg] eqn:E;
      simpl; [| done].
    split_and!; [by eapply RemoveModel_indexed | done | done].
  - intros [= <-]. split_and!; simpl.
    + unfold table_indexed. rewrite AddBatchPlan_models. apply Ht.
    + intros p m t [Hin | Hin%list_elem_of_singleton]%elem_of_app;
        [by eapply Hl | done].
    + done.
  - destruct (pc w) eqn:Hpc; try done.
    destruct (_ && _); [| done]. by intros [= <-].
  - destruct (pc w) eqn:Hpc; try done. intros [= <-].
    split_and!; try done. by rewrite Hpc.
  - unfold follower_step.
    destruct (pc w) as [| st | st p | st p m | st p m |] eqn:Hpc; try done.
    + destruct (OnTimer_pop (follower w)) as [[p s1] |] eqn:Hpop;
        intros [= <-]; (split_and!; simpl; [| | done]).
      * unfold table_indexed. rewrite (OnTimer_pop_models _ _ _ Hpop).
        apply Ht.
      * done.
      * done.
      * intros q m t [Hin | Hin%list_elem_of_singleton]%elem_of_app;
          [by eapply Hl | done].
    + destruct (OnTimer_find p (follower w)) as [m |] eqn:Hfind;
        intros [= <-]; (split_and!; simpl).
      * done.
      * intros q m' t [Hin | Hin]%elem_of_app; [by eapply Hl |].
        case_bool_decide; [| by apply elem_of_nil in Hin].
        by apply list_elem_of_singleton in Hin.
      * by apply Ht, OnTimer_find_Some.
      * unfold table_indexed. rewrite UpdateTimer_models. apply Ht.
      * intros q m' t [Hin | Hin%list_elem_of_singleton]%elem_of_app;
          [by eapply Hl | done].
      * done.
    + destruct (OnTimer_begin (follower w)) as [s1 | msg] eqn:Hb;
        intros [= <-]; (split_and!; simpl; [| | done]).
      * unfold OnTimer_begin, test_and_set in Hb.
        destruct (is_executing_ (follower w)); [done |].
        by injection Hb as <-.
      * intros q m' t [Hin | Hin%list_elem_of_singleton]%elem_of_app;
          [by eapply Hl |].
        by injection Hin as -> -> ->.
      * done.
      * done.
    + intros [= <-]. split_and!; simpl; [| | done].
      * unfold table_indexed, OnTimer_end. simpl.
        rewrite UpdateTimer_models. apply Ht.
      * intros q m' t [Hin | [Hin | Hin]%elem_of_cons]%elem_of_app;
          [by eapply Hl | done |].
        case_bool_decide; [| by apply elem_of_nil in Hin].
        by apply list_elem_of_singleton in Hin.
Qed.

Lemma own_model_run acts w w' : own_model w → run acts w = Some w' → own_model w'.
Proof.
  revert w. induction acts as [| a acts IH]; intros w HI; simpl.
  - by intros [= <-].
  - destruct (step a w) as [w1 |] eqn:E; [| done].
    apply IH. by eapply own_model_step.
Qed.

(** X3.  A plan is only ever handed to the model registered for its own
    [model_index]: whatever the interleaving of [AddModel], [RemoveModel],
    [AddBatchPlan] and the timer, every call [model->ExecuteBatchPlan(plan)]
    in the log is on a model whose [model_index()] is the plan's, and every
    occupied slot of [models_] holds a model with the slot's index. *)
Theorem plan_runs_on_model_of_its_index (w : World) :
  reachable w →
  (∀ p m t, ExecuteBegin p m t ∈ log w →
     model_index_ m = model_index (proto p))
  ∧ (∀ (i : nat) m,
       models_ (follower w) !! i = Some (Some m) → model_index_ m = i).
Proof.
  intros (timeout0 & now0 & acts & Hrun).
  assert (Hinit : own_model (init timeout0 now0)).
  { split_and!; simpl; try done.
    intros p m t Hin. by apply elem_of_nil in Hin. }
  destruct (own_model_run _ _ _ Hinit Hrun) as (Ht & Hl & _). done.
Qed.

Lemma plan_runs_on_model_of_its_index_witness :
  (∀ p m t, ExecuteBegin p m t ∈ log (world_after three_plans) →
     model_index_ m = model_index (proto p))
  ∧ (∀ (i : nat) m,
       models_ (follower (world_after three_plans)) !! i = Some (Some m) →
       model_index_ m = i).
Proof.
  apply (plan_runs_on_model_of_its_index (world_after three_plans)).
  exact (reachable_world_after three_plans _ three_plans_run).
Defined.

End FollowerTable.

Module FollowerSchedule.
Import StdHeap StdHeapFacts Follower FollowerFacts FollowerScenarios.

(** ** [AddBatchPlan] and the timer's deadline *)

(** X4.  [AddBatchPlan] keeps [plans_] a heap that holds the plans it held
    plus the new one, and leaves the timer's deadline at the smallest
    [exec_time_ns] among them (the heap's top).  A wait is started exactly
    when that deadline differs from the one the timer had; when it is the
    same, the timer is left as it was, armed or not. *)
Theorem AddBatchPlan_sets_deadline_to_earliest
    (plan : BatchPlanContext) (s : State) :
  is_heap OrderBatchPlanProtoByExecTimeDesc (plans_ s) →
  let s' := AddBatchPlan plan s in
  is_heap OrderBatchPlanProtoByExecTimeDesc (plans_ s')
  ∧ plans_ s' ≡ₚ plan :: plans_ s
  ∧ (∀ q, q ∈ plan :: plans_ s →
       timeout (next_timer_ s') ≤ exec_time_ns (proto q))
  ∧ (∃ top, plans_ s' !! 0%nat = Some top
            ∧ timeout (next_timer_ s') = exec_time_ns (proto top))
  ∧ armed (next_timer_ s')
    = (if bool_decide (timeout (next_timer_ s') ≠ timeout (next_timer_ s))
       then true else armed (next_timer_ s))
  ∧ models_ s' = models_ s ∧ is_executing_ s' = is_executing_ s.
Proof.
  intros Hh%plan_heap_is_heap s'.
  destruct (AddBatchPlan_plans plan s Hh) as [Hh' Hperm]. fold s' in Hh', Hperm.
  destruct (plans_ s') as [| top rest] eqn:E.
  { by apply Permutation_nil_cons in Hperm. }
  pose proof (AddBatchPlan_timeout plan s top rest Hh E) as Htm. fold s' in Htm.
  split_and!.
  - by apply plan_heap_is_heap.
  - done.
  - intros q Hq. rewrite Htm.
    by apply (AddBatchPlan_top_le plan s top rest q Hh E).
  - by exists top.
  - rewrite Htm. subst s'. unfold AddBatchPlan in *.
    rewrite UpdateTimer_plans in E.
    by rewrite (UpdateTimer_armed _ top rest E).
  - apply AddBatchPlan_models.
  - apply AddBatchPlan_executing.
Qed.

Definition one_pending : State :=
  {| models_ := []; plans_ := [plan_at 1 0 300];
     next_timer_ := {| timeout := 300; armed := true |};
     is_executing_ := false |}.

Lemma AddBatchPlan_sets_deadline_to_earliest_witness :
  let s' := AddBatchPlan (plan_at 2 0 100) one_pending in
  is_heap OrderBatchPlanProtoByExecTimeDesc (plans_ s')
  ∧ plans_ s' ≡ₚ plan_at 2 0 100 :: plans_ one_pending
  ∧ (∀ q, q ∈ plan_at 2 0 100 :: plans_ one_pending →
       timeout (next_timer_ s') ≤ exec_time_ns (proto q))
  ∧ (∃ top, plans_ s' !! 0%nat = Some top
            ∧ timeout (next_timer_ s') = exec_time_ns (proto top))
  ∧ armed (next_timer_ s')
    = (if bool_decide (timeout (next_timer_ s')
                       ≠ timeout (next_timer_ one_pending))
       then true else armed (next_timer_ one_pending))
  ∧ models_ s' = models_ one_pending
  ∧ is_executing_ s' = is_executing_ one_pending.
Proof.
  apply (AddBatchPlan_sets_deadline_to_earliest (plan_at 2 0 100) one_pending).
  intros i Hi. simpl in Hi. assert (i = 0%nat) as -> by lia. done.
Defined.

(** ** Plans added to an empty follower *)

(** The follower with no plan pending and the plans of [l] added to it in
    the order of the list. *)
Definition after_adding (l : list BatchPlanContext) (s : State) : State :=
  foldl (λ s p, AddBatchPlan p s) s l.

(** X5.  Whatever the order in which plans are added to a follower that has
    none pending, popping until the heap is empty takes them out in the
    order of their [exec_time_ns]: the popped sequence is a permutation of
    the plans added, and each plan's deadline is at most the deadline of
    every plan popped after it. *)
Theorem plans_leave_in_deadline_order (l : list BatchPlanContext) (s : State) :
  plans_ s = [] →
  drain (length l) (after_adding l s) ≡ₚ l
  ∧ StronglySorted (λ a b, exec_time_ns (proto a) ≤ exec_time_ns (proto b))
                   (drain (length l) (after_adding l s)).
Proof.
  intros Hempty.
  exact (inserted_together_leave_in_deadline_order l s Hempty).
Qed.

Lemma plans_leave_in_deadline_order_witness :
  drain (length [plan_at 1 0 300; plan_at 2 0 100; plan_at 3 0 200])
        (after_adding [plan_at 1 0 300; plan_at 2 0 100; plan_at 3 0 200]
                      (follower (init 0 0)))
  ≡ₚ [plan_at 1 0 300; plan_at 2 0 100; plan_at 3 0 200]
  ∧ StronglySorted (λ a b, exec_time_ns (proto a) ≤ exec_time_ns (proto b))
      (drain (length [plan_at 1 0 300; plan_at 2 0 100; plan_at 3 0 200])
             (after_adding [plan_at 1 0 300; plan_at 2 0 100; plan_at 3 0 200]
                           (follower (init 0 0)))).
Proof.
  apply (plans_leave_in_deadline_order
           [plan_at 1 0 300; plan_at 2 0 100; plan_at 3 0 200]
           (follower (init 0 0))).
  reflexivity.
Defined.

Example three_plans_drained :
  drain 3 (after_adding [plan_at 1 0 300; plan_at 2 0 100; plan_at 3 0 200]
                        (follower (init 0 0)))
  = [plan_at 2 0 100; plan_at 3 0 200; plan_at 1 0 300].
Proof. vm_compute. reflexivity. Qed.

(** ** Nothing is lost, nothing runs twice *)

(** X6.  In every world the follower can reach without a failed CHECK, the
    plans accepted through [AddBatchPlan] are, counted with multiplicity,
    exactly the plans handed to [ExecuteBatchPlan], the plans discarded for
    want of a model, the plans pending in [plans_], and the one plan the
    follower thread may hold between the pop and the call.  So no plan is
    dropped silently, none is executed twice, and none is executed that
    was not accepted. *)
Theorem accepted_plans_are_accounted_for (w : World) :
  reachable w → is_aborted (pc w) = false →
  accepted (log w)
  ≡ₚ executed (log w) ++ discarded (log w) ++ plans_ (follower w)
     ++ in_hand (pc w).
Proof. intros HI%reachable_Inv Hna. by apply (inv_conserve _ HI). Qed.

Lemma accepted_plans_are_accounted_for_witness :
  accepted (log (world_after unknown_model_popped))
  ≡ₚ executed (log (world_after unknown_model_popped))
     ++ discarded (log (world_after unknown_model_popped))
     ++ plans_ (follower (world_after unknown_model_popped))
     ++ in_hand (pc (world_after unknown_model_popped)).
Proof.
  apply (accepted_plans_are_accounted_for (world_after unknown_model_popped)).
  - exact (reachable_world_after unknown_model_popped _
             unknown_model_popped_run).
  - reflexivity.
Defined.

(** ** Which CHECK can end the process *)

Definition model_table_checks : list string :=
  ["Check failed: !models_[model_index.t]";
   "Check failed: models_[model_index.t] != nullptr";
   "Check failed: models_.size() > model_index"].

Definition aborted_by_table_check (w : World) : Prop :=
  ∀ msg, pc w = Aborted msg → msg ∈ model_table_checks.

Lemma AddModel_Fatal model s msg :
  AddModel model s = Fatal msg → msg ∈ model_table_checks.
Proof.
  unfold AddModel, model_table_checks.
  destruct (_ !! _) as [[|]|]; intros [= <-]; set_solver.
Qed.

Lemma RemoveModel_Fatal model s msg :
  RemoveModel model s = Fatal msg → msg ∈ model_table_checks.
Proof.
  unfold RemoveModel, model_table_checks. case_bool_decide.
  - destruct (_ !! _) as [[|]|]; intros [= <-]; set_solver.
  - intros [= <-]. set_solver.
Qed.

Lemma aborted_by_table_check_step a w w' :
  Inv w → aborted_by_table_check w → step a w = Some w' →
  aborted_by_table_check w'.
Proof.
  intros HI Hab. unfold step.
  destruct (is_aborted (pc w)) eqn:Hna; [done |].
  assert (Hkeep : ∀ s n l, aborted_by_table_check
            {| follower := s; now := n; pc := pc w; log := l |}).
  { intros s n l msg. simpl. intros E. rewrite E in Hna. done. }
  destruct a as [dt | model | model | plan | | |].
  - case_bool_decide; [| done]. intros [= <-]. apply Hkeep.
  - intros [= <-]. destruct (AddModel model (follower w)) as [s' | msg] eqn:E;
      simpl; [apply Hkeep |].
    intros msg' [= <-]. by eapply AddModel_Fatal.
  - intros [= <-].
    destruct (RemoveModel model (follower w)) as [s' | msg] eqn:E;
      simpl; [apply Hkeep |].
    intros msg' [= <-]. by eapply RemoveModel_Fatal.
  - intros [= <-]. apply Hkeep.
  - destruct (pc w) eqn:Hpc; try done.
    destruct (_ && _); [| done]. by intros [= <-].
  - destruct (pc w); try done. by intros [= <-].
  - pose proof (inv_pc _ HI) as Hp. unfold follower_step, pc_inv in *.
    destruct (pc w) as [| st | st p | st p m | st p m |] eqn:Hpc; try done.
    + destruct (OnTimer_pop (follower w)) as [[p s1] |]; by intros [= <-].
    + destruct (OnTimer_find p (follower w)); by intros [= <-].
    + destruct Hp as (Hex & _). unfold OnTimer_begin, test_and_set.
      rewrite Hex. by intros [= <-].
    + by intros [= <-].
Qed.

Lemma aborted_by_table_check_run acts w w' :
  Inv w → aborted_by_table_check w → run acts w = Some w' →
  aborted_by_table_check w'.
Proof.
  revert w. induction acts as [| a acts IH]; intros w HI Hab; simpl.
  - by intros [= <-].
  - destruct (step a w) as [w1 |] eqn:E; [| done].
    apply IH; [by eapply Inv_step | by eapply aborted_by_table_check_step].
Qed.

(** X7.  The CHECK that guards [ExecuteBatchPlan] never fails: the follower
    thread is the only one that sets [is_executing_], and it clears the
    flag before it returns to its event loop.  Whatever the other threads
    do through [AddModel], [RemoveModel] and [AddBatchPlan], the only
    CHECKs that can end the process are those of the model table, in
    [AddModel] (slot taken) and [RemoveModel] (index out of range, slot
    empty). *)
Theorem overlap_check_never_fails (w : World) (msg : string) :
  reachable w → pc w = Aborted msg →
  msg ∈ model_table_checks ∧ msg ≠ overlap_message.
Proof.
  intros (timeout0 & now0 & acts & Hrun) Hpc.
  assert (Hin : msg ∈ model_table_checks).
  { eapply (aborted_by_table_check_run acts (init timeout0 now0) w);
      [apply Inv_init | | done | done].
    intros msg'. done. }
  split; [done |]. intros ->. revert Hin.
  unfold model_table_checks, overlap_message.
  rewrite !elem_of_cons, elem_of_nil. intuition discriminate.
Qed.

Lemma overlap_check_never_fails_witness :
  "Check failed: models_.size() > model_index" ∈ model_table_checks
  ∧ "Check failed: models_.size() > model_index" ≠ overlap_message.
Proof.
  apply (overlap_check_never_fails (world_after [CallRemoveModel resnet])).
  - exists 0, 0, [CallRemoveModel resnet]. reflexivity.
  - reflexivity.
Defined.

(** ** When the timer fires *)





End FollowerSchedule.

(* ===================================================================== *)
(** * More about the dispatch ingress: the entrance table                 *)
(* ===================================================================== *)

Module DispatcherTable.
Import Dispatcher.

(** Collaborators whose entrances carry their own model index: an entrance
    is its index and whether it accepts queries.  Decoding and the id
    issuer are those of [toy_collaborators]. *)
Definition indexed_collaborators : Collaborators :=
  {| ParseFromArray := @ParseFromArray toy_collaborators;
     GlobalIdIssuer := Z;
     Next := λ n, (n, n + 1);
     RequestEntrance := nat * bool;
     default_entrance := (0%nat, false);
     entrance_model_index := fst;
     EnqueueQuery := λ (e : nat * bool) request,
       if e.2 then (CTRL_OK, moved_from_request)
       else (CTRL_FAILURE 1, request) |}.

Definition indexed_empty : @ModelWorker indexed_collaborators :=
  @Build_ModelWorker indexed_collaborators [] 7.

Section table.
Context `{Collaborators}.

(** ** [AddModelSession] *)

(** The entrance is found at its own index afterwards. *)
Lemma AddModelSession_lookup (entrance : RequestEntrance) (w : ModelWorker) :
  model_session_entrance_table_ (AddModelSession entrance w)
    !! entrance_model_index entrance
  = Some entrance.
Proof.
  unfold AddModelSession. simpl. apply list_lookup_insert_eq.
  case_bool_decide; [rewrite length_resize |]; lia.
Qed.

(** The slots the resize created below the index hold default-constructed
    entrances. *)
Lemma AddModelSession_hole (entrance : RequestEntrance) (w : ModelWorker)
    (j : nat) :
  (length (model_session_entrance_table_ w) ≤ j)%nat →
  (j < entrance_model_index entrance)%nat →
  model_session_entrance_table_ (AddModelSession entrance w) !! j
  = Some default_entrance.
Proof.
  intros Hge Hlt. unfold AddModelSession. simpl.
  rewrite bool_decide_eq_true_2 by lia.
  rewrite list_lookup_insert_ne by lia. by rewrite lookup_resize_new by lia.
Qed.

(** X9.  The task posted by [AddModelSession] stores the entrance at its
    own model index, whatever was there: unlike the follower's [AddModel]
    it has no check, and an entrance registered earlier for the same index
    is replaced.  A table that ended before the index is extended to reach
    just past it, and the slots in between hold default-constructed
    entrances.  Entries at other indices and the id issuer are untouched. *)
Theorem AddModelSession_registers
    (entrance : RequestEntrance) (w : ModelWorker) :
  let i := entrance_model_index entrance in
  let table := model_session_entrance_table_ w in
  let table' := model_session_entrance_table_ (AddModelSession entrance w) in
  table' !! i = Some entrance
  ∧ length table' = (length table `max` (i + 1))%nat
  ∧ (∀ j : nat, j ≠ i → (j < length table)%nat → table' !! j = table !! j)
  ∧ (∀ j : nat, (length table ≤ j)%nat → (j < i)%nat →
       table' !! j = Some default_entrance)
  ∧ global_id_issuer_ (AddModelSession entrance w) = global_id_issuer_ w.
Proof.
  intros i table table'. split_and!.
  - apply AddModelSession_lookup.
  - subst table'. unfold AddModelSession. simpl. fold i table.
    rewrite length_insert. case_bool_decide; [rewrite length_resize |]; lia.
  - intros j Hj Hlt. subst table'. unfold AddModelSession. simpl.
    fold i table. rewrite list_lookup_insert_ne by done.
    case_bool_decide; [| done]. by rewrite lookup_resize by lia.
  - intros j Hge Hlt. by apply AddModelSession_hole.
  - done.
Qed.

(** ** From registration to dispatch *)

(** What [OnRecv] answers after the enqueue on [entrance] returned. *)
Definition answer (conn : nat) (entrance : RequestEntrance)
    (stamped : DispatchRequest) : list (nat * ControlMessage) :=
  let '(status1, request2) := EnqueueQuery entrance stamped in
  if bool_decide (status1 ≠ CTRL_OK)
  then [(conn, kDispatchReply
           {| status := status1; reply_model_index := model_index request2;
              query_list :=
                [{| reply_query_id := query_id request2;
                    reply_clock := clock (query_without_input stamped) |}]
           |})]
  else [].

Lemma OnRecv_dispatch conn bytes request recv_now sched_now w entrance :
  ParseFromArray bytes = Some (kDispatch request) →
  model_session_entrance_table_ w !! model_index request = Some entrance →
  OnRecv conn bytes recv_now sched_now w
  = Returned
      ({| model_session_entrance_table_ := model_session_entrance_table_ w;
          global_id_issuer_ := (Next (global_id_issuer_ w)).2 |},
       answer conn entrance
         (stamp request recv_now sched_now (Next (global_id_issuer_ w)).1)).
Proof.
  intros Hparse Hlook. unfold OnRecv, HandleDispatch, answer.
  unfold mbind, outcome_bind. rewrite Hparse.
  destruct (Next (global_id_issuer_ w)) as [gid issuer1]. simpl.
  rewrite Hlook.
  destruct (EnqueueQuery entrance (stamp request recv_now sched_now gid))
    as [status1 left]. simpl.
  destruct (decide (status1 = CTRL_OK)) as [-> | Hst].
  - by rewrite !bool_decide_eq_false_2 by (intros Hne; by apply Hne).
  - by rewrite !bool_decide_eq_true_2 by done.
Qed.



(** ** How [OnRecv] ends *)

(** X12.  The three ways [OnRecv] ends.  It returns normally only for bytes
    that do not parse (an error is logged, nothing else happens) and for a
    [Dispatch] whose model index is inside the table; it never changes the
    table, takes exactly one id for a dispatch and none otherwise, and
    whatever it sends is one [DispatchReply] with a failure status on the
    connection the message came on.  A message that parses but is not a
    [Dispatch] ends the process ([LOG(FATAL)]); a [Dispatch] with an index
    outside the table leaves through [std::out_of_range]. *)
Theorem OnRecv_endings
    (conn : nat) (bytes : list Z) (recv_now sched_now : Z) (w : ModelWorker) :
  match OnRecv conn bytes recv_now sched_now w with
  | Returned (w', msgs) =>
      model_session_entrance_table_ w' = model_session_entrance_table_ w
      ∧ ((ParseFromArray bytes = None ∧ w' = w ∧ msgs = [])
         ∨ (∃ request entrance,
              ParseFromArray bytes = Some (kDispatch request)
              ∧ model_session_entrance_table_ w !! model_index request
                = Some entrance
              ∧ global_id_issuer_ w' = (Next (global_id_issuer_ w)).2
              ∧ (msgs = []
                 ∨ ∃ reply, msgs = [(conn, kDispatchReply reply)]
                            ∧ status reply ≠ CTRL_OK)))
  | LogFatal _ =>
      ∃ m, ParseFromArray bytes = Some m ∧ ∀ request, m ≠ kDispatch request
  | Thrown _ =>
      ∃ request,
        ParseFromArray bytes = Some (kDispatch request)
        ∧ (length (model_session_entrance_table_ w) ≤ model_index request)%nat
  end.
Proof.
  destruct (ParseFromArray bytes) as [m |] eqn:Hparse.
  2:{ unfold OnRecv. rewrite Hparse. split; [done |]. by left. }
  destruct m as [request | reply | n |].
  2-4: unfold OnRecv; rewrite Hparse; eexists; split; [done |]; done.
  destruct (model_session_entrance_table_ w !! model_index request)
    as [entrance |] eqn:Hlook.
  - rewrite (OnRecv_dispatch conn bytes request recv_now sched_now w entrance
               Hparse Hlook).
    split; [done |]. right. exists request, entrance.
    split_and!; try done. unfold answer.
    destruct (EnqueueQuery _ _) as [status1 left].
    case_bool_decide; [| by left]. right. by eexists.
  - unfold OnRecv, HandleDispatch, mbind, outcome_bind. rewrite Hparse.
    destruct (Next (global_id_issuer_ w)) as [gid issuer1]. simpl.
    rewrite Hlook. exists request. split; [done |].
    by apply lookup_ge_None.
Qed.

End table.



Example hole_is_enqueued_on_default :
  sent (@OnRecv indexed_collaborators 3 [0; 1; 42] 1000 1005
          (@AddModelSession indexed_collaborators (2%nat, true)
                            indexed_empty))
  = [(3%nat, kDispatchReply
        {| status := CTRL_FAILURE 1; reply_model_index := 1;
           query_list :=
             [{| reply_query_id := 42;
                 reply_clock := {| dispatcher_recv_ns := 1000;
                                   dispatcher_sched_ns := 1005 |} |}] |})].
Proof. reflexivity. Qed.

End DispatcherTable.

(* ===================================================================== *)
(** * More about the connection: the handshake end to end                 *)
(* ===================================================================== *)

Module ArioHandshake.
Import Ario ArioScenarios ArioFacts.
Local Open Scope N_scope.

(** ** Reading the trace *)

(** The messages written to the TCP socket, in order. *)
Definition written (c : Connection) : list RdmaConnectorMessage :=
  omap (λ e, match e with TcpAsyncWrite m => Some m | _ => None end) (trace c).

(** The callbacks made on the [EventHandler], in order. *)
Definition handler_calls (c : Connection) : list Event :=
  omap (λ e, if is_handler_call e then Some e else None) (trace c).

(** The attributes handed to [ibv_modify_qp], in order. *)
Definition modified (c : Connection) : list ibv_qp_attr :=
  omap (λ e, match e with ModifyQp a _ => Some a | _ => None end) (trace c).

(** The [ConnInfo] message a connection built from [cfg] sends. *)
Definition hello (cfg : Config) : RdmaConnectorMessage :=
  {| type := kConnInfo;
     msg_conn := {| lid := cfg_lid cfg;
                    gid := if bool_decide (cfg_lid cfg = 0) then cfg_gid cfg
                           else 0;
                    qp_num := cfg_qp_num cfg |};
     msg_mr := zero_mr |}.

Definition region_message (r : MemoryRegion) : RdmaConnectorMessage :=
  {| type := kMemoryRegion; msg_conn := zero_conn; msg_mr := r |}.

(** What posting work requests leaves alone. *)
Record frame (c c' : Connection) : Prop := {
  fr_dev_port : dev_port_ c' = dev_port_ c;
  fr_lid : local_lid c' = local_lid c;
  fr_gid : local_gid c' = local_gid c;
  fr_region : memory_region_ c' = memory_region_ c;
  fr_poller_type : poller_type_ c' = poller_type_ c;
  fr_connected : is_connected_ c' = is_connected_ c;
  fr_lkey : local_mr_lkey c' = local_mr_lkey c;
  fr_remote : remote_mr_ c' = remote_mr_ c;
  fr_pending : tcp_pending_read c' = tcp_pending_read c;
  fr_poller : poller_running c' = poller_running c;
  fr_state : qp_state (qp_ c') = qp_state (qp_ c);
  fr_qp_num : local_qp_num (qp_ c') = local_qp_num (qp_ c);
  fr_send : send_queue (qp_ c') = send_queue (qp_ c);
  fr_written : written c' = written c;
  fr_calls : handler_calls c' = handler_calls c;
  fr_modified : modified c' = modified c;
}.

Lemma frame_refl c : frame c c.
Proof. by split. Qed.

Lemma frame_trans c1 c2 c3 : frame c1 c2 → frame c2 c3 → frame c1 c3.
Proof. intros [] []. split; congruence. Qed.

(** ** Posting the backlog *)

(** With a free block in the pool and room in the receive queue,
    [PostReceive] returns; the pool loses at most that block. *)
Lemma PostReceive_total c :
  free_blocks (local_buf_ c) ≠ [] →
  (List.length (recv_queue (qp_ c)) < kMaxRecvQueueSize)%nat →
  ∃ c', PostReceive c = Done c'
        ∧ frame c c'
        ∧ List.length (recv_queue (qp_ c'))
          = S (List.length (recv_queue (qp_ c)))
        ∧ (List.length (free_blocks (local_buf_ c))
           ≤ S (List.length (free_blocks (local_buf_ c'))))%nat.
Proof.
  intros Hfree Hroom. unfold PostReceive, fetch_add_wr_id, with_block, Allocate.
  simpl. destruct (free_blocks (local_buf_ c)) as [| i rest] eqn:E; [done |].
  unfold die_if, ibv_post_recv, emplace_ctx. simpl.
  destruct (wr_ctx_ c !! next_wr_id_ c); simpl;
    rewrite (bool_decide_eq_true_2 (_ < _)%nat) by done; simpl;
    (eexists; split; [reflexivity |]); simpl;
    (split_and!; [split; simpl; try done | | ]);
    unfold written, handler_calls, modified; simpl;
    rewrite ?omap_app, ?length_app; simpl; rewrite ?app_nil_r;
    try done; try lia.
Qed.

Lemma repeat_PostReceive_total n c :
  (n ≤ List.length (free_blocks (local_buf_ c)))%nat →
  (List.length (recv_queue (qp_ c)) + n ≤ kMaxRecvQueueSize)%nat →
  ∃ c', repeat_call n PostReceive c = Done c'
        ∧ frame c c'
        ∧ List.length (recv_queue (qp_ c'))
          = (List.length (recv_queue (qp_ c)) + n)%nat.
Proof.
  revert c. induction n as [| n IH]; intros c Hfree Hroom; simpl.
  - exists c. split_and!; [done | apply frame_refl | lia].
  - destruct (PostReceive_total c) as (c1 & Hpost & Hfr & Hlen & Hpool).
    { destruct (free_blocks (local_buf_ c)); [simpl in Hfree; lia | done]. }
    { lia. }
    destruct (IH c1) as (c' & Hrest & Hfr' & Hlen'); [lia | lia |].
    exists c'. unfold and_then. rewrite Hpost.
    split_and!; [done | by eapply frame_trans | lia].
Qed.

Section handshake.
Variable k : nat.

(** [MarkConnected] on a queue pair in RTS, with [k] free blocks and room
    for [k] more receives. *)
Lemma MarkConnected_total c :
  qp_state (qp_ c) = IBV_QPS_RTS →
  (k ≤ List.length (free_blocks (local_buf_ c)))%nat →
  (List.length (recv_queue (qp_ c)) + k ≤ kMaxRecvQueueSize)%nat →
  ∃ c', MarkConnected k c = Done c'
        ∧ is_connected_ c' = true
        ∧ poller_running c' = true
        ∧ List.length (recv_queue (qp_ c'))
          = (List.length (recv_queue (qp_ c)) + k)%nat
        ∧ qp_state (qp_ c') = IBV_QPS_RTS
        ∧ remote_mr_ c' = remote_mr_ c
        ∧ memory_region_ c' = memory_region_ c
        ∧ tcp_pending_read c' = tcp_pending_read c
        ∧ written c' = written c
        ∧ handler_calls c' = handler_calls c
        ∧ modified c' = modified c.
Proof.
  intros Hrts Hfree Hroom. unfold MarkConnected.
  rewrite bool_decide_eq_false_2 by (intros Hne; by apply Hne).
  set (c2 := set_poller_running true _).
  assert (Hc2 : frame c (set_poller_running (poller_running c) c2)
                ∧ qp_ c2 = qp_ c
                ∧ local_buf_ c2 = local_buf_ c).
  { subst c2. destruct (poller_type_ c) eqn:Hpt; (split_and!; [split |..]);
      simpl; try done; unfold written, handler_calls, modified; simpl;
      rewrite ?omap_app; simpl; by rewrite ?app_nil_r. }
  destruct Hc2 as (Hfr2 & Hqp2 & Hbuf2).
  assert (Hpo2 : poller_running c2 = true) by done.
  clearbody c2.
  destruct (repeat_PostReceive_total k c2) as (c3 & Hfill & Hfr3 & Hlen3).
  { by rewrite Hbuf2. }
  { by rewrite Hqp2. }
  exists (set_is_connected true c3). unfold and_then. rewrite Hfill.
  destruct Hfr2, Hfr3. unfold written, handler_calls, modified in *.
  simpl in *. rewrite Hqp2 in *.
  split_and!; try done; congruence.
Qed.

(** From Init the two transitions go through and change nothing but the
    state of the queue pair. *)
Lemma RTR_RTS_total peer c :
  qp_state (qp_ c) = IBV_QPS_INIT →
  ∃ c', (TransitQueuePairToRTR peer >>> TransitQueuePairToRTS) c = Done c'
        ∧ qp_state (qp_ c') = IBV_QPS_RTS
        ∧ recv_queue (qp_ c') = recv_queue (qp_ c)
        ∧ local_buf_ c' = local_buf_ c
        ∧ memory_region_ c' = memory_region_ c
        ∧ is_connected_ c' = is_connected_ c
        ∧ tcp_pending_read c' = tcp_pending_read c
        ∧ remote_mr_ c' = remote_mr_ c
        ∧ written c' = written c
        ∧ handler_calls c' = handler_calls c
        ∧ modified c'
          = modified c ++ [rtr_attr (dev_port_ c) peer; rts_attr].
Proof.
  intros Hinit. eexists. unfold and_then, TransitQueuePairToRTR,
    TransitQueuePairToRTS, die_if, ibv_modify_qp. simpl.
  rewrite Hinit. simpl. split; [reflexivity |]. simpl.
  split_and!; try done;
    unfold written, handler_calls, modified; simpl;
    rewrite ?omap_app; simpl; by rewrite ?app_nil_r, <- ?(assoc_L (++)).
Qed.

(** The server's half: the peer's [ConnInfo] arrives. *)
Lemma RecvConnInfo_cb_server msg c region :
  type msg = kConnInfo →
  qp_state (qp_ c) = IBV_QPS_INIT →
  memory_region_ c = Some region →
  (k ≤ List.length (free_blocks (local_buf_ c)))%nat →
  (List.length (recv_queue (qp_ c)) + k ≤ kMaxRecvQueueSize)%nat →
  ∃ c', RecvConnInfo_cb k 0 msg c = Done c'
        ∧ is_connected_ c' = true
        ∧ poller_running c' = true
        ∧ qp_state (qp_ c') = IBV_QPS_RTS
        ∧ List.length (recv_queue (qp_ c'))
          = (List.length (recv_queue (qp_ c)) + k)%nat
        ∧ tcp_pending_read c' = tcp_pending_read c
        ∧ remote_mr_ c' = remote_mr_ c
        ∧ written c' = written c ++ [region_message region]
        ∧ handler_calls c' = handler_calls c ++ [OnConnected]
        ∧ modified c'
          = modified c ++ [rtr_attr (dev_port_ c) (msg_conn msg); rts_attr].
Proof.
  intros Hty Hinit Hreg Hfree Hroom. unfold RecvConnInfo_cb.
  rewrite !bool_decide_eq_false_2 by (intros Hne; by apply Hne).
  destruct (RTR_RTS_total (msg_conn msg) c Hinit)
    as (c1 & Htr & Hrts & Hrq & Hbuf & Hreg1 & Hco1 & Hpe1 & Hrm1 & Hwr1
        & Hca1 & Hmod).
  unfold and_then at 1. rewrite Htr. rewrite Hreg1, Hreg.
  destruct (MarkConnected_total c1) as (c2 & Hmark & Hco & Hpo & Hlen & Hst
    & Hrm & Hmr & Hpe & Hwr & Hca & Hmo);
    [done | by rewrite Hbuf | by rewrite Hrq |].
  unfold and_then, call_OnConnected, SendMemoryRegion. rewrite Hmark. simpl.
  rewrite Hmr, Hreg1, Hreg. eexists. split; [reflexivity |].
  unfold written, handler_calls, modified in *. simpl.
  rewrite !omap_app. simpl. rewrite ?app_nil_r.
  split_and!; try done; try congruence.
  by rewrite Hwr, Hwr1.
Qed.

(** The client's first half: the peer's [ConnInfo] arrives and the read of
    the peer's memory region is started. *)
Lemma RecvConnInfo_cb_client msg c :
  type msg = kConnInfo →
  qp_state (qp_ c) = IBV_QPS_INIT →
  memory_region_ c = None →
  ∃ c', RecvConnInfo_cb k 0 msg c = Done c'
        ∧ is_connected_ c' = is_connected_ c
        ∧ qp_state (qp_ c') = IBV_QPS_RTS
        ∧ recv_queue (qp_ c') = recv_queue (qp_ c)
        ∧ local_buf_ c' = local_buf_ c
        ∧ tcp_pending_read c' = Some ReadMemoryRegion
        ∧ memory_region_ c' = None
        ∧ remote_mr_ c' = remote_mr_ c
        ∧ written c' = written c
        ∧ handler_calls c' = handler_calls c
        ∧ modified c'
          = modified c ++ [rtr_attr (dev_port_ c) (msg_conn msg); rts_attr].
Proof.
  intros Hty Hinit Hreg. unfold RecvConnInfo_cb.
  rewrite !bool_decide_eq_false_2 by (intros Hne; by apply Hne).
  destruct (RTR_RTS_total (msg_conn msg) c Hinit)
    as (c1 & Htr & Hrts & Hrq & Hbuf & Hreg1 & Hco1 & Hpe1 & Hrm1 & Hwr1
        & Hca1 & Hmod).
  unfold and_then at 1. rewrite Htr. rewrite Hreg1, Hreg.
  unfold RecvMemoryRegion.
  eexists. split; [reflexivity |].
  unfold written, handler_calls, modified in *. simpl.
  rewrite !omap_app. simpl. rewrite ?app_nil_r.
  split_and!; try done; congruence.
Qed.

(** The client's second half: the peer's memory region arrives. *)
Lemma RecvMemoryRegion_cb_client msg c :
  type msg = kMemoryRegion →
  qp_state (qp_ c) = IBV_QPS_RTS →
  (k ≤ List.length (free_blocks (local_buf_ c)))%nat →
  (List.length (recv_queue (qp_ c)) + k ≤ kMaxRecvQueueSize)%nat →
  ∃ c', RecvMemoryRegion_cb k 0 msg c = Done c'
        ∧ is_connected_ c' = true
        ∧ poller_running c' = true
        ∧ qp_state (qp_ c') = IBV_QPS_RTS
        ∧ List.length (recv_queue (qp_ c'))
          = (List.length (recv_queue (qp_ c)) + k)%nat
        ∧ tcp_pending_read c' = tcp_pending_read c
        ∧ remote_mr_ c' = msg_mr msg
        ∧ written c' = written c
        ∧ handler_calls c' = handler_calls c ++ [OnConnected]
        ∧ modified c' = modified c.
Proof.
  intros Hty Hrts Hfree Hroom. unfold RecvMemoryRegion_cb.
  rewrite !bool_decide_eq_false_2 by (intros Hne; by apply Hne).
  destruct (MarkConnected_total (set_remote_mr (msg_mr msg) c))
    as (c2 & Hmark & Hco & Hpo & Hlen & Hst & Hrm & Hmr & Hpe & Hwr & Hca
        & Hmo); [done .. |].
  unfold and_then, call_OnConnected. rewrite Hmark.
  eexists. split; [reflexivity |].
  unfold written, handler_calls, modified in *. simpl in *.
  rewrite !omap_app. simpl. rewrite ?app_nil_r.
  split_and!; try done; congruence.
Qed.

End handshake.

Lemma new_pool_blocks base :
  List.length (free_blocks (new_pool base)) = 1024%nat.
Proof.
  unfold new_pool. cbn [free_blocks]. rewrite length_fmap, length_seq.
  reflexivity.
Qed.

(** The connection as its constructor leaves it. *)
Lemma Connection_ctor_total cfg :
  ∃ c0, Connection_ctor cfg = Done c0
        ∧ qp_state (qp_ c0) = IBV_QPS_INIT
        ∧ recv_queue (qp_ c0) = []
        ∧ local_buf_ c0 = new_pool (cfg_pool_base cfg)
        ∧ is_connected_ c0 = false
        ∧ tcp_pending_read c0 = Some ReadConnInfo
        ∧ memory_region_ c0 = cfg_memory_region cfg
        ∧ remote_mr_ c0 = zero_mr
        ∧ dev_port_ c0 = cfg_dev_port cfg
        ∧ written c0 = [hello cfg]
        ∧ handler_calls c0 = []
        ∧ modified c0 = [init_attr (cfg_dev_port cfg)].
Proof. eexists. split; [reflexivity |]. by split_and!. Qed.

(** X13.  The handshake, end to end.  A server (it exposes a memory region)
    and a client (it exposes none) are constructed, and each is fed, in
    order, exactly the messages the other wrote to the socket; the receive
    backlog is at most 1024, the number of blocks in the pool and of
    receives the queue pair takes.  Then both sides end up marked
    connected with their queue pair in RTS, [kRecvBacklog] receives posted
    and their completion poller started; each made exactly one handler
    callback, [OnConnected]; the client's [remote_mr_] is the region the
    server exposes; the server wrote its [ConnInfo] followed by its
    memory region, the client only its [ConnInfo]; each side moved its
    queue pair through Init, RTR (addressed at the peer's [qp_num]) and
    RTS; and no handshake read is left pending. *)
Theorem handshake_connects_both_sides
    (k : nat) (server client : Config) (region : MemoryRegion) :
  (k ≤ 1024)%nat →
  cfg_memory_region server = Some region →
  cfg_memory_region client = None →
  ∃ s0 c0 s1 c1 c2,
    Connection_ctor server = Done s0 ∧ Connection_ctor client = Done c0
    ∧ written s0 = [hello server] ∧ written c0 = [hello client]
    ∧ step k (TcpReadCompletes 0 (hello client)) s0 = Some (Done s1)
    ∧ written s1 = [hello server; region_message region]
    ∧ step k (TcpReadCompletes 0 (hello server)) c0 = Some (Done c1)
    ∧ is_connected_ c1 = false
    ∧ step k (TcpReadCompletes 0 (region_message region)) c1
      = Some (Done c2)
    ∧ written c2 = [hello client]
    ∧ is_connected_ s1 = true ∧ is_connected_ c2 = true
    ∧ remote_mr_ c2 = region
    ∧ qp_state (qp_ s1) = IBV_QPS_RTS ∧ qp_state (qp_ c2) = IBV_QPS_RTS
    ∧ outstanding_receives s1 = k ∧ outstanding_receives c2 = k
    ∧ poller_running s1 = true ∧ poller_running c2 = true
    ∧ handler_calls s1 = [OnConnected] ∧ handler_calls c2 = [OnConnected]
    ∧ tcp_pending_read s1 = None ∧ tcp_pending_read c2 = None
    ∧ modified s1
      = [init_attr (cfg_dev_port server);
         rtr_attr (cfg_dev_port server) (msg_conn (hello client)); rts_attr]
    ∧ modified c2
      = [init_attr (cfg_dev_port client);
         rtr_attr (cfg_dev_port client) (msg_conn (hello server)); rts_attr]
    ∧ dest_qp_num (rtr_attr (cfg_dev_port server) (msg_conn (hello client)))
      = cfg_qp_num client
    ∧ dest_qp_num (rtr_attr (cfg_dev_port client) (msg_conn (hello server)))
      = cfg_qp_num server.
Proof.
  intros Hk Hserver Hclient.
  destruct (Connection_ctor_total server)
    as (s0 & Hs0 & Hsi & Hsq & Hsb & Hsc & Hsp & Hsm & Hsr & Hsd & Hsw & Hsh
        & Hsmod).
  destruct (Connection_ctor_total client)
    as (c0 & Hc0 & Hci & Hcq & Hcb & Hcc & Hcp & Hcm & Hcr & Hcd & Hcw & Hch
        & Hcmod).
  (* the server takes the client's ConnInfo *)
  destruct (RecvConnInfo_cb_server k (hello client) (set_pending_read None s0)
              region)
    as (s1 & Hs1 & Hs1c & Hs1po & Hs1s & Hs1l & Hs1p & Hs1r & Hs1w & Hs1h
        & Hs1m); simpl;
    [done | done | by rewrite Hsm | by rewrite Hsb, new_pool_blocks
    | rewrite Hsq; simpl; unfold kMaxRecvQueueSize; lia |].
  (* the client takes the server's ConnInfo, then its memory region *)
  destruct (RecvConnInfo_cb_client k (hello server) (set_pending_read None c0))
    as (c1 & Hc1 & Hc1c & Hc1s & Hc1q & Hc1b & Hc1p & Hc1m & Hc1r & Hc1w
        & Hc1h & Hc1mod); simpl;
    [done | done | by rewrite Hcm |].
  simpl in Hs1l, Hs1p, Hs1r, Hs1w, Hs1h, Hs1m.
  simpl in Hc1c, Hc1q, Hc1b, Hc1r, Hc1w, Hc1h, Hc1mod.
  destruct (RecvMemoryRegion_cb_client k (region_message region)
              (set_pending_read None c1))
    as (c2 & Hc2 & Hc2c & Hc2po & Hc2s & Hc2l & Hc2p & Hc2r & Hc2w & Hc2h
        & Hc2m); simpl;
    [done | done | by rewrite Hc1b, Hcb, new_pool_blocks
    | rewrite Hc1q, Hcq; simpl; unfold kMaxRecvQueueSize; lia |].
  simpl in Hc2l, Hc2p, Hc2r, Hc2w, Hc2h, Hc2m.
  exists s0, c0, s1, c1, c2. unfold step, outstanding_receives.
  rewrite Hsp, Hcp, Hc1p, Hs1, Hc1, Hc2.
  unfold written, handler_calls, modified in *. simpl in *.
  split_and!; try done; try congruence.
  - by rewrite Hs1w, Hsw.
  - by rewrite Hs1l, Hsq.
  - by rewrite Hc2l, Hc1q, Hcq.
  - by rewrite Hs1h, Hsh.
  - by rewrite Hc2h, Hc1h, Hch.
  - by rewrite Hs1m, Hsmod, Hsd.
  - by rewrite Hc2m, Hc1mod, Hcmod, Hcd.
Qed.

Lemma handshake_connects_both_sides_witness :
  ∃ s0 c0 s1 c1 c2,
    Connection_ctor server_cfg = Done s0
    ∧ Connection_ctor client_cfg = Done c0
    ∧ written s0 = [hello server_cfg] ∧ written c0 = [hello client_cfg]
    ∧ step backlog (TcpReadCompletes 0 (hello client_cfg)) s0
      = Some (Done s1)
    ∧ written s1
      = [hello server_cfg;
         region_message {| addr := 2147483648; size := 1048576;
                           rkey := 9029 |}]
    ∧ step backlog (TcpReadCompletes 0 (hello server_cfg)) c0
      = Some (Done c1)
    ∧ is_connected_ c1 = false
    ∧ step backlog
        (TcpReadCompletes 0
           (region_message {| addr := 2147483648; size := 1048576;
                              rkey := 9029 |})) c1
      = Some (Done c2)
    ∧ written c2 = [hello client_cfg]
    ∧ is_connected_ s1 = true ∧ is_connected_ c2 = true
    ∧ remote_mr_ c2
      = {| addr := 2147483648; size := 1048576; rkey := 9029 |}
    ∧ qp_state (qp_ s1) = IBV_QPS_RTS ∧ qp_state (qp_ c2) = IBV_QPS_RTS
    ∧ outstanding_receives s1 = backlog
    ∧ outstanding_receives c2 = backlog
    ∧ poller_running s1 = true ∧ poller_running c2 = true
    ∧ handler_calls s1 = [OnConnected] ∧ handler_calls c2 = [OnConnected]
    ∧ tcp_pending_read s1 = None ∧ tcp_pending_read c2 = None
    ∧ modified s1
      = [init_attr (cfg_dev_port server_cfg);
         rtr_attr (cfg_dev_port server_cfg) (msg_conn (hello client_cfg));
         rts_attr]
    ∧ modified c2
      = [init_attr (cfg_dev_port client_cfg);
         rtr_attr (cfg_dev_port client_cfg) (msg_conn (hello server_cfg));
         rts_attr]
    ∧ dest_qp_num (rtr_attr (cfg_dev_port server_cfg)
                            (msg_conn (hello client_cfg)))
      = cfg_qp_num client_cfg
    ∧ dest_qp_num (rtr_attr (cfg_dev_port client_cfg)
                            (msg_conn (hello server_cfg)))
      = cfg_qp_num server_cfg.
Proof.
  apply (handshake_connects_both_sides backlog server_cfg client_cfg
           {| addr := 2147483648; size := 1048576; rkey := 9029 |}).
  - unfold backlog. lia.
  - reflexivity.
  - reflexivity.
Defined.

End ArioHandshake.

(* ===================================================================== *)
(** * More about the connection: work request ids and the context table   *)
(* ===================================================================== *)

Module ArioInvariants.
Import Ario ArioScenarios ArioFacts ArioHandshake.
Local Open Scope N_scope.

(** The work request ids entered in the context table, in order. *)
Definition posted (c : Connection) : list N :=
  omap (λ e, match e with CtxEmplace id => Some id | _ => None end) (trace c).

(** The calls of [OnConnected]. *)
Definition connected_calls (c : Connection) : list Event :=
  omap (λ e, match e with OnConnected => Some e | _ => None end) (trace c).

(** ** What one post does *)

(** A post took the next id, entered it in the table (unless the key was
    taken) and touched nothing of the link. *)
Record posts_one (c c' : Connection) (b : Block) : Prop := {
  po_posted : posted c' = posted c ++ [next_wr_id_ c];
  po_next : next_wr_id_ c' = (next_wr_id_ c + 1) `mod` 2 ^ 64;
  po_ctx :
    wr_ctx_ c'
    = match wr_ctx_ c !! next_wr_id_ c with
      | None => <[next_wr_id_ c := {| buf := Some b |}]> (wr_ctx_ c)
      | Some _ => wr_ctx_ c
      end;
  po_connected : is_connected_ c' = is_connected_ c;
  po_state : qp_state (qp_ c') = qp_state (qp_ c);
  po_poller : poller_running c' = poller_running c;
  po_pending : tcp_pending_read c' = tcp_pending_read c;
  po_calls : handler_calls c' = handler_calls c;
  po_connected_calls : connected_calls c' = connected_calls c;
}.

Local Ltac solve_posts_one :=
  unfold emplace_ctx; simpl;
  let E := fresh "E" in
  match goal with
  | |- context [wr_ctx_ ?c !! ?id] => destruct (wr_ctx_ c !! id) eqn:E
  end;
  (split_and!; [split |..]); simpl; rewrite ?E; try done;
  unfold posted, handler_calls, connected_calls; simpl;
  rewrite ?omap_app; simpl; by rewrite ?app_nil_r.

Lemma PostReceive_posts_one c c' :
  PostReceive c = Done c' →
  ∃ b wr,
    posts_one c c' b
    ∧ recv_queue (qp_ c') = recv_queue (qp_ c) ++ [wr]
    ∧ send_queue (qp_ c') = send_queue (qp_ c)
    ∧ recv_wr_id wr = next_wr_id_ c.
Proof.
  unfold PostReceive, fetch_add_wr_id, with_block. simpl.
  destruct (Allocate (local_buf_ c)) as [[b pool] |]; [| done].
  unfold die_if, ibv_post_recv. simpl.
  destruct (bool_decide (_ < _)%nat) eqn:Hroom; simpl; [| done].
  intros [= <-]. exists b.
  exists {| recv_wr_id := next_wr_id_ c;
            recv_sg_list := [{| sge_addr := block_data pool b;
                                sge_length := block_size;
                                sge_lkey := local_mr_lkey c |}] |}.
  solve_posts_one.
Qed.

Lemma AsyncSend_posts_one b c c' :
  AsyncSend b c = Done c' →
  ∃ wr,
    posts_one c c' b
    ∧ is_connected_ c = true
    ∧ send_queue (qp_ c') = send_queue (qp_ c) ++ [wr]
    ∧ recv_queue (qp_ c') = recv_queue (qp_ c)
    ∧ send_wr_id wr = next_wr_id_ c
    ∧ opcode wr = IBV_WR_SEND
    ∧ send_sg_list wr
      = [{| sge_addr := block_data (local_buf_ c) b;
            sge_length := total_length b;
            sge_lkey := local_mr_lkey c |}].
Proof.
  unfold AsyncSend. destruct (is_connected_ c) eqn:Hc; simpl; [| done].
  unfold die_if, ibv_post_send, fetch_add_wr_id. simpl.
  destruct (bool_decide (_ < _)%nat) eqn:Hroom; simpl; [| done].
  intros [= <-].
  exists {| send_wr_id := next_wr_id_ c; opcode := IBV_WR_SEND;
            send_signaled := true;
            send_sg_list := [{| sge_addr := block_data (local_buf_ c) b;
                                sge_length := total_length b;
                                sge_lkey := local_mr_lkey c |}];
            remote_addr := 0; wr_rkey := 0 |}.
  solve_posts_one.
Qed.

Lemma AsyncRead_posts_one offset len c c' :
  AsyncRead offset len c = Done c' →
  ∃ b wr,
    posts_one c c' {| block_index := block_index b;
                      bytes_length := len `mod` 2 ^ 32 |}
    ∧ send_queue (qp_ c') = send_queue (qp_ c) ++ [wr]
    ∧ recv_queue (qp_ c') = recv_queue (qp_ c)
    ∧ send_wr_id wr = next_wr_id_ c
    ∧ opcode wr = IBV_WR_RDMA_READ.
Proof.
  unfold AsyncRead, fetch_add_wr_id, with_block. simpl.
  destruct (Allocate (local_buf_ c)) as [[b pool] |]; [| done].
  unfold die_if, ibv_post_send. simpl.
  destruct (bool_decide (_ < _)%nat) eqn:Hroom; simpl; [| done].
  intros [= <-]. exists b.
  exists (read_wr c pool b offset len).
  solve_posts_one.
Qed.

(** ** Ids are consecutive and the table keeps them all *)

Definition ids_inv (c : Connection) : Prop :=
  let n := List.length (posted c) in
  next_wr_id_ c = N.of_nat n `mod` 2 ^ 64
  ∧ (N.of_nat n ≤ 2 ^ 64 →
       posted c = N.of_nat <$> seq 0 n
       ∧ base.size (wr_ctx_ c) = n
       ∧ ∀ id, is_Some (wr_ctx_ c !! id) ↔ id < N.of_nat n).

(** Nothing of the ids changed. *)
Definition same_ids (c c' : Connection) : Prop :=
  posted c' = posted c ∧ next_wr_id_ c' = next_wr_id_ c
  ∧ wr_ctx_ c' = wr_ctx_ c.

Lemma ids_inv_same c c' : same_ids c c' → ids_inv c → ids_inv c'.
Proof. intros (Hp & Hn & Hc). unfold ids_inv. by rewrite Hp, Hn, Hc. Qed.

Lemma ids_inv_posts_one c c' b : posts_one c c' b → ids_inv c → ids_inv c'.
Proof.
  intros [Hp Hn Hc _ _ _ _ _ _] [Hnext Hsmall]. unfold ids_inv.
  rewrite Hp, Hn, Hc, length_app. simpl.
  set (n := List.length (posted c)) in *.
  replace (n + 1)%nat with (S n) by lia. split.
  - rewrite Hnext, Nat2N.inj_succ, <- N.add_1_r.
    by rewrite N.Div0.add_mod_idemp_l.
  - intros Hle. rewrite Nat2N.inj_succ in Hle.
    destruct Hsmall as (Hseq & Hsize & Hdom); [lia |].
    assert (Hid : next_wr_id_ c = N.of_nat n).
    { rewrite Hnext. apply N.mod_small. lia. }
    assert (Hfresh : wr_ctx_ c !! next_wr_id_ c = None).
    { destruct (wr_ctx_ c !! next_wr_id_ c) eqn:E; [| done].
      assert (is_Some (wr_ctx_ c !! next_wr_id_ c)) as Hs by (by rewrite E).
      apply Hdom in Hs. lia. }
    rewrite Hfresh. split_and!.
    + rewrite seq_S, fmap_app, <- Hseq. simpl. by rewrite Hid.
    + rewrite map_size_insert_None by done. by rewrite Hsize.
    + intros id. rewrite Nat2N.inj_succ.
      destruct (decide (next_wr_id_ c = id)) as [<- | Hne].
      * rewrite lookup_insert_eq. split; [lia | by eexists].
      * rewrite lookup_insert_ne by done. rewrite Hdom. lia.
Qed.

(** Emptying an entry in place. *)
Lemma ids_inv_moved c id entry :
  wr_ctx_ c !! id = Some entry →
  ids_inv c →
  ids_inv (set_wr_ctx (<[id := {| buf := None |}]> (wr_ctx_ c)) c).
Proof.
  intros E [Hnext Hsmall]. unfold ids_inv, posted. simpl.
  split; [done |]. intros Hle. destruct (Hsmall Hle) as (Hseq & Hsize & Hdom).
  split_and!; [done | |].
  - rewrite map_size_insert_Some; [done | by eexists].
  - intros id'. destruct (decide (id = id')) as [<- | Hne].
    + rewrite lookup_insert_eq. rewrite <- Hdom, E. split; by eexists.
    + by rewrite lookup_insert_ne.
Qed.

Definition keeps_ids (f : Connection → outcome) : Prop :=
  ∀ c c', f c = Done c' → ids_inv c → ids_inv c'.

Lemma keeps_ids_and_then f g : keeps_ids f → keeps_ids g → keeps_ids (f >>> g).
Proof.
  intros Hf Hg c c' (c1 & H1 & H2)%and_then_Done Hi. eauto.
Qed.

Lemma keeps_ids_repeat_call n f : keeps_ids f → keeps_ids (repeat_call n f).
Proof.
  intros Hf. induction n as [| n IH]; simpl.
  - by intros c c' [= <-].
  - by apply keeps_ids_and_then.
Qed.

Lemma keeps_ids_PostReceive : keeps_ids PostReceive.
Proof.
  intros c c' (b & wr & Hp & _)%PostReceive_posts_one.
  by apply ids_inv_posts_one with b.
Qed.

Lemma keeps_ids_AsyncSend b : keeps_ids (AsyncSend b).
Proof.
  intros c c' (wr & Hp & _)%AsyncSend_posts_one.
  by apply ids_inv_posts_one with b.
Qed.

Lemma keeps_ids_AsyncRead offset len : keeps_ids (AsyncRead offset len).
Proof.
  intros c c' (b & wr & Hp & _)%AsyncRead_posts_one.
  by eapply ids_inv_posts_one.
Qed.

Lemma keeps_ids_emit e :
  (∀ id, e ≠ CtxEmplace id) → keeps_ids (λ c, Done (emit e c)).
Proof.
  intros He c c' [= <-]. apply ids_inv_same. unfold same_ids, posted. simpl.
  split_and!; try done. rewrite omap_app. simpl.
  destruct e; try by rewrite app_nil_r. by destruct (He wr_id).
Qed.

Lemma keeps_ids_modify attr mask msg :
  keeps_ids (λ c, die_if (ibv_modify_qp attr mask c) msg).
Proof.
  intros c c'. unfold die_if, ibv_modify_qp.
  destruct (_ && _); simpl; [| done]. intros [= <-].
  apply ids_inv_same. unfold same_ids, posted. simpl.
  split_and!; try done. rewrite omap_app. simpl. by rewrite app_nil_r.
Qed.

Lemma keeps_ids_RTR peer : keeps_ids (TransitQueuePairToRTR peer).
Proof.
  intros c c'. unfold TransitQueuePairToRTR.
  apply (keeps_ids_modify (rtr_attr (dev_port_ c) peer) rtr_mask _ c c').
Qed.

Lemma keeps_ids_RTS : keeps_ids TransitQueuePairToRTS.
Proof. intros c c'. apply (keeps_ids_modify rts_attr rts_mask _ c c'). Qed.

Lemma keeps_ids_HandleWorkCompletion wc : keeps_ids (HandleWorkCompletion wc).
Proof.
  intros c c'. unfold HandleWorkCompletion. case_bool_decide; [done |].
  destruct (wr_ctx_ c !! wc_wr_id wc) as [entry |] eqn:E; [| done].
  intros Hdone Hi. pose proof (ids_inv_moved c _ _ E Hi) as Hi1.
  revert Hdone. repeat case_bool_decide.
  - intros (c2 & Hpost & [= <-])%and_then_Done.
    pose proof (keeps_ids_PostReceive _ _ Hpost Hi1) as Hi2.
    by apply (keeps_ids_emit (OnRecv (buf entry)) ltac:(done) c2).
  - intros [= <-].
    by apply (keeps_ids_emit (OnSent (buf entry)) ltac:(done) _ _ eq_refl).
  - intros [= <-].
    by apply (keeps_ids_emit (OnRdmaReadComplete (buf entry)) ltac:(done)
                _ _ eq_refl).
  - intros [= <-].
    pose proof (keeps_ids_emit (LogUnknownOpcode (wc_opcode wc)) ltac:(done)
                  _ _ eq_refl Hi1) as Hlog.
    revert Hlog. by apply ids_inv_same.
Qed.

Section ids.
Variable k : nat.

Lemma keeps_ids_MarkConnected : keeps_ids (MarkConnected k).
Proof.
  intros c c'. unfold MarkConnected. case_bool_decide; [done |].
  intros (c3 & Hfill & [= <-])%and_then_Done Hi.
  assert (Hi3 : ids_inv c3).
  { apply (keeps_ids_repeat_call k PostReceive keeps_ids_PostReceive _ _
             Hfill).
    revert Hi. apply ids_inv_same. unfold same_ids, posted.
    destruct (poller_type_ c); simpl; split_and!; try done;
      rewrite !omap_app; simpl; by rewrite !app_nil_r. }
  revert Hi3. by apply ids_inv_same.
Qed.

Lemma keeps_ids_RecvConnInfo_cb err msg : keeps_ids (RecvConnInfo_cb k err msg).
Proof.
  intros c c'. unfold RecvConnInfo_cb.
  repeat (case_bool_decide; [done |]).
  apply keeps_ids_and_then;
    [apply keeps_ids_and_then; [apply keeps_ids_RTR | apply keeps_ids_RTS] |].
  intros c1 c1'. destruct (memory_region_ c1) as [region |].
  - apply keeps_ids_and_then; [apply keeps_ids_and_then |].
    + apply keeps_ids_MarkConnected.
    + by apply (keeps_ids_emit OnConnected).
    + intros c2 c2'. unfold SendMemoryRegion.
      destruct (memory_region_ c2); [| done].
      by apply (keeps_ids_emit (TcpAsyncWrite _)).
  - intros [= <-]. apply ids_inv_same. unfold same_ids, posted. simpl.
    split_and!; try done. rewrite omap_app. simpl. by rewrite app_nil_r.
Qed.

Lemma keeps_ids_RecvMemoryRegion_cb err msg :
  keeps_ids (RecvMemoryRegion_cb k err msg).
Proof.
  intros c c'. unfold RecvMemoryRegion_cb.
  repeat (case_bool_decide;
          [by apply (keeps_ids_emit LogRecvMemoryRegionFailed) |]).
  intros Hd Hi.
  apply (keeps_ids_and_then (MarkConnected k) call_OnConnected
           keeps_ids_MarkConnected
           (keeps_ids_emit OnConnected ltac:(done)) _ _ Hd).
  revert Hi. by apply ids_inv_same.
Qed.

Lemma ids_inv_step a c c' :
  step k a c = Some (Done c') → ids_inv c → ids_inv c'.
Proof.
  destruct a; simpl.
  - destruct (tcp_pending_read c) as [[] |]; [| | done]; intros [= Hd] Hi.
    + apply (keeps_ids_RecvConnInfo_cb _ _ _ _ Hd). revert Hi.
      by apply ids_inv_same.
    + apply (keeps_ids_RecvMemoryRegion_cb _ _ _ _ Hd). revert Hi.
      by apply ids_inv_same.
  - destruct (poller_running c); [| done].
    destruct (recv_queue (qp_ c)); [done |]. intros [= Hd] Hi.
    apply (keeps_ids_HandleWorkCompletion _ _ _ Hd). revert Hi.
    by apply ids_inv_same.
  - destruct (poller_running c); [| done].
    destruct (send_queue (qp_ c)); [done |]. intros [= Hd] Hi.
    apply (keeps_ids_HandleWorkCompletion _ _ _ Hd). revert Hi.
    by apply ids_inv_same.
  - destruct (_ && _); [| done]. intros [= Hd] Hi.
    by apply (keeps_ids_HandleWorkCompletion _ _ _ Hd).
  - intros [= Hd] Hi. by apply (keeps_ids_AsyncSend _ _ _ Hd).
  - intros [= Hd] Hi. by apply (keeps_ids_AsyncRead _ _ _ _ Hd).
  - intros [= <-] Hi. revert Hi. by apply ids_inv_same.
Qed.

Lemma ids_inv_run acts c c' :
  run k acts (Done c) = Some (Done c') → ids_inv c → ids_inv c'.
Proof.
  revert c. induction acts as [| a acts IH]; intros c; simpl.
  - by intros [= <-].
  - destruct (step k a c) as [[c1 | c1 msg] |] eqn:Hstep; [| | done].
    + intros Hrun Hi. apply (IH c1 Hrun). by eapply ids_inv_step.
    + by destruct acts.
Qed.

Lemma reachable_ids_inv c : reachable k (Done c) → ids_inv c.
Proof.
  intros (cfg & acts & Hrun).
  destruct (Connection_ctor_total cfg) as (c0 & Hc0 & _).
  rewrite Hc0 in Hrun. apply (ids_inv_run acts c0 c Hrun).
  assert (c0 = state_of (Connection_ctor cfg)) as -> by (by rewrite Hc0).
  split; [done |]. intros _. split_and!; try done.
  intros id. simpl. rewrite lookup_empty. split; [by intros [? ?] | lia].
Qed.

End ids.

(** X14.  Work request ids are handed out consecutively from zero, one per
    post, whichever of [PostReceive], [AsyncSend] and [AsyncRead] posts:
    until the 64-bit counter has gone round, the ids entered in the
    context table after [n] posts are exactly 0, 1, ..., [n - 1], so no two
    posts share an id and no insertion finds its key taken.  The table
    holds exactly one entry per work request ever posted, those long
    completed included: its size is the number of posts so far. *)
Theorem work_request_ids_are_consecutive (k : nat) (c : Connection) :
  reachable k (Done c) →
  N.of_nat (List.length (posted c)) ≤ 2 ^ 64 →
  posted c ≡ₚ N.of_nat <$> seq 0 (List.length (posted c))
  ∧ NoDup (posted c)
  ∧ base.size (wr_ctx_ c) = List.length (posted c)
  ∧ (∀ id, is_Some (wr_ctx_ c !! id) ↔ id ∈ posted c)
  ∧ next_wr_id_ c = N.of_nat (List.length (posted c)) `mod` 2 ^ 64.
Proof.
  intros [Hnext Hsmall]%reachable_ids_inv Hle.
  destruct (Hsmall Hle) as (Hseq & Hsize & Hdom).
  split_and!; try done.
  - by rewrite <- Hseq.
  - rewrite Hseq. apply (NoDup_fmap_2 _). apply NoDup_seq.
  - intros id. rewrite Hdom. remember (List.length (posted c)) as n.
    rewrite Hseq, list_elem_of_fmap. split.
    + intros Hlt. exists (N.to_nat id). split; [lia |].
      apply elem_of_seq. lia.
    + intros (i & -> & Hi%elem_of_seq). lia.
Qed.

Lemma work_request_ids_are_consecutive_witness :
  posted server_busy_state
  ≡ₚ N.of_nat <$> seq 0 (List.length (posted server_busy_state))
  ∧ NoDup (posted server_busy_state)
  ∧ base.size (wr_ctx_ server_busy_state)
    = List.length (posted server_busy_state)
  ∧ (∀ id, is_Some (wr_ctx_ server_busy_state !! id)
           ↔ id ∈ posted server_busy_state)
  ∧ next_wr_id_ server_busy_state
    = N.of_nat (List.length (posted server_busy_state)) `mod` 2 ^ 64.
Proof.
  apply (work_request_ids_are_consecutive backlog server_busy_state).
  - exists server_cfg, server_busy. exact server_busy_run.
  - vm_compute. discriminate.
Defined.

Example server_busy_posted : posted server_busy_state = [0; 1; 2; 3; 4; 5; 6].
Proof. vm_compute. reflexivity. Qed.

(** ** The link: connected, poller, handshake reads *)

Definition link_inv (c : Connection) : Prop :=
  connected_calls c = (if is_connected_ c then [OnConnected] else [])
  ∧ (is_connected_ c = true →
       qp_state (qp_ c) = IBV_QPS_RTS ∧ poller_running c = true
       ∧ tcp_pending_read c = None).

Definition same_link_state (c c' : Connection) : Prop :=
  is_connected_ c' = is_connected_ c
  ∧ qp_state (qp_ c') = qp_state (qp_ c)
  ∧ poller_running c' = poller_running c
  ∧ tcp_pending_read c' = tcp_pending_read c
  ∧ connected_calls c' = connected_calls c.

Lemma same_link_state_refl c : same_link_state c c.
Proof. by split_and!. Qed.

Lemma same_link_state_trans c1 c2 c3 :
  same_link_state c1 c2 → same_link_state c2 c3 → same_link_state c1 c3.
Proof.
  intros (? & ? & ? & ? & ?) (? & ? & ? & ? & ?). split_and!; congruence.
Qed.

Lemma link_inv_same c c' : same_link_state c c' → link_inv c → link_inv c'.
Proof.
  intros (Hc & Hs & Hp & Hr & Hcalls). unfold link_inv.
  by rewrite Hc, Hs, Hp, Hr, Hcalls.
Qed.

Lemma posts_one_link c c' b : posts_one c c' b → same_link_state c c'.
Proof. intros []. by split_and!. Qed.

Lemma repeat_PostReceive_link n c c' :
  repeat_call n PostReceive c = Done c' → same_link_state c c'.
Proof.
  revert c. induction n as [| n IH]; intros c; simpl.
  - intros [= <-]. apply same_link_state_refl.
  - intros (c1 & (b & wr & Hp & _)%PostReceive_posts_one & Hrest)%and_then_Done.
    eapply same_link_state_trans; [by eapply posts_one_link | by apply IH].
Qed.

Lemma emit_link e c :
  e ≠ OnConnected → same_link_state c (emit e c).
Proof.
  intros He. unfold same_link_state, connected_calls. simpl.
  split_and!; try done. rewrite omap_app. simpl.
  destruct e; try done; by rewrite app_nil_r.
Qed.

Lemma modify_link attr mask msg c c' :
  die_if (ibv_modify_qp attr mask c) msg = Done c' →
  is_connected_ c' = is_connected_ c
  ∧ poller_running c' = poller_running c
  ∧ tcp_pending_read c' = tcp_pending_read c
  ∧ connected_calls c' = connected_calls c
  ∧ memory_region_ c' = memory_region_ c
  ∧ qp_state (qp_ c') = attr_qp_state attr.
Proof.
  unfold die_if, ibv_modify_qp. destruct (_ && _); simpl; [| done].
  intros [= <-]. unfold connected_calls. simpl. split_and!; try done.
  rewrite omap_app. simpl. by rewrite app_nil_r.
Qed.

Lemma HandleWorkCompletion_link wc c c' :
  HandleWorkCompletion wc c = Done c' → same_link_state c c'.
Proof.
  unfold HandleWorkCompletion. case_bool_decide; [done |].
  destruct (wr_ctx_ c !! wc_wr_id wc) as [entry |] eqn:E; [| done].
  repeat case_bool_decide.
  - intros (c2 & (b & wr & Hp & _)%PostReceive_posts_one & [= <-])%and_then_Done.
    apply posts_one_link in Hp.
    eapply same_link_state_trans; [| by apply emit_link].
    eapply same_link_state_trans; [| exact Hp]. by split_and!.
  - intros [= <-].
    eapply same_link_state_trans; [| by apply emit_link]. by split_and!.
  - intros [= <-].
    eapply same_link_state_trans; [| by apply emit_link]. by split_and!.
  - intros [= <-]. unfold same_link_state, connected_calls. simpl.
    split_and!; try done. rewrite omap_app. simpl. by rewrite app_nil_r.
Qed.

Section link.
Variable k : nat.

Lemma MarkConnected_link c c' :
  MarkConnected k c = Done c' →
  qp_state (qp_ c) = IBV_QPS_RTS
  ∧ is_connected_ c' = true
  ∧ qp_state (qp_ c') = IBV_QPS_RTS
  ∧ poller_running c' = true
  ∧ tcp_pending_read c' = tcp_pending_read c
  ∧ connected_calls c' = connected_calls c.
Proof.
  unfold MarkConnected. case_bool_decide as Hrts; [done |].
  intros (c3 & Hfill%repeat_PostReceive_link & [= <-])%and_then_Done.
  destruct Hfill as (Hc & Hs & Hp & Hr & Hcalls). simpl in *.
  assert (qp_state (qp_ c) = IBV_QPS_RTS) as Hst.
  { destruct (decide (qp_state (qp_ c) = IBV_QPS_RTS)); [done |].
    by destruct Hrts. }
  unfold connected_calls in *.
  destruct (poller_type_ c); simpl in *;
    rewrite ?omap_app in Hcalls; simpl in Hcalls;
    rewrite ?app_nil_r in Hcalls; split_and!; congruence.
Qed.

Lemma link_inv_RecvConnInfo_cb err msg c c' :
  is_connected_ c = false → tcp_pending_read c = None →
  connected_calls c = [] →
  RecvConnInfo_cb k err msg c = Done c' → link_inv c'.
Proof.
  intros Hco Hpe Hcalls. unfold RecvConnInfo_cb.
  repeat (case_bool_decide; [done |]).
  intros (c2 & (c1 & Hrtr & Hrts)%and_then_Done & Hrest)%and_then_Done.
  apply modify_link in Hrtr as (Hc1 & Hp1 & Hr1 & Hk1 & _ & _).
  apply modify_link in Hrts as (Hc2 & Hp2 & Hr2 & Hk2 & _ & Hs2).
  destruct (memory_region_ c2).
  - apply and_then_Done in Hrest
      as (c4 & (c3 & Hmark & [= <-])%and_then_Done & Hsend).
    apply MarkConnected_link in Hmark as (_ & Hc3 & Hs3 & Hp3 & Hr3 & Hk3).
    unfold SendMemoryRegion in Hsend. simpl in Hsend.
    destruct (memory_region_ c3); [| done]. injection Hsend as <-.
    unfold link_inv, connected_calls in *. simpl.
    rewrite !omap_app. simpl. rewrite app_nil_r, Hc3, Hk3, Hk2, Hk1, Hcalls.
    split; [done |]. intros _. split_and!; congruence.
  - injection Hrest as <-. unfold link_inv, connected_calls in *. simpl.
    rewrite omap_app. simpl. rewrite app_nil_r, Hc2, Hc1, Hco, Hk2, Hk1.
    done.
Qed.

Lemma link_inv_RecvMemoryRegion_cb err msg c c' :
  is_connected_ c = false → tcp_pending_read c = None →
  connected_calls c = [] →
  RecvMemoryRegion_cb k err msg c = Done c' → link_inv c'.
Proof.
  intros Hco Hpe Hcalls. unfold RecvMemoryRegion_cb.
  assert (Hfail : link_inv (emit LogRecvMemoryRegionFailed c)).
  { unfold link_inv, connected_calls in *. simpl. rewrite omap_app. simpl.
    by rewrite app_nil_r, Hco, Hcalls. }
  repeat (case_bool_decide; [by intros [= <-] |]).
  intros (c3 & Hmark & [= <-])%and_then_Done.
  apply MarkConnected_link in Hmark as (_ & Hc3 & Hs3 & Hp3 & Hr3 & Hk3).
  unfold link_inv, connected_calls in *. simpl in *.
  rewrite omap_app. simpl. rewrite Hc3, Hk3, Hcalls.
  split; [done |]. intros _. split_and!; congruence.
Qed.

Lemma link_inv_step a c c' :
  link_inv c → step k a c = Some (Done c') → link_inv c'.
Proof.
  intros Hinv. pose proof Hinv as [Hcalls Hcon]. destruct a; simpl.
  - destruct (tcp_pending_read c) as [[] |] eqn:Hpe; [| | done];
      intros [= Hcb];
      (destruct (is_connected_ c) eqn:Hco;
       [destruct (Hcon eq_refl) as (_ & _ & ?); congruence |]).
    + eapply link_inv_RecvConnInfo_cb; [.. | exact Hcb]; simpl; auto.
    + eapply link_inv_RecvMemoryRegion_cb; [.. | exact Hcb]; simpl; auto.
  - destruct (poller_running c); [| done].
    destruct (recv_queue (qp_ c)); [done |]. intros [= Hd].
    apply HandleWorkCompletion_link in Hd. revert Hinv.
    apply link_inv_same.
    eapply same_link_state_trans; [| exact Hd]. by split_and!.
  - destruct (poller_running c); [| done].
    destruct (send_queue (qp_ c)); [done |]. intros [= Hd].
    apply HandleWorkCompletion_link in Hd. revert Hinv.
    apply link_inv_same.
    eapply same_link_state_trans; [| exact Hd]. by split_and!.
  - destruct (_ && _); [| done]. intros [= Hd].
    apply HandleWorkCompletion_link in Hd. revert Hinv.
    by apply link_inv_same.
  - intros [= (wr & Hp & _)%AsyncSend_posts_one]. revert Hinv.
    by eapply link_inv_same, posts_one_link.
  - intros [= (b & wr & Hp & _)%AsyncRead_posts_one]. revert Hinv.
    by eapply link_inv_same, posts_one_link.
  - intros [= <-]. revert Hinv. apply link_inv_same. by split_and!.
Qed.

Lemma link_inv_run acts c c' :
  link_inv c → run k acts (Done c) = Some (Done c') → link_inv c'.
Proof.
  revert c. induction acts as [| a acts IH]; intros c Hinv; simpl.
  - by intros [= <-].
  - destruct (step k a c) as [[c1 | c1 msg] |] eqn:Hstep; [| | done].
    + apply IH. by eapply link_inv_step.
    + by destruct acts.
Qed.

Lemma reachable_link_inv c : reachable k (Done c) → link_inv c.
Proof.
  intros (cfg & acts & Hrun).
  destruct (Connection_ctor_total cfg) as (c0 & Hc0 & _ & _ & _ & Hco & _).
  rewrite Hc0 in Hrun. apply (link_inv_run acts c0 c); [| done].
  assert (c0 = state_of (Connection_ctor cfg)) as -> by (by rewrite Hc0).
  split; [done |]. intros Ht. simpl in Ht. done.
Qed.

(** [is_connected_] is never cleared, whether the call returns or ends
    the process. *)
Definition stays (f : Connection → outcome) : Prop :=
  ∀ c, is_connected_ c = true → is_connected_ (state_of (f c)) = true.

Lemma stays_and_then f g : stays f → stays g → stays (f >>> g).
Proof.
  intros Hf Hg c Hc. unfold and_then. specialize (Hf c Hc).
  destruct (f c) as [c1 | c1 msg]; simpl in *; [by apply Hg | done].
Qed.

Lemma stays_repeat_call n f : stays f → stays (repeat_call n f).
Proof.
  intros Hf. induction n as [| n IH]; simpl; [by intros c |].
  by apply stays_and_then.
Qed.

Local Ltac solve_stays :=
  intros c Hc;
  unfold PostReceive, AsyncSend, AsyncRead, TransitQueuePairToRTR,
    TransitQueuePairToRTS, SendMemoryRegion, RecvMemoryRegion,
    call_OnConnected, fetch_add_wr_id, with_block, die_if, ibv_post_recv,
    ibv_post_send, ibv_modify_qp, emplace_ctx;
  repeat first
    [ case_bool_decide
    | match goal with
      | |- context [match ?x with _ => _ end] => destruct x eqn:?
      | |- context [if ?x then _ else _] => destruct x eqn:?
      end ];
  simpl in *; congruence.

Lemma stays_PostReceive : stays PostReceive.
Proof. solve_stays. Qed.

Lemma stays_AsyncSend b : stays (AsyncSend b).
Proof. solve_stays. Qed.

Lemma stays_AsyncRead offset len : stays (AsyncRead offset len).
Proof. solve_stays. Qed.

Lemma stays_simple peer :
  stays (TransitQueuePairToRTR peer) ∧ stays TransitQueuePairToRTS
  ∧ stays SendMemoryRegion ∧ stays RecvMemoryRegion ∧ stays call_OnConnected.
Proof. split_and!; solve_stays. Qed.

Lemma stays_HandleWorkCompletion wc : stays (HandleWorkCompletion wc).
Proof.
  intros c Hc. unfold HandleWorkCompletion. case_bool_decide; [done |].
  destruct (wr_ctx_ c !! wc_wr_id wc) as [entry |] eqn:E; [| done].
  repeat case_bool_decide; try done.
  apply (stays_and_then PostReceive); [apply stays_PostReceive | | done].
  by intros c2.
Qed.

Lemma stays_MarkConnected : stays (MarkConnected k).
Proof.
  intros c Hc. unfold MarkConnected. case_bool_decide; [done |].
  apply (stays_and_then (repeat_call k PostReceive));
    [apply stays_repeat_call, stays_PostReceive | by intros c3 |].
  by destruct (poller_type_ c).
Qed.

Lemma stays_step a c o :
  step k a c = Some o → is_connected_ c = true →
  is_connected_ (state_of o) = true.
Proof.
  destruct a; simpl.
  - destruct (tcp_pending_read c) as [[] |]; [| | done]; intros [= <-] Hc.
    + unfold RecvConnInfo_cb. repeat (case_bool_decide; [done |]).
      destruct (stays_simple (msg_conn msg))
        as (Hrtr & Hrts & Hsend & Hrecv & Hcall).
      apply stays_and_then; [by apply stays_and_then | | done].
      intros c1 Hc1. destruct (memory_region_ c1); [| by apply Hrecv].
      apply stays_and_then; [apply stays_and_then | |]; try done.
      apply stays_MarkConnected.
    + unfold RecvMemoryRegion_cb. repeat (case_bool_decide; [done |]).
      destruct (stays_simple (msg_conn msg))
        as (Hrtr & Hrts & Hsend & Hrecv & Hcall).
      by apply (stays_and_then (MarkConnected k));
        [apply stays_MarkConnected | ..].
  - destruct (poller_running c); [| done].
    destruct (recv_queue (qp_ c)); [done |]. intros [= <-] Hc.
    by apply stays_HandleWorkCompletion.
  - destruct (poller_running c); [| done].
    destruct (send_queue (qp_ c)); [done |]. intros [= <-] Hc.
    by apply stays_HandleWorkCompletion.
  - destruct (_ && _); [| done]. intros [= <-] Hc.
    by apply stays_HandleWorkCompletion.
  - intros [= <-] Hc. by apply stays_AsyncSend.
  - intros [= <-] Hc. by apply stays_AsyncRead.
  - by intros [= <-] Hc.
Qed.

Lemma stays_run acts c o :
  run k acts (Done c) = Some o → is_connected_ c = true →
  is_connected_ (state_of o) = true.
Proof.
  revert c. induction acts as [| a acts IH]; intros c; simpl.
  - by intros [= <-].
  - destruct (step k a c) as [[c1 | c1 msg] |] eqn:Hstep; [| | done].
    + intros Hrun Hc. apply (IH c1 Hrun). by apply (stays_step _ _ _ Hstep).
    + destruct acts; [| done]. intros [= <-] Hc.
      by apply (stays_step _ _ _ Hstep).
Qed.

End link.

(** X15.  A connection is marked connected exactly when [OnConnected] has
    been delivered, and that happens at most once: on every connection
    the program can reach, the trace holds one [OnConnected] call if
    [is_connected_] is set and none otherwise.  A connected connection has
    its queue pair in RTS, its completion poller started and no handshake
    read pending.  And [is_connected_] is never cleared again: whatever
    the application, the socket and the completion queue do afterwards,
    and whether the next call returns or ends the process, the connection
    stays marked connected. *)
Theorem connected_once_and_for_all (k : nat) (c : Connection) :
  reachable k (Done c) →
  connected_calls c = (if is_connected_ c then [OnConnected] else [])
  ∧ (is_connected_ c = true →
       qp_state (qp_ c) = IBV_QPS_RTS ∧ poller_running c = true
       ∧ tcp_pending_read c = None
       ∧ ∀ acts o, run k acts (Done c) = Some o →
                   is_connected_ (state_of o) = true).
Proof.
  intros [Hcalls Hcon]%reachable_link_inv. split; [done |].
  intros Hc. destruct (Hcon Hc) as (? & ? & ?). split_and!; try done.
  intros acts o Hrun. by eapply stays_run.
Qed.

Lemma connected_once_and_for_all_witness :
  connected_calls server_busy_state
  = (if is_connected_ server_busy_state then [OnConnected] else [])
  ∧ (is_connected_ server_busy_state = true →
       qp_state (qp_ server_busy_state) = IBV_QPS_RTS
       ∧ poller_running server_busy_state = true
       ∧ tcp_pending_read server_busy_state = None
       ∧ ∀ acts o, run backlog acts (Done server_busy_state) = Some o →
                   is_connected_ (state_of o) = true).
Proof.
  apply (connected_once_and_for_all backlog server_busy_state).
  exists server_cfg, server_busy. exact server_busy_run.
Defined.

(** ** A send and a read, from the post to the callback *)



(** X17.  An RDMA read comes back with the buffer it was read into.  On a
    connected connection with no send outstanding and a free block in the
    pool, [AsyncRead(offset, length)] takes that block, posts one signaled
    RDMA_READ for [length] bytes (as a 32-bit count) from the peer's
    region at [remote_mr_.addr + offset] into the block just past its
    message header, and records [length] in the header.  No bound is
    checked against the size of the peer's region.  When the poller takes
    the completion, the one callback made is [OnRdmaReadComplete] with
    that block. *)
Theorem read_buffer_comes_back
    (k : nat) (c : Connection) (offset len : N) (blk : Block)
    (pool : MemoryBlockAllocator) :
  reachable k (Done c) →
  is_connected_ c = true →
  send_queue (qp_ c) = [] →
  Allocate (local_buf_ c) = Some (blk, pool) →
  N.of_nat (List.length (posted c)) < 2 ^ 64 →
  let id := N.of_nat (List.length (posted c)) in
  let filled := {| block_index := block_index blk;
                   bytes_length := len `mod` 2 ^ 32 |} in
  let wr := {| send_wr_id := id; opcode := IBV_WR_RDMA_READ;
               send_signaled := true;
               send_sg_list :=
                 [{| sge_addr := block_data pool blk + sizeof_header;
                     sge_length := len `mod` 2 ^ 32;
                     sge_lkey := local_mr_lkey c |}];
               remote_addr := (addr (remote_mr_ c) + offset) `mod` 2 ^ 64;
               wr_rkey := rkey (remote_mr_ c) |} in
  ∃ c1 c2,
    step k (CallAsyncRead offset len) c = Some (Done c1)
    ∧ send_queue (qp_ c1) = [wr]
    ∧ wr_ctx_ c1 !! id = Some {| buf := Some filled |}
    ∧ step k PollSend c1 = Some (Done c2)
    ∧ trace c2
      = trace c ++ [CtxEmplace id; PostSend wr;
                    OnRdmaReadComplete (Some filled)]
    ∧ send_queue (qp_ c2) = []
    ∧ recv_queue (qp_ c2) = recv_queue (qp_ c).
Proof.
  intros Hreach Hco Hsq Halloc Hlt id filled wr.
  destruct (reachable_ids_inv k c Hreach) as [Hnext Hsmall].
  destruct Hsmall as (_ & _ & Hdom); [lia |].
  destruct (reachable_link_inv k c Hreach) as [_ Hlink].
  destruct (Hlink Hco) as (_ & Hpo & _).
  assert (Hid : next_wr_id_ c = id).
  { rewrite Hnext. by apply N.mod_small. }
  assert (Hfresh : wr_ctx_ c !! id = None).
  { destruct (wr_ctx_ c !! id) eqn:E; [| done].
    assert (is_Some (wr_ctx_ c !! id)) as Hs by (by rewrite E).
    apply Hdom in Hs. lia. }
  eexists. eexists.
  unfold step, AsyncRead, fetch_add_wr_id, with_block, die_if, ibv_post_send,
    emplace_ctx.
  simpl. rewrite Halloc. simpl. rewrite Hid, Hfresh. simpl. rewrite Hsq.
  simpl. split; [reflexivity |]. simpl. split; [done |].
  split; [apply lookup_insert_eq |]. rewrite Hpo.
  unfold HandleWorkCompletion. simpl. rewrite lookup_insert_eq. simpl.
  split; [reflexivity |]. simpl.
  split_and!; try done.
  by rewrite <- !(assoc_L (++)).
Qed.

(** The server, just connected, reads 16 bytes at offset 32 of a peer
    region it never received: the request goes out for address 32. *)
Lemma read_buffer_comes_back_witness :
  let blk := {| block_index := 4; bytes_length := 0 |} in
  let pool := {| pool_data := 1073741824;
                 free_blocks := N.of_nat <$> seq 5 1019 |} in
  let id := N.of_nat (List.length (posted server_connected)) in
  let filled := {| block_index := block_index blk;
                   bytes_length := 16 `mod` 2 ^ 32 |} in
  let wr := {| send_wr_id := id; opcode := IBV_WR_RDMA_READ;
               send_signaled := true;
               send_sg_list :=
                 [{| sge_addr := block_data pool blk + sizeof_header;
                     sge_length := 16 `mod` 2 ^ 32;
                     sge_lkey := local_mr_lkey server_connected |}];
               remote_addr :=
                 (addr (remote_mr_ server_connected) + 32) `mod` 2 ^ 64;
               wr_rkey := rkey (remote_mr_ server_connected) |} in
  ∃ c1 c2,
    step backlog (CallAsyncRead 32 16) server_connected = Some (Done c1)
    ∧ send_queue (qp_ c1) = [wr]
    ∧ wr_ctx_ c1 !! id = Some {| buf := Some filled |}
    ∧ step backlog PollSend c1 = Some (Done c2)
    ∧ trace c2
      = trace server_connected
        ++ [CtxEmplace id; PostSend wr; OnRdmaReadComplete (Some filled)]
    ∧ send_queue (qp_ c2) = []
    ∧ recv_queue (qp_ c2) = recv_queue (qp_ server_connected).
Proof.
  apply (read_buffer_comes_back backlog server_connected 32 16
           {| block_index := 4; bytes_length := 0 |}
           {| pool_data := 1073741824;
              free_blocks := N.of_nat <$> seq 5 1019 |}).
  - exists server_cfg, [TcpReadCompletes 0 client_hello].
    vm_compute. reflexivity.
  - vm_compute. reflexivity.
  - vm_compute. reflexivity.
  - vm_compute. reflexivity.
  - vm_compute. reflexivity.
Defined.

End ArioInvariants.

(* ===================================================================== *)
(** * Facts about opening the device                                      *)
(* ===================================================================== *)

Module ConnectorFacts.
Import Connector.

(** A machine with an Ethernet adapter whose port is down and a two-port
    InfiniBand adapter whose second port is active. *)
Definition two_adapters : list ibv_device :=
  [{| device_name := "mlx5_0"; device_query := 0;
      ports := [{| port_query := 0; port_state := IBV_PORT_DOWN |}] |};
   {| device_name := "mlx5_1"; device_query := 0;
      ports := [{| port_query := 0; port_state := IBV_PORT_INIT |};
                {| port_query := 0; port_state := IBV_PORT_ACTIVE |}] |}].

Example opens_mlx5_1 :
  CreateContext "mlx5_1" two_adapters
  = Ok {| ctx_ := Some 1%nat; dev_port_ := 2; open_contexts := [1%nat] |}.
Proof. reflexivity. Qed.

Example mlx5_0_has_no_active_port :
  CreateContext "mlx5_0" two_adapters
  = Fatal "Could not find active port at device mlx5_0".
Proof. reflexivity. Qed.

Example no_such_device :
  CreateContext "mlx4_0" two_adapters
  = Fatal "Could not open device: mlx4_0".
Proof. reflexivity. Qed.

Lemma scan_ports_spec (p : nat) (l : list ibv_port) (dev_port : nat) :
  (0 < p)%nat →
  match scan_ports p l dev_port with
  | Ok r =>
      Forall (λ port, port_query port = 0) l
      ∧ r = (if bool_decide (dev_port = 0%nat)
             then match list_find (λ port, port_state port = IBV_PORT_ACTIVE) l
                  with
                  | Some (k, _) => (p + k)%nat
                  | None => 0%nat
                  end
             else dev_port)
  | Fatal msg =>
      msg = "ibv_query_port" ∧ Exists (λ port, port_query port ≠ 0) l
  end.
Proof.
  revert p dev_port. induction l as [| port rest IH]; intros p dev_port Hp.
  - simpl. split; [done |]. by case_bool_decide.
  - cbn [scan_ports]. case_bool_decide as Hq.
    { split; [done |]. by left. }
    assert (port_query port = 0) as Hq0.
    { destruct (decide (port_query port = 0)); [done | by destruct Hq]. }
    case_bool_decide as Hs.
    + specialize (IH (S p) dev_port ltac:(lia)).
      destruct (scan_ports (S p) rest dev_port) as [r | msg].
      * destruct IH as [Hall ->]. split; [by constructor |].
        case_bool_decide; [| done]. cbn [list_find].
        rewrite decide_False by done.
        destruct (list_find _ rest) as [[k x] |]; simpl; [lia | done].
      * destruct IH as [-> Hex]. split; [done | by right].
    + assert (port_state port = IBV_PORT_ACTIVE) as Ha.
      { destruct (decide (port_state port = IBV_PORT_ACTIVE)); [done |].
        by destruct Hs. }
      specialize (IH (S p) (if bool_decide (dev_port = 0%nat) then p
                            else dev_port) ltac:(lia)).
      destruct (scan_ports (S p) rest _) as [r | msg].
      * destruct IH as [Hall ->]. split; [by constructor |].
        cbn [list_find]. rewrite decide_True by done. simpl.
        case_bool_decide as Hd.
        -- exfalso. destruct (bool_decide (dev_port = 0%nat)) eqn:E; [lia |].
           by apply bool_decide_eq_false in E.
        -- case_bool_decide; [lia | done].
      * destruct IH as [-> Hex]. split; [done | by right].
Qed.

Lemma scan_ports_first_active (dev : ibv_device) :
  match scan_ports 1 (ports dev) 0 with
  | Ok r =>
      Forall (λ port, port_query port = 0) (ports dev)
      ∧ r = first_active_port dev
  | Fatal msg =>
      msg = "ibv_query_port"
      ∧ Exists (λ port, port_query port ≠ 0) (ports dev)
  end.
Proof.
  pose proof (scan_ports_spec 1 (ports dev) 0 ltac:(lia)) as H.
  destruct (scan_ports 1 (ports dev) 0) as [r | msg]; [| done].
  destruct H as [Hall ->]. split; [done |]. unfold first_active_port. simpl.
  by destruct (list_find _ (ports dev)) as [[k x] |].
Qed.

Definition no_port_message (name : string) : string :=
  "Could not find active port at device " +:+ name.

Definition no_device_message (name : string) : string :=
  "Could not open device: " +:+ name.

Lemma scan_devices_spec (name : string) (i : nat) (devs : list ibv_device)
    (st : Context) :
  match scan_devices name i devs st with
  | Ok st' =>
      queries_succeed devs
      ∧ (∀ d, d ∈ devs → name = device_name d → first_active_port d ≠ 0%nat)
      ∧ (∀ j : nat,
           j ∈ open_contexts st' ↔
           j ∈ open_contexts st
           ∨ ∃ (k : nat) d, j = (i + k)%nat ∧ devs !! k = Some d
                            ∧ name = device_name d)
      ∧ ((∀ d, d ∈ devs → name ≠ device_name d) ∧ st' = st
         ∨ ∃ (k : nat) d,
             ctx_ st' = Some (i + k)%nat ∧ devs !! k = Some d
             ∧ name = device_name d
             ∧ dev_port_ st' = first_active_port d
             ∧ ∀ (k' : nat) d', devs !! k' = Some d' →
                                name = device_name d' → (k' ≤ k)%nat)
  | Fatal msg =>
      (msg = "ibv_query_device" ∨ msg = "ibv_query_port")
      ∧ ¬ queries_succeed devs
      ∨ msg = no_port_message name
        ∧ ∃ d, d ∈ devs ∧ name = device_name d
               ∧ first_active_port d = 0%nat
  end.
Proof.
  revert i st. induction devs as [| dev rest IH]; intros i st.
  - simpl. split_and!.
    + constructor.
    + intros d Hd. by apply elem_of_nil in Hd.
    + intros j. split; [by left |]. intros [? | (k & d & _ & Hk & _)]; done.
    + left. split; [| done]. intros d Hd. by apply elem_of_nil in Hd.
  - cbn [scan_devices]. case_bool_decide as Hq.
    { left. split; [by left |]. intros Hall. apply Forall_cons in Hall.
      by destruct Hall as [[? _] _]. }
    assert (device_query dev = 0) as Hq0.
    { destruct (decide (device_query dev = 0)); [done | by destruct Hq]. }
    pose proof (scan_ports_first_active dev) as Hports.
    destruct (scan_ports 1 (ports dev) 0) as [r | msg]; simpl.
    2:{ destruct Hports as [-> Hex]. left. split; [by right |].
        intros Hall. apply Forall_cons in Hall.
        destruct Hall as [[_ Hall] _].
        apply Exists_exists in Hex as (port & Hin & Hne).
        rewrite Forall_forall in Hall. by apply Hne, Hall. }
    destruct Hports as [Hall ->].
    case_bool_decide as Hname.
    + case_bool_decide as Hport.
      { right. split; [done |]. exists dev. split_and!; [by left | done ..]. }
      specialize (IH (S i) {| ctx_ := Some i;
                              dev_port_ := first_active_port dev;
                              open_contexts := open_contexts st ++ [i] |}).
      destruct (scan_devices name (S i) rest _) as [st' | msg].
      * destruct IH as (Hqs & Hact & Hopen & Hsel). split_and!.
        -- by constructor.
        -- intros d [-> | Hd]%elem_of_cons; [done | by apply Hact].
        -- intros j. rewrite Hopen. simpl. rewrite elem_of_app,
             list_elem_of_singleton. split.
           ++ intros [[? | ->] | (k & d & -> & Hk & Hd)].
              ** by left.
              ** right. exists 0%nat, dev. split_and!; [lia | done ..].
              ** right. exists (S k), d. split_and!; [lia | done ..].
           ++ intros [? | (k & d & -> & Hk & Hd)]; [by left; left |].
              destruct k as [| k]; simpl in Hk.
              ** left. right. lia.
              ** right. exists k, d. split_and!; [lia | done ..].
        -- right. destruct Hsel as [[Hnone ->] | (k & d & Hc & Hk & Hd & Hp
             & Hlast)].
           ++ exists 0%nat, dev. simpl. split_and!; try done.
              { f_equal. lia. }
              intros k' d' Hk' Hd'. destruct k' as [| k']; [lia |].
              simpl in Hk'. exfalso. apply (Hnone d'); [| done].
              by eapply list_elem_of_lookup_2.
           ++ exists (S k), d. split_and!; try done.
              { rewrite Hc. f_equal. lia. }
              intros k' d' Hk' Hd'. destruct k' as [| k']; [lia |].
              simpl in Hk'. specialize (Hlast k' d' Hk' Hd'). lia.
      * destruct IH as [[Hmsg Hnq] | (-> & d & Hd & Hn & Hz)].
        -- left. split; [done |]. intros Hqs. apply Hnq.
           by apply Forall_cons in Hqs as [_ ?].
        -- right. split; [done |]. exists d.
           split_and!; [by right | done ..].
    + specialize (IH (S i) st).
      destruct (scan_devices name (S i) rest st) as [st' | msg].
      * destruct IH as (Hqs & Hact & Hopen & Hsel). split_and!.
        -- by constructor.
        -- intros d [-> | Hd]%elem_of_cons; [done | by apply Hact].
        -- intros j. rewrite Hopen. split.
           ++ intros [? | (k & d & -> & Hk & Hd)]; [by left |].
              right. exists (S k), d. split_and!; [lia | done ..].
           ++ intros [? | (k & d & -> & Hk & Hd)]; [by left |].
              destruct k as [| k]; simpl in Hk; [congruence |].
              right. exists k, d. split_and!; [lia | done ..].
        -- destruct Hsel as [[Hnone ->] | (k & d & Hc & Hk & Hd & Hp
             & Hlast)].
           ++ left. split; [| done].
              intros d [-> | Hd]%elem_of_cons; [done | by apply Hnone].
           ++ right. exists (S k), d. split_and!; try done.
              { rewrite Hc. f_equal. lia. }
              intros k' d' Hk' Hd'. destruct k' as [| k'].
              { simpl in Hk'. congruence. }
              simpl in Hk'. specialize (Hlast k' d' Hk' Hd'). lia.
      * destruct IH as [[Hmsg Hnq] | (-> & d & Hd & Hn & Hz)].
        -- left. split; [done |]. intros Hqs. apply Hnq.
           by apply Forall_cons in Hqs as [_ ?].
        -- right. split; [done |]. exists d.
           split_and!; [by right | done ..].
Qed.

(** X18.  [CreateContext] walks the whole device list.  It returns only
    when every [ibv_query_device] and [ibv_query_port] it makes succeeds,
    those on devices other than the one asked for included, and every
    device with the requested name has an active port.  It then keeps the
    context of the last device in the list that has the requested name,
    and [dev_port_] is the number of that device's first active port; the
    contexts left open are those of the devices with that name, every
    other one having been closed.  Otherwise the process ends: on the
    first failing query, on a device with the requested name and no active
    port, or, after the walk, because no device has the name. *)
Theorem CreateContext_selects_named_device
    (name : string) (devs : list ibv_device) :
  match CreateContext name devs with
  | Ok st =>
      queries_succeed devs
      ∧ (∀ d, d ∈ devs → name = device_name d → first_active_port d ≠ 0%nat)
      ∧ (∀ j : nat,
           j ∈ open_contexts st ↔
           ∃ d, devs !! j = Some d ∧ name = device_name d)
      ∧ ∃ (i : nat) dev port,
          ctx_ st = Some i ∧ devs !! i = Some dev ∧ name = device_name dev
          ∧ (∀ (j : nat) d, devs !! j = Some d → name = device_name d →
                            (j ≤ i)%nat)
          ∧ dev_port_ st = first_active_port dev
          ∧ ports dev !! (dev_port_ st - 1)%nat = Some port
          ∧ (0 < dev_port_ st)%nat
          ∧ port_state port = IBV_PORT_ACTIVE
          ∧ (∀ (q : nat) port', (q < dev_port_ st - 1)%nat →
               ports dev !! q = Some port' →
               port_state port' ≠ IBV_PORT_ACTIVE)
  | Fatal msg =>
      (msg = "ibv_query_device" ∨ msg = "ibv_query_port")
      ∧ ¬ queries_succeed devs
      ∨ msg = no_port_message name
        ∧ (∃ d, d ∈ devs ∧ name = device_name d
                ∧ first_active_port d = 0%nat)
      ∨ msg = no_device_message name
        ∧ ∀ d, d ∈ devs → name ≠ device_name d
  end.
Proof.
  unfold CreateContext.
  pose proof (scan_devices_spec name 0 devs
                {| ctx_ := None; dev_port_ := 0; open_contexts := [] |}) as H.
  destruct (scan_devices name 0 devs _) as [st | msg]; simpl.
  2:{ destruct H as [? | ?]; [by left | by right; left]. }
  destruct H as (Hqs & Hact & Hopen & Hsel).
  destruct Hsel as [[Hnone ->] | (k & d & Hc & Hk & Hd & Hp & Hlast)]; simpl.
  { right. right. done. }
  rewrite Hc. split_and!; try done.
  - intros j. rewrite Hopen. simpl. split.
    + intros [Hin | (k' & d' & -> & ? & ?)]; [by apply elem_of_nil in Hin |].
      by exists d'.
    + intros (d' & ? & ?). right. by exists j, d'.
  - assert (Hne : first_active_port d ≠ 0%nat).
    { apply Hact; [by eapply list_elem_of_lookup_2 | done]. }
    unfold first_active_port in *.
    destruct (list_find _ (ports d)) as [[q port] |] eqn:Hfind; [| done].
    pose proof Hfind as (Hq & Hactive & Hfirst)%list_find_Some.
    exists k, d, port. rewrite Hp, Hfind. simpl. rewrite Nat.sub_0_r.
    split_and!; try done; try lia.
    intros q' port' Hlt Hq'. by eapply Hfirst.
Qed.

End ConnectorFacts.

(* ===================================================================== *)
(** * Facts about the model instance and the load test                    *)
(* ===================================================================== *)

Module ModelInstanceFacts.
Import ModelInstance.
Local Open Scope N_scope.

Section instance_facts.
Context `{Environment}.

Lemma set_batch_Ok b m m' :
  set_batch b m = Ok m' →
  b ≤ max_batch_ m ∧ batch_ m' = b ∧ max_batch_ m' = max_batch_ m
  ∧ model_session_id_ m' = model_session_id_ m
  ∧ model_index_ m' = model_index_ m.
Proof.
  unfold set_batch. case_bool_decide; [| done]. by intros [= <-].
Qed.

Lemma set_batches_Ok bs m m' :
  set_batches bs m = Ok m' →
  Forall (λ b, b ≤ max_batch_ m) bs
  ∧ batch_ m' = default (batch_ m) (last bs)
  ∧ max_batch_ m' = max_batch_ m
  ∧ model_session_id_ m' = model_session_id_ m
  ∧ model_index_ m' = model_index_ m.
Proof.
  revert m. induction bs as [| b rest IH]; intros m; simpl.
  - by intros [= <-].
  - destruct (set_batch b m) as [m1 | msg] eqn:E; simpl; [| done].
    apply set_batch_Ok in E as (Hb & Hb1 & Hmax & Hid & Hidx).
    intros (Hall & Hlast & Hmax' & Hid' & Hidx')%IH.
    rewrite Hmax in Hall. split_and!; try congruence.
    + by constructor.
    + rewrite Hlast, Hb1. destruct rest as [| b' rest']; [done |].
      change (last (b :: b' :: rest')) with (last (b' :: rest')).
      destruct (last (b' :: rest')) eqn:El; [done |].
      by apply last_None in El.
Qed.

(** X19.  The batch size of a model instance never exceeds its
    [max_batch].  The constructor accepts a configuration only with
    [0 < batch <= max_batch] and a model the database knows, and every
    [set_batch] that returns leaves [batch_] at the value it was given,
    which is at most [max_batch_]; [max_batch_] itself never changes.
    The lower bound is checked by the constructor only: [set_batch(0)]
    goes through on every instance. *)
Theorem batch_stays_within_max_batch
    (gpu_id : Z) (config : ModelInstanceConfig) (model_index : nat)
    (bs : list N) (m m' : ModelInstanceSimple) :
  ModelInstanceSimple_ctor gpu_id config model_index = Ok m →
  set_batches bs m = Ok m' →
  0 < batch config ∧ batch config ≤ max_batch config
  ∧ is_Some (GetModelInfo (ModelSessionToModelID (model_session_0 config)))
  ∧ Forall (λ b, b ≤ max_batch config) bs
  ∧ batch_ m' = default (batch config) (last bs)
  ∧ batch_ m' ≤ max_batch_ m'
  ∧ max_batch_ m' = max_batch config
  ∧ model_session_id_ m' = ModelSessionToString (model_session_0 config)
  ∧ ∃ m0, set_batch 0 m' = Ok m0 ∧ batch_ m0 = 0.
Proof.
  unfold ModelInstanceSimple_ctor.
  case_bool_decide as Hpos; simpl; [| done].
  case_bool_decide as Hle; simpl; [| done].
  destruct (GetModelInfo _) as [info |] eqn:Hinfo; [| done].
  intros [= <-] (Hall & Hlast & Hmax & Hid & Hidx)%set_batches_Ok.
  simpl in *. split_and!; try done.
  - rewrite Hlast, Hmax. destruct (last bs) as [b |] eqn:El; simpl; [| done].
    rewrite Forall_forall in Hall. apply Hall.
    apply last_Some in El as (l' & ->). set_solver.
  - unfold set_batch. rewrite bool_decide_eq_true_2 by lia. by eexists.
Qed.

End instance_facts.

Lemma batch_stays_within_max_batch_witness :
  0 < batch resnet_config ∧ batch resnet_config ≤ max_batch resnet_config
  ∧ is_Some (@GetModelInfo toy_environment
               (@ModelSessionToModelID toy_environment
                  (model_session_0 resnet_config)))
  ∧ Forall (λ b, b ≤ max_batch resnet_config) [8; 16; 1]
  ∧ @batch_ toy_environment
      {| gpu_id_ := 0; model_session_ := resnet_session; model_index_ := 0;
         batch_ := 1; max_batch_ := 16; model_info_ := "resnet_0" : @ModelInfo toy_environment;
         model_session_id_ := "tensorflow:resnet_0:1" |}
    = default (batch resnet_config) (last [8; 16; 1])
  ∧ @batch_ toy_environment
      {| gpu_id_ := 0; model_session_ := resnet_session; model_index_ := 0;
         batch_ := 1; max_batch_ := 16; model_info_ := "resnet_0" : @ModelInfo toy_environment;
         model_session_id_ := "tensorflow:resnet_0:1" |}
    ≤ @max_batch_ toy_environment
        {| gpu_id_ := 0; model_session_ := resnet_session; model_index_ := 0;
           batch_ := 1; max_batch_ := 16; model_info_ := "resnet_0" : @ModelInfo toy_environment;
           model_session_id_ := "tensorflow:resnet_0:1" |}
  ∧ @max_batch_ toy_environment
      {| gpu_id_ := 0; model_session_ := resnet_session; model_index_ := 0;
         batch_ := 1; max_batch_ := 16; model_info_ := "resnet_0" : @ModelInfo toy_environment;
         model_session_id_ := "tensorflow:resnet_0:1" |}
    = max_batch resnet_config
  ∧ @model_session_id_ toy_environment
      {| gpu_id_ := 0; model_session_ := resnet_session; model_index_ := 0;
         batch_ := 1; max_batch_ := 16; model_info_ := "resnet_0" : @ModelInfo toy_environment;
         model_session_id_ := "tensorflow:resnet_0:1" |}
    = @ModelSessionToString toy_environment (model_session_0 resnet_config)
  ∧ ∃ m0,
      @set_batch toy_environment 0
        {| gpu_id_ := 0; model_session_ := resnet_session; model_index_ := 0;
           batch_ := 1; max_batch_ := 16; model_info_ := "resnet_0" : @ModelInfo toy_environment;
           model_session_id_ := "tensorflow:resnet_0:1" |}
      = Ok m0
      ∧ batch_ m0 = 0.
Proof.
  apply (@batch_stays_within_max_batch toy_environment 0 resnet_config 0%nat
           [8; 16; 1]
           {| gpu_id_ := 0; model_session_ := resnet_session;
              model_index_ := 0; batch_ := 16; max_batch_ := 16;
              model_info_ := "resnet_0" : @ModelInfo toy_environment;
              model_session_id_ := "tensorflow:resnet_0:1" |}).
  - reflexivity.
  - reflexivity.
Defined.

(** ** The load test's model session *)

Section load_facts.
Context `{Environment}.
Variable USE_GPU : bool.
Variable gpu_setup : Z → ending unit.

(** The image size the constructor gives the session when it is not taken
    from the command line: the model's own, if the database marks the
    model resizable. *)
Definition default_image (info : ModelInfo) : option N * option N :=
  if node_defined info "resizable" then
    match node_as_bool info "resizable" with
    | Some true =>
        (node_as_uint32 info "image_height", node_as_uint32 info "image_width")
    | _ => (None, None)
    end
  else (None, None).

(** X20.  The session [LoadTest] profiles.  When the constructor returns,
    the session carries the framework, the model name, the version (as an
    unsigned 32-bit number) and a latency SLA of 50000, whatever the
    flags.  Its image size is the height and width given, when the height
    is positive, and then the width must be positive too: a positive
    height with a width that is not ends the process before the GPU is
    looked at.  When the height is not positive the width is not read at
    all: the result is the same for every width, and the image size is
    the model's own when the database marks it resizable and is left
    unset otherwise.  In a build without [USE_GPU] the constructor
    returns only for [gpu = -1]. *)
Theorem LoadTest_session
    (gpu : Z) (fw name : string) (v height width : Z) :
  (∀ width', (height ≤ 0)%Z →
     LoadTest_ctor USE_GPU gpu_setup gpu fw name v height width'
     = LoadTest_ctor USE_GPU gpu_setup gpu fw name v height width)
  ∧ ((0 < height)%Z → (width ≤ 0)%Z →
     is_Some (GetModelInfo3 fw name v) →
     LoadTest_ctor USE_GPU gpu_setup gpu fw name v height width
     = Aborts "Height and width must be set together")
  ∧ match LoadTest_ctor USE_GPU gpu_setup gpu fw name v height width with
    | Constructed lt =>
        GetModelInfo3 fw name v = Some (load_model_info_ lt)
        ∧ gpu_ lt = gpu
        ∧ framework (model_sess_ lt) = fw
        ∧ model_name (model_sess_ lt) = name
        ∧ version (model_sess_ lt) = Z.to_N (v `mod` 2 ^ 32)
        ∧ latency_sla (model_sess_ lt) = 50000
        ∧ model_sessions_ lt = [ModelSessionToString (model_sess_ lt)]
        ∧ (image_height (model_sess_ lt), image_width (model_sess_ lt))
          = (if bool_decide (0 < height)%Z
             then (Some (Z.to_N height), Some (Z.to_N width))
             else default_image (load_model_info_ lt))
        ∧ ((0 < height)%Z → (0 < width)%Z)
        ∧ (USE_GPU = false → gpu = (-1)%Z)
    | Throws _ =>
        (height ≤ 0)%Z ∨ USE_GPU = true
    | Aborts _ => True
    end.
Proof.
  unfold LoadTest_ctor, set_image_size, default_image.
  destruct (GetModelInfo3 fw name v) as [info |] eqn:Hinfo; simpl.
  2:{ split_and!; try done. }
  split_and!.
  - intros width' Hle. by rewrite !(bool_decide_eq_false_2 (0 < height)%Z)
      by lia.
  - intros Hh Hw _. rewrite bool_decide_eq_true_2 by done.
    by rewrite bool_decide_eq_false_2 by lia.
  - case_bool_decide as Hh.
    + case_bool_decide as Hw; [| done].
      destruct USE_GPU.
      * destruct (gpu_setup gpu); [| by right | done]. simpl.
        by split_and!.
      * case_bool_decide as Hg; [done |]. simpl. by split_and!.
    + assert (Hgpu : ∀ sess,
        (image_height sess, image_width sess)
        = (if node_defined info "resizable" then
             match node_as_bool info "resizable" with
             | Some true => (node_as_uint32 info "image_height",
                             node_as_uint32 info "image_width")
             | _ => (None, None)
             end
           else (None, None)) →
        framework sess = fw → model_name sess = name →
        version sess = Z.to_N (v `mod` 2 ^ 32) → latency_sla sess = 50000 →
        match
          (if USE_GPU
           then match gpu_setup gpu with
                | Constructed _ =>
                    Constructed
                      {| gpu_ := gpu; model_sess_ := sess;
                         load_model_info_ := info;
                         model_sessions_ := [ModelSessionToString sess] |}
                | Throws what => Throws what
                | Aborts msg => Aborts msg
                end
           else if bool_decide (gpu ≠ (-1)%Z)
                then Aborts "The code is compiled without USE_GPU."
                else Constructed
                       {| gpu_ := gpu; model_sess_ := sess;
                          load_model_info_ := info;
                          model_sessions_ := [ModelSessionToString sess] |})
        with
        | Constructed lt =>
            Some info = Some (load_model_info_ lt)
            ∧ gpu_ lt = gpu
            ∧ framework (model_sess_ lt) = fw
            ∧ model_name (model_sess_ lt) = name
            ∧ version (model_sess_ lt) = Z.to_N (v `mod` 2 ^ 32)
            ∧ latency_sla (model_sess_ lt) = 50000
            ∧ model_sessions_ lt = [ModelSessionToString (model_sess_ lt)]
            ∧ (image_height (model_sess_ lt), image_width (model_sess_ lt))
              = (if node_defined (load_model_info_ lt) "resizable" then
                   match node_as_bool (load_model_info_ lt) "resizable" with
                   | Some true =>
                       (node_as_uint32 (load_model_info_ lt) "image_height",
                        node_as_uint32 (load_model_info_ lt) "image_width")
                   | _ => (None, None)
                   end
                 else (None, None))
            ∧ ((0 < height)%Z → (0 < width)%Z)
            ∧ (USE_GPU = false → gpu = (-1)%Z)
        | Throws _ => (height ≤ 0)%Z ∨ USE_GPU = true
        | Aborts _ => True
        end).
      { intros sess Himg Hfw Hname Hv Hsla. destruct USE_GPU.
        - destruct (gpu_setup gpu); [| by right | done]. simpl.
          split_and!; try done.
        - case_bool_decide as Hg; [done |]. simpl. by split_and!. }
      destruct (node_defined info "resizable") eqn:Hdef.
      * destruct (node_as_bool info "resizable") as [[|] |] eqn:Hres.
        -- destruct (node_as_uint32 info "image_height") as [h |] eqn:Hih;
             [| left; lia].
           destruct (node_as_uint32 info "image_width") as [w |] eqn:Hiw;
             [| left; lia].
           by apply Hgpu.
        -- by apply Hgpu.
        -- left. lia.
      * by apply Hgpu.
Qed.

End load_facts.

Example resnet_default_size :
  @LoadTest_ctor toy_environment false (λ _, Constructed ()) (-1)
    "tensorflow" "resnet_0" 1 0 640
  = Constructed
      {| gpu_ := -1;
         model_sess_ :=
           {| framework := "tensorflow"; model_name := "resnet_0";
              version := 1; latency_sla := 50000;
              image_height := Some 224; image_width := Some 224 |};
         load_model_info_ := "resnet_0" : @ModelInfo toy_environment;
         model_sessions_ := ["tensorflow:resnet_0:1"] |}.
Proof. reflexivity. Qed.

Example height_without_width :
  @LoadTest_ctor toy_environment false (λ _, Constructed ()) (-1)
    "tensorflow" "vgg16" 1 480 0
  = Aborts "Height and width must be set together".
Proof. reflexivity. Qed.

End ModelInstanceFacts.
